(** * Folder synchronisation: a shallow embedding of [main.py]

    The program mirrors a [source] directory into a [replica] directory: a
    top-down walk of [source] creates and refreshes entries of [replica], a
    bottom-up walk of [replica] removes the entries that [source] lacks.

    The development has four layers:
    - [PyStr]: the string operations the program applies to paths
      ([str.replace] with count 1, [os.path.join], [os.path.basename]) and
      the resolution of a path string into its components;
    - [Fs]: a file system as a tree of nodes, with the [os] and [shutil]
      primitives the program calls, each returning a result or an [OSError];
    - the program itself: [replicate_source] and [main], written in a
      state-and-exception monad over the file system and the output sinks;
    - the properties of one synchronisation pass. *)

From Stdlib Require Import List String Ascii ZArith Lia Bool Arith.
Import ListNotations.

Local Open Scope string_scope.
Local Open Scope list_scope.

(* ================================================================= *)
(** ** Path strings *)

Module PyStr.

(** The path separator of [posixpath]. *)
Definition sep : ascii := "/"%char.

Definition is_sep (c : ascii) : bool := Ascii.eqb c sep.

(** [s.startswith("/")] *)
Definition startswith_sep (s : string) : bool :=
  match s with
  | EmptyString => false
  | String c _ => is_sep c
  end.

(** [s.endswith("/")] *)
Fixpoint endswith_sep (s : string) : bool :=
  match s with
  | EmptyString => false
  | String c EmptyString => is_sep c
  | String _ s' => endswith_sep s'
  end.

(** [s[n:]] *)
Fixpoint drop (n : nat) (s : string) : string :=
  match n, s with
  | O, _ => s
  | S _, EmptyString => EmptyString
  | S n', String _ s' => drop n' s'
  end.

(** [s.replace(old, new, 1)]: the leftmost occurrence of [old] in [s] is
    replaced by [new]; [s] is returned as it is when [old] does not occur.
    An empty [old] occurs at position 0. *)
Fixpoint replace1 (old new s : string) : string :=
  if String.prefix old s then new ++ drop (String.length old) s
  else match s with
       | EmptyString => EmptyString
       | String c s' => String c (replace1 old new s')
       end.

(** [os.path.join(a, b)] of [posixpath], for two arguments. *)
Definition join (a b : string) : string :=
  if startswith_sep b then b
  else if (a =? "") || endswith_sep a then a ++ b
  else a ++ "/" ++ b.

(** [s.split("/")] *)
Fixpoint split_sep (s : string) : list string :=
  match s with
  | EmptyString => [EmptyString]
  | String c s' =>
      if is_sep c then EmptyString :: split_sep s'
      else match split_sep s' with
           | [] => [String c EmptyString]
           | x :: r => String c x :: r
           end
  end.

(** [os.path.basename(p)]: what follows the last separator. *)
Definition basename (p : string) : string := last (split_sep p) EmptyString.

(** A component that path resolution skips: the empty one, left by a
    doubled, leading or trailing separator, and ["."]. *)
Definition skipped (x : string) : bool := (x =? "") || (x =? ".").

(** The components the kernel resolves one after the other.  Paths are
    resolved from the root of the modelled tree, which is also the working
    directory.  Symbolic links are not modelled, and [".."] is a name like
    any other, which no directory lists. *)
Definition parse (p : string) : list string :=
  filter (fun x => negb (skipped x)) (split_sep p).

(** [s] holds no separator. *)
Fixpoint sep_free (s : string) : bool :=
  match s with
  | EmptyString => true
  | String c s' => negb (is_sep c) && sep_free s'
  end.

(** A name a directory entry can bear. *)
Definition proper (x : string) : bool :=
  sep_free x && negb (skipped x).

End PyStr.

(* ================================================================= *)
(** ** The file system *)

Module Fs.

(** A regular file has a modification time and a content; a directory has a
    modification time and a listing, in the order [os.scandir] returns it. *)
#[local] Unset Elimination Schemes.
Inductive node : Type :=
| File (mtime : Z) (data : string)
| Dir (mtime : Z) (entries : list (string * node)).
#[local] Set Elimination Schemes.

(** The subclasses of [OSError] the primitives raise. *)
Inductive oserror : Type :=
| FileNotFoundError
| NotADirectoryError
| IsADirectoryError
| FileExistsError
| SameFileError
| PermissionError.

Inductive result (A : Type) : Type :=
| Ok (a : A)
| Raise (e : oserror).
Arguments Ok {A} a.
Arguments Raise {A} e.

Definition is_dir (n : node) : bool :=
  match n with Dir _ _ => true | File _ _ => false end.

(** *** Listings *)

Fixpoint assoc (x : string) (es : list (string * node)) : option node :=
  match es with
  | [] => None
  | (y, n) :: es' => if x =? y then Some n else assoc x es'
  end.

(** The entry [x] of a listing is replaced where it stands. *)
Fixpoint set_entry (x : string) (n : node) (es : list (string * node))
  : list (string * node) :=
  match es with
  | [] => []
  | (y, m) :: es' =>
      if x =? y then (y, n) :: es' else (y, m) :: set_entry x n es'
  end.

Fixpoint del_entry (x : string) (es : list (string * node))
  : list (string * node) :=
  match es with
  | [] => []
  | (y, m) :: es' =>
      if x =? y then del_entry x es' else (y, m) :: del_entry x es'
  end.

(** *** Resolution *)

Fixpoint lookup (p : list string) (n : node) : option node :=
  match p with
  | [] => Some n
  | x :: p' =>
      match n with
      | File _ _ => None
      | Dir _ es =>
          match assoc x es with
          | Some c => lookup p' c
          | None => None
          end
      end
  end.

(** *** Changing one entry

    [alter now f p n] applies [f] to the entry that [p] names in [n]: [f]
    receives what is there ([None] when the name is free in its directory)
    and answers what shall be there.  A directory whose listing gains or
    loses a name gets the modification time [now]; replacing an entry where
    it stands leaves its directory's time as it is.  The root cannot be
    replaced. *)
Definition commit (now m : Z) (x : string) (old new : option node)
    (es : list (string * node)) : node :=
  match old, new with
  | None, Some n => Dir now (es ++ [(x, n)])
  | Some _, Some n => Dir m (set_entry x n es)
  | Some _, None => Dir now (del_entry x es)
  | None, None => Dir m es
  end.

Fixpoint alter (now : Z) (f : option node -> result (option node))
    (p : list string) (n : node) : result node :=
  match p with
  | [] => Raise PermissionError
  | x :: p' =>
      match n with
      | File _ _ => Raise NotADirectoryError
      | Dir m es =>
          match p' with
          | [] =>
              match f (assoc x es) with
              | Ok new => Ok (commit now m x (assoc x es) new es)
              | Raise e => Raise e
              end
          | _ :: _ =>
              match assoc x es with
              | None => Raise FileNotFoundError
              | Some c =>
                  match alter now f p' c with
                  | Ok c' => Ok (Dir m (set_entry x c' es))
                  | Raise e => Raise e
                  end
              end
          end
      end
  end.

(** *** The primitives, on resolved paths *)

(** [os.mkdir] *)
Definition mkdir (now : Z) : list string -> node -> result node :=
  alter now (fun old =>
    match old with
    | None => Ok (Some (Dir now []))
    | Some _ => Raise FileExistsError
    end).

(** [os.makedirs(name)], with [exist_ok=False]: the missing ancestors are
    made from the outermost inwards, then the leaf; an ancestor that exists
    is left as it is, whatever its kind.  [done] is the prefix already
    ensured. *)
Fixpoint makedirs_from (now : Z) (done todo : list string) (n : node)
  : result node :=
  match todo with
  | [] => Raise FileExistsError
  | x :: rest =>
      match rest with
      | [] => mkdir now (done ++ [x]) n
      | _ :: _ =>
          match lookup (done ++ [x]) n with
          | Some _ => makedirs_from now (done ++ [x]) rest n
          | None =>
              match mkdir now (done ++ [x]) n with
              | Ok n' => makedirs_from now (done ++ [x]) rest n'
              | Raise e => Raise e
              end
          end
      end
  end.

Definition makedirs (now : Z) (p : list string) (n : node) : result node :=
  makedirs_from now [] p n.

(** Opening [p] with mode ['wb'], writing [d] and, as [shutil.copystat]
    does last, setting the modification time to [m]. *)
Definition write_file (now : Z) (m : Z) (d : string)
  : list string -> node -> result node :=
  alter now (fun old =>
    match old with
    | Some (Dir _ _) => Raise IsADirectoryError
    | _ => Ok (Some (File m d))
    end).

(** [os.remove] *)
Definition remove (now : Z) : list string -> node -> result node :=
  alter now (fun old =>
    match old with
    | Some (File _ _) => Ok None
    | Some (Dir _ _) => Raise IsADirectoryError
    | None => Raise FileNotFoundError
    end).

(** [shutil.rmtree] *)
Definition rmtree (now : Z) : list string -> node -> result node :=
  alter now (fun old =>
    match old with
    | Some (Dir _ _) => Ok None
    | Some (File _ _) => Raise NotADirectoryError
    | None => Raise FileNotFoundError
    end).

(** [os.scandir], sorted as [os.walk] does into the names of the
    directories and the names of the other entries. *)
Definition names_where (keep : node -> bool) (es : list (string * node))
  : list string :=
  map fst (filter (fun e => keep (snd e)) es).

Definition scandir (p : list string) (n : node)
  : result (list string * list string) :=
  match lookup p n with
  | Some (Dir _ es) =>
      Ok (names_where is_dir es, names_where (fun c => negb (is_dir c)) es)
  | Some (File _ _) => Raise NotADirectoryError
  | None => Raise FileNotFoundError
  end.

End Fs.

(* ================================================================= *)
(** ** The program *)

Import PyStr Fs.

(** *** What a pass reports *)

Inductive action_kind : Type :=
| CreatedDir | CreatedFile | UpdatedFile | DeletedFile | DeletedDir.

(** An [Action] stands for the pair of calls the program makes for each
    thing it does, [logging.info] then [print]; a [Notice] is a bare
    [print]. *)
Inductive event : Type :=
| Action (kind : action_kind) (path : string)
| Notice (text : string).

Definition action_text (k : action_kind) (path : string) : string :=
  match k with
  | CreatedDir => "Created directory: "
  | CreatedFile => "Created file: "
  | UpdatedFile => "Updated file: "
  | DeletedFile => "Deleted file: "
  | DeletedDir => "Deleted directory: "
  end ++ path.

(** The message [logging.info("[%s] ...: %s", datetime.now(), path)]
    formats, [now] being the text of [datetime.now()]. *)
Definition log_message (now : string) (k : action_kind) (path : string)
  : string :=
  "[" ++ now ++ "] " ++ action_text k path.

(** The line the handler writes for it under the format
    ['%(asctime)s - %(levelname)s - %(message)s']. *)
Definition log_record (asctime now : string) (k : action_kind)
    (path : string) : string :=
  asctime ++ " - " ++ "INFO" ++ " - " ++ log_message now k path.

(** The line [print] writes for it. *)
Definition console_line (now : string) (k : action_kind) (path : string)
  : string :=
  match k with
  | CreatedDir => "[" ++ now ++ "]] " ++ action_text k path
  | _ => "[" ++ now ++ "] " ++ action_text k path
  end.

(** *** State and exceptions *)

Record state : Type := mkState {
  fs : node;            (* the tree, from the root *)
  clock : Z;            (* the time of day *)
  out : list event      (* what was logged and printed, oldest first *)
}.

(** A computation ends normally, or with an exception that nothing in the
    program catches, or because the bound on the depth of a walk was
    reached. *)
Inductive outcome (A : Type) : Type :=
| Done (a : A)
| Failed (e : oserror)
| OutOfFuel.
Arguments Done {A} a.
Arguments Failed {A} e.
Arguments OutOfFuel {A}.

Definition M (A : Type) : Type := state -> outcome A * state.

Definition ret {A} (a : A) : M A := fun st => (Done a, st).

Definition bind {A B} (m : M A) (k : A -> M B) : M B :=
  fun st =>
    match m st with
    | (Done a, st') => k a st'
    | (Failed e, st') => (Failed e, st')
    | (OutOfFuel, st') => (OutOfFuel, st')
    end.

Declare Scope sync_scope.
Delimit Scope sync_scope with sync.
Notation "x <- m ;; k" := (bind m (fun x => k))
  (at level 61, m at next level, right associativity) : sync_scope.
Notation "m ;; k" := (bind m (fun _ => k))
  (at level 61, right associativity) : sync_scope.
Local Open Scope sync_scope.

Fixpoint for_each {A} (l : list A) (body : A -> M unit) : M unit :=
  match l with
  | [] => ret tt
  | x :: l' => body x ;; for_each l' body
  end.

Definition when (b : bool) (m : M unit) : M unit :=
  if b then m else ret tt.

(** The calls [logging.info(...)] and [print(...)] for one action. *)
Definition report (k : action_kind) (path : string) : M unit :=
  fun st => (Done tt, mkState (fs st) (clock st) (out st ++ [Action k path])).

Definition print (text : string) : M unit :=
  fun st => (Done tt, mkState (fs st) (clock st) (out st ++ [Notice text])).

(** *** The library calls, on path strings *)

(** The empty string names nothing. *)
Definition resolve (path : string) : option (list string) :=
  if path =? "" then None else Some (parse path).

Definition stat (path : string) (t : node) : option node :=
  match resolve path with
  | Some p => lookup p t
  | None => None
  end.

(** [os.path.exists] *)
Definition os_path_exists (path : string) : M bool :=
  fun st =>
    (Done (match stat path (fs st) with Some _ => true | None => false end),
     st).

(** [os.path.isdir] *)
Definition os_path_isdir (path : string) : M bool :=
  fun st =>
    (Done (match stat path (fs st) with Some n => is_dir n | None => false end),
     st).

(** [os.path.getmtime] *)
Definition os_path_getmtime (path : string) : M Z :=
  fun st =>
    match stat path (fs st) with
    | Some (File m _) => (Done m, st)
    | Some (Dir m _) => (Done m, st)
    | None => (Failed FileNotFoundError, st)
    end.

(** A primitive that changes the tree, applied to a path string. *)
Definition change (op : Z -> list string -> node -> result node)
    (path : string) : M unit :=
  fun st =>
    match resolve path with
    | None => (Failed FileNotFoundError, st)
    | Some p =>
        match op (clock st) p (fs st) with
        | Ok t => (Done tt, mkState t (clock st) (out st))
        | Raise e => (Failed e, st)
        end
    end.

Definition os_makedirs : string -> M unit := change makedirs.
Definition os_remove : string -> M unit := change remove.
Definition shutil_rmtree : string -> M unit := change rmtree.

(** [os.path.samefile], as [shutil.copyfile] asks it: two paths that both
    exist and resolve alike. *)
Definition samefile (src dst : string) (t : node) : bool :=
  match resolve src, resolve dst with
  | Some ps, Some pd =>
      match lookup ps t, lookup pd t with
      | Some _, Some _ => if list_eq_dec string_dec ps pd then true else false
      | _, _ => false
      end
  | _, _ => false
  end.

(** [shutil.copyfile] followed by [shutil.copystat]: refuses to copy a file
    onto itself, opens the source, then writes the destination and gives it
    the source's modification time. *)
Definition copyfile_stat (src dst : string) : M unit :=
  fun st =>
    if samefile src dst (fs st) then (Failed SameFileError, st)
    else
      match stat src (fs st) with
      | Some (File m d) => change (fun now => write_file now m d) dst st
      | Some (Dir _ _) => (Failed IsADirectoryError, st)
      | None => (Failed FileNotFoundError, st)
      end.

(** [shutil.copy2]: a destination that is a directory receives the file
    under the source's base name. *)
Definition shutil_copy2 (src dst : string) : M unit :=
  d <- os_path_isdir dst ;;
  copyfile_stat src (if d then join dst (basename src) else dst).

(** [os.walk(top)] and [os.walk(top, topdown=False)], run with the loop body
    of the caller at each triple it yields.  A directory is listed when the
    walk reaches it, not before; an error of the listing is ignored and the
    directory yields nothing ([onerror] is [None]).  [fuel] bounds the depth
    of the walk. *)
Definition listing (top : string) (t : node)
  : result (list string * list string) :=
  match resolve top with
  | Some p => scandir p t
  | None => Raise FileNotFoundError
  end.

Fixpoint os_walk_topdown (fuel : nat) (top : string)
    (body : string -> list string -> list string -> M unit) : M unit :=
  match fuel with
  | O => fun st => (OutOfFuel, st)
  | S fuel' => fun st =>
      match listing top (fs st) with
      | Raise _ => (Done tt, st)
      | Ok (dirs, files) =>
          (body top dirs files ;;
           for_each dirs (fun d => os_walk_topdown fuel' (join top d) body)) st
      end
  end.

Fixpoint os_walk_bottomup (fuel : nat) (top : string)
    (body : string -> list string -> list string -> M unit) : M unit :=
  match fuel with
  | O => fun st => (OutOfFuel, st)
  | S fuel' => fun st =>
      match listing top (fs st) with
      | Raise _ => (Done tt, st)
      | Ok (dirs, files) =>
          (for_each dirs (fun d => os_walk_bottomup fuel' (join top d) body) ;;
           body top dirs files) st
      end
  end.

(** *** [replicate_source] *)

(** Lines 63 to 75: one file of a walked source directory. *)
Definition propagate_file (root replica_path file : string) : M unit :=
  let source_file := join root file in
  let replica_file := join replica_path file in
  present <- os_path_exists replica_file ;;
  if negb present then
    shutil_copy2 source_file replica_file ;;
    report CreatedFile replica_file
  else
    ms <- os_path_getmtime source_file ;;
    mr <- os_path_getmtime replica_file ;;
    if (ms >? mr)%Z then
      shutil_copy2 source_file replica_file ;;
      report UpdatedFile replica_file
    else ret tt.

(** Lines 58 to 75: the body of the first loop. *)
Definition propagate_body (source replica : string)
    (root : string) (dirs files : list string) : M unit :=
  let replica_path := replace1 source replica root in
  present <- os_path_exists replica_path ;;
  when (negb present)
    (os_makedirs replica_path ;; report CreatedDir replica_path) ;;
  for_each files (propagate_file root replica_path).

(** Lines 82 to 88 and 91 to 97: one file, one directory of a walked replica
    directory. *)
Definition prune_file (root source_path file : string) : M unit :=
  let replica_file := join root file in
  let source_file := join source_path file in
  present <- os_path_exists source_file ;;
  when (negb present)
    (os_remove replica_file ;; report DeletedFile replica_file).

Definition prune_dir (root source_path directory : string) : M unit :=
  let replica_dir := join root directory in
  let source_dir := join source_path directory in
  present <- os_path_exists source_dir ;;
  when (negb present)
    (shutil_rmtree replica_dir ;; report DeletedDir replica_dir).

(** Lines 79 to 97: the body of the second loop. *)
Definition prune_body (source replica : string)
    (root : string) (dirs files : list string) : M unit :=
  let source_path := replace1 replica source root in
  for_each files (prune_file root source_path) ;;
  for_each dirs (prune_dir root source_path).

(** The two loops. *)
Definition propagate (fuel : nat) (source replica : string) : M unit :=
  os_walk_topdown fuel source (propagate_body source replica).

Definition prune (fuel : nat) (source replica : string) : M unit :=
  os_walk_bottomup fuel replica (prune_body source replica).

(** Lines 57 to 97: one pass. *)
Definition sync_pass (fuel : nat) (source replica : string) : M unit :=
  propagate fuel source replica ;; prune fuel source replica.

(** [time.sleep] *)
Definition sleep (interval : Z) : M unit :=
  fun st => (Done tt, mkState (fs st) (clock st + interval) (out st)).

(** [replicate_source]: a pass, a sleep and the call of itself.  [ticks] is
    the number of sleeps that end before the [KeyboardInterrupt] arrives
    during the next one. *)
Fixpoint replicate_source (ticks fuel : nat) (source replica : string)
    (interval : Z) : M unit :=
  sync_pass fuel source replica ;;
  match ticks with
  | O => print "Stopping synchronization..."
  | S ticks' =>
      sleep interval ;;
      replicate_source ticks' fuel source replica interval
  end.

(** *** [main] *)

Record arguments : Type := mkArgs {
  arg_source : string;
  arg_replica : string;
  arg_log_file : string;
  arg_interval : Z
}.

(** [Path(p).exists()]: [Path] reads the empty string as ["."]. *)
Definition path_exists (path : string) : M bool :=
  fun st =>
    (Done (match lookup (parse path) (fs st) with
           | Some _ => true
           | None => false
           end), st).

(** [logging.basicConfig(filename=...)]: the handler opens the file for
    appending, which creates it when it is not there. *)
Definition open_append (now : Z) : list string -> node -> result node :=
  alter now (fun old =>
    match old with
    | None => Ok (Some (File now ""))
    | Some (File m d) => Ok (Some (File m d))
    | Some (Dir _ _) => Raise IsADirectoryError
    end).

Definition logging_basicConfig (filename : string) : M unit :=
  change open_append filename.

Definition main (ticks fuel : nat) (args : arguments) : M unit :=
  ok_source <- path_exists (arg_source args) ;;
  if negb ok_source then print "The source directory path does not exist"
  else
    ok_replica <- path_exists (arg_replica args) ;;
    if negb ok_replica then print "The replica directory path does not exist"
    else
      ok_log <- path_exists (arg_log_file args) ;;
      if negb ok_log then print "The log file path does not exist"
      else
        logging_basicConfig (join (arg_log_file args) "Log") ;;
        replicate_source ticks fuel (arg_source args) (arg_replica args)
          (arg_interval args).


(* ================================================================= *)
(** ** Notions the properties are stated with *)

(** What a path names, leaving out what a directory holds. *)
Inductive entry : Type :=
| EFile (mtime : Z) (data : string)
| EDir.

Definition entry_of (n : node) : entry :=
  match n with
  | File m d => EFile m d
  | Dir _ _ => EDir
  end.

Definition entry_at (t : node) (p : list string) : option entry :=
  option_map entry_of (lookup p t).

Definition same_kind (a b : entry) : bool :=
  match a, b with
  | EFile _ _, EFile _ _ => true
  | EDir, EDir => true
  | _, _ => false
  end.

(** [p] is an initial segment of [q]. *)
Fixpoint prefixb (p q : list string) : bool :=
  match p, q with
  | [], _ => true
  | x :: p', y :: q' => (x =? y) && prefixb p' q'
  | _ :: _, [] => false
  end.

(** Neither path lies inside the other, nor are they the same. *)
Definition apart (p q : list string) : bool :=
  negb (prefixb p q) && negb (prefixb q p).

Fixpoint fresh (x : string) (l : list string) : bool :=
  match l with
  | [] => true
  | y :: l' => negb (x =? y) && fresh x l'
  end.

Fixpoint distinct (l : list string) : bool :=
  match l with
  | [] => true
  | x :: l' => fresh x l' && distinct l'
  end.

(** A tree as a file system holds it: in each directory the names are
    proper and no name is listed twice. *)
Fixpoint wf (n : node) : bool :=
  match n with
  | File _ _ => true
  | Dir _ es =>
      distinct (map fst es)
      && forallb (fun e => proper (fst e) && wf (snd e)) es
  end.

(** The number of directories on the longest chain of nested ones. *)
Fixpoint height (n : node) : nat :=
  match n with
  | File _ _ => 0
  | Dir _ es => S (fold_right (fun e h => Nat.max (height (snd e)) h) 0 es)
  end.

(** A root as the properties take it: not empty, no trailing separator. *)
Definition plain (root : string) : bool :=
  negb (root =? "") && negb (endswith_sep root).

(** The path string the walk of [top] builds for the directory reached
    through the names [q]. *)
Definition walked (top : string) (q : list string) : string :=
  fold_left join q top.

(** The entries of the tree of a state. *)
Definition view (st : state) (p : list string) : option entry :=
  entry_at (fs st) p.

(** The states the lemmas below relate: the tree stays well formed, the
    clock and the output are as before. *)
Definition quiet (st st' : state) : Prop :=
  wf (fs st') = true /\ clock st' = clock st /\ out st' = out st.

(** What the first loop leaves at a path of the replica, from what the
    source has at the corresponding path ([s]) and what the replica had
    ([r]): a missing directory is made, a missing file is copied, a file
    strictly older than the source's is overwritten. *)
Definition merge (s r : option entry) : option entry :=
  match s with
  | None => r
  | Some EDir => Some EDir
  | Some (EFile m d) =>
      match r with
      | Some (EFile m' _) => if (m >? m')%Z then Some (EFile m d) else r
      | _ => Some (EFile m d)
      end
  end.

(** What the second loop leaves at a path of the replica: what was there,
    when the source has the corresponding path. *)
Definition keep_if (s r : option entry) : option entry :=
  match s with
  | None => None
  | Some _ => r
  end.

(** What [propagate_file] reports for a file with the entry [s] in the
    source and [r] in the replica. *)
Definition file_actions (replica_file : string) (s r : option entry)
  : list event :=
  match s, r with
  | Some (EFile m _), Some (EFile m' _) =>
      if (m >? m')%Z then [Action UpdatedFile replica_file] else []
  | Some (EFile _ _), None => [Action CreatedFile replica_file]
  | _, _ => []
  end.

(** No path is a file in one tree and a directory in the other. *)
Fixpoint compatible (s r : node) : bool :=
  match s, r with
  | File _ _, File _ _ => true
  | Dir _ es, Dir _ es' =>
      forallb (fun e =>
                 match assoc (fst e) es' with
                 | None => true
                 | Some c' => compatible (snd e) c'
                 end) es
  | _, _ => false
  end.

(** *** The first loop, directory by directory

    [S] and [R] are the resolved roots, [q] the names from the root to the
    directory at hand, [st0] the state when the walk reached it. *)

(** The replica's directory is there, or it is missing in a directory that
    is there. *)
Definition replica_ready (R q : list string) (st : state) : Prop :=
  view st (R ++ q) = Some EDir \/
  (view st (R ++ q) = None /\
   exists q0 x, q = q0 ++ [x] /\ view st (R ++ q0) = Some EDir).

Definition propagate_pre (S R q : list string) (k : nat) (st : state)
  : Prop :=
  wf (fs st) = true /\
  Forall (fun x => proper x = true) q /\
  view st (S ++ q) = Some EDir /\
  replica_ready R q st /\
  (forall r, view st (S ++ q ++ r) = Some EDir -> List.length r < k) /\
  (forall r e e', view st (S ++ q ++ r) = Some e ->
                  view st (R ++ q ++ r) = Some e' -> same_kind e e' = true).

Definition propagate_post (S R q : list string) (st st' : state) : Prop :=
  wf (fs st') = true /\
  (forall p, prefixb (R ++ q) p = false -> view st' p = view st p) /\
  (forall r, view st' (R ++ q ++ r) =
             merge (view st (S ++ q ++ r)) (view st (R ++ q ++ r))).

(** While the names [L] of the directory are still to be processed. *)
Definition propagate_inv (S R q : list string) (st0 : state)
    (L : list string) (st : state) : Prop :=
  wf (fs st) = true /\
  (forall p, prefixb (R ++ q) p = false -> view st p = view st0 p) /\
  view st (R ++ q) = Some EDir /\
  (forall x r, In x L ->
     view st (R ++ q ++ x :: r) = view st0 (R ++ q ++ x :: r)) /\
  (forall x r, ~ In x L ->
     view st (R ++ q ++ x :: r) =
     merge (view st0 (S ++ q ++ x :: r)) (view st0 (R ++ q ++ x :: r))).

(** *** The second loop, directory by directory *)

Definition prune_pre (R q : list string) (k : nat) (st : state) : Prop :=
  wf (fs st) = true /\
  Forall (fun x => proper x = true) q /\
  view st (R ++ q) = Some EDir /\
  (forall r, view st (R ++ q ++ r) = Some EDir -> List.length r < k).

Definition prune_post (S R q : list string) (st st' : state) : Prop :=
  wf (fs st') = true /\
  (forall p, prefixb (R ++ q) p = false -> view st' p = view st p) /\
  view st' (R ++ q) = Some EDir /\
  (forall x r, view st' (R ++ q ++ x :: r) =
               keep_if (view st (S ++ q ++ x :: r))
                       (view st (R ++ q ++ x :: r))).

(** While the names [L1] of the directory are still to be checked and the
    directories [L2] still to be walked. *)
Definition prune_inv (S R q : list string) (st0 : state)
    (L1 L2 : list string) (st : state) : Prop :=
  wf (fs st) = true /\
  (forall p, prefixb (R ++ q) p = false -> view st p = view st0 p) /\
  view st (R ++ q) = Some EDir /\
  (forall x, In x L1 ->
     view st (R ++ q ++ [x]) = view st0 (R ++ q ++ [x])) /\
  (forall x, ~ In x L1 ->
     view st (R ++ q ++ [x]) =
     keep_if (view st0 (S ++ q ++ [x])) (view st0 (R ++ q ++ [x]))) /\
  (forall x y r, In x L2 ->
     view st (R ++ q ++ x :: y :: r) = view st0 (R ++ q ++ x :: y :: r)) /\
  (forall x y r, ~ In x L2 ->
     view st (R ++ q ++ x :: y :: r) =
     keep_if (view st0 (S ++ q ++ x :: y :: r))
             (view st0 (R ++ q ++ x :: y :: r))).

(** What [prune_file] and [prune_dir] report for an entry whose counterpart
    in the source is [s]. *)
Definition prune_actions (k : action_kind) (path : string)
    (s : option entry) : list event :=
  match s with
  | None => [Action k path]
  | Some _ => []
  end.

(** *** The outcome of a pass at one relative path

    [s] is the entry of the source, [r] what the replica had there when the
    pass began and [r'] what it has when the pass ends: the kinds agree,
    and a file of the replica is the copy of the source's, or the file the
    replica had, none older than the source's. *)
Definition mirrored (s r r' : option entry) : Prop :=
  match s, r' with
  | None, None => True
  | Some EDir, Some EDir => True
  | Some (EFile m d), Some (EFile m' d') =>
      (m' = m /\ d' = d) \/ (r = Some (EFile m' d') /\ (m <= m')%Z)
  | _, _ => False
  end.

(** Both roots are directories, and no relative path is a file under one
    and a directory under the other. *)
Definition mirror_ready (t : node) (S R : list string) : bool :=
  match lookup S t, lookup R t with
  | Some (Dir ms es), Some (Dir mr er) => compatible (Dir ms es) (Dir mr er)
  | _, _ => false
  end.

(** *** The states of the examples *)

(** Exact correspondence of two trees: the same relative paths, the same
    kinds and, for files, the same contents. *)
Definition corresponds (st : state) (S R : list string) : Prop :=
  forall rel, rel <> [] ->
    match view st (S ++ rel), view st (R ++ rel) with
    | None, None => True
    | Some EDir, Some EDir => True
    | Some (EFile _ d), Some (EFile _ d') => d = d'
    | _, _ => False
    end.

(** [s/x.txt] and [r/x.txt] differ in content and agree in time. *)
Definition stale_state : state :=
  mkState (Dir 0 [("s", Dir 0 [("x.txt", File 1 "new")]);
                  ("r", Dir 0 [("x.txt", File 1 "old")])]) 10 [].

(** A source with a subdirectory, a replica with an older file, a newer
    file and entries the source lacks. *)
Definition demo_state : state :=
  mkState (Dir 0 [("s", Dir 0 [("a", Dir 0 [("f", File 5 "x")]);
                               ("g", File 3 "new");
                               ("h", File 3 "src")]);
                  ("r", Dir 0 [("g", File 2 "old");
                               ("h", File 4 "kept");
                               ("junk", File 1 "z");
                               ("old", Dir 0 [("k", File 1 "y")])])]) 10 [].

(** [source/a/f] with an empty replica. *)
Definition nested_state : state :=
  mkState (Dir 0 [("s", Dir 0 [("a", Dir 0 [("f", File 5 "x")])]);
                  ("r", Dir 0 [])]) 10 [].

(** [source/a/f] newer than [replica/a/f]. *)
Definition newer_state : state :=
  mkState (Dir 0 [("s", Dir 0 [("a", Dir 0 [("f", File 5 "new")])]);
                  ("r", Dir 0 [("a", Dir 0 [("f", File 1 "old")])])]) 10 [].

(** The replica has a file [a] where the source has a directory [a]; the
    source's [z/g] and the replica's [old] are not involved. *)
Definition blocked_state : state :=
  mkState (Dir 0 [("s", Dir 0 [("a", Dir 0 [("f", File 1 "x")]);
                               ("z", Dir 0 [("g", File 1 "y")])]);
                  ("r", Dir 0 [("a", File 1 "blocker");
                               ("old", File 1 "stale")])]) 10 [].

(** The replica is a directory of the source. *)
Definition inside_state : state :=
  mkState (Dir 0 [("s", Dir 0 [("f", File 1 "a"); ("r", Dir 0 [])])]) 10 [].

(** A directory [s] inside the source [s]. *)
Definition echo_tree : node :=
  Dir 0 [("s", Dir 0 [("s", Dir 0 [("x", Dir 0 [])])])].

(** [os.path.relpath(path, start)], for a [path] under [start]. *)
Definition relpath (path start : string) : string :=
  match skipn (List.length (parse start)) (parse path) with
  | [] => "."
  | rel => String.concat "/" rel
  end.

(** [sub in s] *)
Definition occurs (sub s : string) : bool :=
  match String.index 0 sub s with
  | Some _ => true
  | None => false
  end.

(** The first components of the triples [os.walk(top)] yields on the tree
    [t], each as a [Notice]. *)
Definition walk_roots (fuel : nat) (top : string) (t : node) : list event :=
  out (snd (os_walk_topdown fuel top (fun root _ _ => print root)
              (mkState t 0 []))).

(** [Path(p).exists()] on the tree of a state. *)
Definition there (st : state) (path : string) : bool :=
  match lookup (parse path) (fs st) with
  | Some _ => true
  | None => false
  end.

(** What [main] prints when a path is missing. *)
Definition refusal (st : state) (args : arguments) : string :=
  if negb (there st (arg_source args))
  then "The source directory path does not exist"
  else if negb (there st (arg_replica args))
  then "The replica directory path does not exist"
  else "The log file path does not exist".

(** *** Invariants of a run

    [tracked base J m]: whatever the outcome of [m], the relation [J]
    between the state and the events put out since [base] is kept. *)
Definition tracked {A} (base : list event)
    (J : state -> list event -> Prop) (m : M A) : Prop :=
  forall st l o st',
    out st = base ++ l -> J st l -> m st = (o, st') ->
    exists l', out st' = base ++ l' /\ J st' l'.

(** *** The order of the actions *)

(** The resolved path of an action. *)
Definition loc (e : event) : list string :=
  match e with
  | Action _ path => parse path
  | Notice _ => []
  end.

Definition creates_dir (e : event) : bool :=
  match e with Action CreatedDir _ => true | _ => false end.

Definition creation (e : event) : bool :=
  match e with
  | Action (CreatedDir | CreatedFile | UpdatedFile) _ => true
  | _ => false
  end.

Definition deletes_dir (e : event) : bool :=
  match e with Action DeletedDir _ => true | _ => false end.

Definition deletion (e : event) : bool :=
  match e with
  | Action (DeletedFile | DeletedDir) _ => true
  | _ => false
  end.

(** [p] lies under [d], and is not [d]. *)
Definition strictly_under (p d : list string) : bool :=
  prefixb d p && Nat.ltb (List.length d) (List.length p).

(** No directory is created after something was created or updated under
    it. *)
Definition parents_first (l : list event) : Prop :=
  forall l1 a l2 b l3,
    l = l1 ++ a :: l2 ++ b :: l3 ->
    creation a = true -> creates_dir b = true ->
    strictly_under (loc a) (loc b) = false.

(** Nothing is deleted under a directory after the directory was. *)
Definition children_first (l : list event) : Prop :=
  forall l1 a l2 b l3,
    l = l1 ++ a :: l2 ++ b :: l3 ->
    deletes_dir a = true -> deletion b = true ->
    strictly_under (loc b) (loc a) = false.

(** The invariant of the first loop: what was created is there. *)
Definition creating (st : state) (l : list event) : Prop :=
  parents_first l /\
  Forall (fun e => deletion e = false) l /\
  forall a, In a l -> creation a = true -> view st (loc a) <> None.

(** The invariant of the second loop: a deleted directory is not there. *)
Definition deleting (st : state) (l : list event) : Prop :=
  parents_first l /\ children_first l /\
  forall a, In a l -> deletes_dir a = true -> view st (loc a) = None.

(** *** The source during a pass *)

(** What follows the root in the path string walked through the names
    [q], for a root without trailing separator. *)
Definition tail_of (q : list string) : string :=
  fold_left (fun t x => (t ++ "/" ++ x)%string) q "".

(** The invariant: the tree is well formed and holds [s0] at [S]. *)
Definition kept (S : list string) (s0 : option node) (st : state)
    (l : list event) : Prop :=
  wf (fs st) = true /\ lookup S (fs st) = s0.

(** The paths of a walk from [top]. *)
Definition walked_from (top : string) (root : string) : Prop :=
  exists q, Forall (fun x => proper x = true) q /\ root = walked top q.

(** The directories [p/q/r] in the source only. *)
Definition deep_state : state :=
  mkState (Dir 0 [("s", Dir 0 [("p", Dir 0 [("q", Dir 0 [("r", Dir 0 [])])])]);
                  ("r", Dir 0 [])]) 10 [].

(** [a/b.txt] in the replica only. *)
Definition orphan_state : state :=
  mkState (Dir 0 [("s", Dir 0 []);
                  ("r", Dir 0 [("a", Dir 0 [("b.txt", File 1 "x")])])]) 10 [].

(** An event that is an action. *)
Definition is_action (e : event) : Prop := exists k path, e = Action k path.

Definition only_actions (st : state) (l : list event) : Prop :=
  Forall is_action l.

(** *** A replica that is up to date *)

(** At one relative path: the kinds agree and the replica's file is not
    older than the source's. *)
Definition settled_at (s r : option entry) : Prop :=
  match s, r with
  | None, None => True
  | Some EDir, Some EDir => True
  | Some (EFile m _), Some (EFile m' _) => (m <= m')%Z
  | _, _ => False
  end.

Definition settled (S R : list string) (st : state) : Prop :=
  forall rel, settled_at (view st (S ++ rel)) (view st (R ++ rel)).

(** *** Further states of the examples *)

(** The source has the file [x] where the replica has an empty directory
    [x], older than the file. *)
Definition clash_state : state :=
  mkState (Dir 0 [("s", Dir 0 [("x", File 5 "new")]);
                  ("r", Dir 0 [("x", Dir 1 [])])]) 10 [].

(** *** What a loop does to the entries *)

(** Every entry of [st0] is still there in [st], with its kind. *)
Definition grown (st0 st : state) : Prop :=
  forall q e, view st0 q = Some e ->
    exists e', view st q = Some e' /\ same_kind e e' = true.

(** Every entry of [st] is an entry of [st0], as it was. *)
Definition shrunk (st0 st : state) : Prop :=
  forall q, view st q = None \/ view st q = view st0 q.

(** The invariant of the first loop run from [st0]: nothing was taken away
    and every action is a creation or an update. *)
Definition adding (st0 : state) (st : state) (l : list event) : Prop :=
  grown st0 st /\ Forall (fun e => creation e = true) l.

(** The invariant of the second loop run from [st0]: nothing was added or
    altered and every action is a deletion. *)
Definition removing (st0 : state) (st : state) (l : list event) : Prop :=
  shrunk st0 st /\ Forall (fun e => deletion e = true) l.

(** [q] lies on the path of an action of [l], above it or below it. *)
Definition covered (q : list string) (l : list event) : Prop :=
  exists k path,
    In (Action k path) l /\
    (prefixb (parse path) q = true \/ prefixb q (parse path) = true).

(** The invariant of a pass from [st0]: the tree is well formed and every
    entry that differs from the one [st0] has lies on the path of an
    action. *)
Definition accounted (st0 : state) (st : state) (l : list event) : Prop :=
  wf (fs st) = true /\
  forall q, view st q <> view st0 q -> covered q l.

(** An action at or under the resolved path [R]. *)
Definition acts_under (R : list string) (e : event) : Prop :=
  exists k path r, e = Action k path /\ parse path = R ++ r.

(** The invariant: the tree is well formed and the actions are under [R]. *)
Definition confined (R : list string) (st : state) (l : list event) : Prop :=
  wf (fs st) = true /\ Forall (acts_under R) l.

(** The source holds [a/f] and [g]; the replica [r] is not there. *)
Definition lost_state : state :=
  mkState (Dir 0 [("s", Dir 0 [("a", Dir 0 [("f", File 5 "x")]);
                               ("g", File 3 "y")])]) 10 [].

(** *** The run of the program *)

(** What [replicate_source] prints when the interrupt arrives. *)
Definition stop_notice : event := Notice "Stopping synchronization...".

(** What ends the output of a run with the outcome [o]. *)
Definition closing (o : outcome unit) : list event :=
  match o with
  | Done _ => [stop_notice]
  | _ => []
  end.

(** The path of the log file for the directory [log_file]. *)
Definition log_path (args : arguments) : list string :=
  parse (arg_log_file args) ++ ["Log"].

(** The source [s] holds the file [x.txt]; [notes] is a file. *)
Definition desk_state : state :=
  mkState (Dir 0 [("s", Dir 0 [("x.txt", File 1 "new")]);
                  ("r", Dir 0 []);
                  ("notes", File 2 "text");
                  ("logs", Dir 0 [("Log", Dir 0 [])]);
                  ("var", Dir 0 [])]) 10 [].

(** [sys.getrecursionlimit()] as CPython sets it: [replicate_source] calls
    itself once for each sleep, and the calls of a pass come on top. *)
Definition recursion_limit : nat := 1000.

(** The runs the properties of the loop are about: the interval is one
    that [time.sleep] accepts, and the calls of [replicate_source], the
    walk of a tree of the depth that [fuel] bounds and the calls inside the
    libraries stay within the recursion limit. *)
Definition run_fits (ticks fuel : nat) (interval : Z) : Prop :=
  (0 <= interval)%Z /\ ticks + fuel + 100 <= recursion_limit.

(** The invariant of the second loop: what was reported as deleted is not
    there. *)
Definition gone (st : state) (l : list event) : Prop :=
  Forall (fun a => view st (loc a) = None) l.

(* ================================================================= *)
(** * Properties *)

(** ** Path strings *)

Section StringFacts.

Open Scope string_scope.

Lemma append_nil_r (s : string) : s ++ "" = s.
Proof. induction s; simpl; congruence. Qed.

Lemma append_assoc (a b c : string) : (a ++ b) ++ c = a ++ (b ++ c).
Proof. induction a; simpl; congruence. Qed.

Lemma length_append (a b : string) :
  String.length (a ++ b) = String.length a + String.length b.
Proof. induction a; simpl; congruence. Qed.

Lemma prefix_append (a b : string) : String.prefix a (a ++ b) = true.
Proof.
  induction a as [|c a IH]; simpl.
  - destruct b; reflexivity.
  - destruct (ascii_dec c c); [exact IH | congruence].
Qed.

Lemma drop_append (a b : string) : drop (String.length a) (a ++ b) = b.
Proof. induction a; simpl; auto. Qed.

(** A walked path starts with the root it was walked from, so the leftmost
    occurrence that [replace] rewrites is that prefix. *)
Lemma replace1_prefix (old new rest : string) :
  replace1 old new (old ++ rest) = new ++ rest.
Proof.
  assert (U : forall s, String.prefix old s = true ->
            replace1 old new s = new ++ drop (String.length old) s).
  { intros s H. destruct s; cbn [replace1]; now rewrite H. }
  rewrite U by apply prefix_append. now rewrite drop_append.
Qed.

Lemma append_eq_drop (a b s : string) :
  a ++ b = s -> drop (String.length s - String.length b) s = b.
Proof.
  intros <-. rewrite length_append.
  replace (String.length a + String.length b - String.length b)
    with (String.length a) by lia.
  apply drop_append.
Qed.

Lemma split_sep_nonempty (s : string) : split_sep s <> [].
Proof.
  induction s as [|c s IH]; simpl; [discriminate|].
  destruct (is_sep c); [discriminate|].
  destruct (split_sep s); discriminate.
Qed.

Lemma split_sep_append (a b : string) :
  split_sep (a ++ String sep b) = (split_sep a ++ split_sep b)%list.
Proof.
  induction a as [|c a IH]; simpl.
  - reflexivity.
  - rewrite IH. destruct (is_sep c); [reflexivity|].
    destruct (split_sep a) eqn:E; [|reflexivity].
    now apply split_sep_nonempty in E.
Qed.

Lemma split_sep_free (s : string) : sep_free s = true -> split_sep s = [s].
Proof.
  induction s as [|c s IH]; simpl; [reflexivity|].
  intros H. apply andb_prop in H as [Hc Hs].
  apply negb_true_iff in Hc. rewrite Hc, (IH Hs). reflexivity.
Qed.

Lemma split_sep_all_free (s : string) :
  Forall (fun x => sep_free x = true) (split_sep s).
Proof.
  induction s as [|c s IH]; simpl.
  - repeat constructor.
  - destruct (is_sep c) eqn:Ec.
    + constructor; [reflexivity | exact IH].
    + destruct (split_sep s) as [|x r]; inversion IH; subst;
        constructor; simpl; try rewrite Ec; auto.
Qed.

Lemma parse_append (a b : string) :
  parse (a ++ String sep b) = (parse a ++ parse b)%list.
Proof. unfold parse. rewrite split_sep_append. apply filter_app. Qed.

Lemma proper_sep_free (x : string) : proper x = true -> sep_free x = true.
Proof. unfold proper. intros H. now apply andb_prop in H. Qed.

Lemma proper_not_skipped (x : string) : proper x = true -> skipped x = false.
Proof.
  unfold proper. intros H. apply andb_prop in H as [_ H].
  now apply negb_true_iff.
Qed.

Lemma proper_nonempty (x : string) : proper x = true -> x <> "".
Proof. intros H ->. discriminate H. Qed.

Lemma parse_proper (x : string) : proper x = true -> parse x = [x].
Proof.
  intros H. unfold parse. rewrite (split_sep_free _ (proper_sep_free _ H)).
  simpl. now rewrite (proper_not_skipped _ H).
Qed.

Lemma parse_all_proper (p : string) :
  Forall (fun x => proper x = true) (parse p).
Proof.
  unfold parse. apply Forall_forall. intros x Hx.
  apply filter_In in Hx as [Hin Hk].
  unfold proper. rewrite Hk, andb_true_r.
  exact (proj1 (Forall_forall _ _) (split_sep_all_free p) x Hin).
Qed.

Lemma parse_empty : parse "" = [].
Proof. reflexivity. Qed.

Lemma endswith_sep_inv (s : string) :
  endswith_sep s = true -> exists s', s = s' ++ String sep "".
Proof.
  induction s as [|c s IH]; simpl; [discriminate|].
  destruct s as [|c' s'].
  - intros H. unfold is_sep in H. apply Ascii.eqb_eq in H. subst c.
    now exists "".
  - intros H. destruct (IH H) as [t Ht]. exists (String c t).
    simpl. now rewrite <- Ht.
Qed.

Lemma endswith_sep_append (a b : string) :
  b <> "" -> endswith_sep (a ++ b) = endswith_sep b.
Proof.
  intros Hb. induction a as [|c a IH]; simpl; [reflexivity|].
  destruct (a ++ b) eqn:E; [|exact IH].
  destruct a; simpl in E; [contradiction | discriminate].
Qed.

Lemma sep_free_not_endswith (x : string) :
  sep_free x = true -> endswith_sep x = false.
Proof.
  induction x as [|c x IH]; simpl; [reflexivity|].
  intros H. apply andb_prop in H as [Hc Hx].
  apply negb_true_iff in Hc. destruct x; [exact Hc | exact (IH Hx)].
Qed.

Lemma proper_not_startswith (x : string) :
  proper x = true -> startswith_sep x = false.
Proof.
  intros H. apply proper_sep_free in H. destruct x; simpl in *; [reflexivity|].
  apply andb_prop in H as [H _]. now apply negb_true_iff.
Qed.

Lemma append_nonempty_r (a b : string) : b <> "" -> a ++ b <> "".
Proof. destruct a; simpl; [auto | discriminate]. Qed.

(** Joining a name onto a path adds one component, however the path is
    written. *)
Lemma parse_join (a x : string) :
  proper x = true -> parse (join a x) = (parse a ++ [x])%list.
Proof.
  intros H. unfold join. rewrite (proper_not_startswith _ H).
  destruct (a =? "") eqn:Ea; simpl.
  - apply String.eqb_eq in Ea. subst a. rewrite parse_empty.
    cbn [String.append List.app]. now apply parse_proper.
  - destruct (endswith_sep a) eqn:Ee.
    + destruct (endswith_sep_inv _ Ee) as [a' ->].
      rewrite append_assoc. simpl. rewrite !parse_append.
      rewrite parse_empty, app_nil_r. now rewrite (parse_proper x H).
    + change (a ++ "/" ++ x) with (a ++ String sep x).
      rewrite parse_append. now rewrite (parse_proper x H).
Qed.

Lemma join_nonempty (a x : string) : proper x = true -> join a x <> "".
Proof.
  intros H. pose proof (proper_nonempty _ H) as Hx.
  unfold join. destruct (startswith_sep x); [exact Hx|].
  destruct ((a =? "") || endswith_sep a).
  - now apply append_nonempty_r.
  - apply append_nonempty_r. discriminate.
Qed.

End StringFacts.


(** ** The file system *)


(** *** Prefixes *)

Lemma prefixb_spec (p q : list string) :
  prefixb p q = true <-> exists r, q = p ++ r.
Proof.
  revert q. induction p as [|x p IH]; intros q; simpl.
  - split; [intros _; now exists q | reflexivity].
  - destruct q as [|y q].
    + split; [discriminate | intros [r Hr]; discriminate].
    + rewrite andb_true_iff, IH, String.eqb_eq. split.
      * intros [-> [r ->]]. now exists r.
      * intros [r Hr]. injection Hr as -> ->. split; [reflexivity | now exists r].
Qed.

Lemma prefixb_app (p r : list string) : prefixb p (p ++ r) = true.
Proof. apply prefixb_spec. now exists r. Qed.

Lemma prefixb_refl (p : list string) : prefixb p p = true.
Proof. apply prefixb_spec. exists []. now rewrite app_nil_r. Qed.

Lemma prefixb_trans (p q r : list string) :
  prefixb p q = true -> prefixb q r = true -> prefixb p r = true.
Proof.
  rewrite !prefixb_spec. intros [a ->] [b ->]. exists (a ++ b).
  now rewrite app_assoc.
Qed.

Lemma prefixb_app_l (c p q : list string) :
  prefixb (c ++ p) (c ++ q) = prefixb p q.
Proof.
  induction c as [|x c IH]; simpl; [reflexivity|].
  now rewrite String.eqb_refl.
Qed.

(** Two prefixes of one path are comparable. *)
Lemma prefixb_same_path (p q r : list string) :
  prefixb p r = true -> prefixb q r = true ->
  prefixb p q = true \/ prefixb q p = true.
Proof.
  revert q r. induction p as [|x p IH]; intros q r; simpl; [now left|].
  destruct r as [|z r]; [discriminate|].
  destruct q as [|y q]; [now right|]. simpl.
  intros Hp Hq. apply andb_prop in Hp as [Ex Hp], Hq as [Ey Hq].
  apply String.eqb_eq in Ex, Ey. subst y z. rewrite String.eqb_refl. simpl.
  exact (IH q r Hp Hq).
Qed.

Lemma apart_sym (p q : list string) : apart p q = apart q p.
Proof. unfold apart. apply andb_comm. Qed.

Lemma apart_app (p q a b : list string) :
  apart p q = true -> apart (p ++ a) (q ++ b) = true.
Proof.
  unfold apart. rewrite !andb_true_iff, !negb_true_iff.
  intros [H1 H2]. split.
  - destruct (prefixb (p ++ a) (q ++ b)) eqn:E; [|reflexivity].
    destruct (prefixb_same_path p q (q ++ b)) as [H|H];
      [exact (prefixb_trans _ _ _ (prefixb_app p a) E)
      | apply prefixb_app | congruence | congruence].
  - destruct (prefixb (q ++ b) (p ++ a)) eqn:E; [|reflexivity].
    destruct (prefixb_same_path q p (p ++ a)) as [H|H];
      [exact (prefixb_trans _ _ _ (prefixb_app q b) E)
      | apply prefixb_app | congruence | congruence].
Qed.

(** *** Listings *)

Lemma assoc_set_entry (x y : string) (c : node) (es : list (string * node)) :
  assoc y (set_entry x c es) =
  if y =? x then match assoc x es with Some _ => Some c | None => None end
  else assoc y es.
Proof.
  induction es as [|[z m] es IH]; simpl.
  - now destruct (y =? x).
  - destruct (x =? z) eqn:Exz; simpl.
    + apply String.eqb_eq in Exz. subst z. now destruct (y =? x).
    + rewrite IH. destruct (y =? z) eqn:Eyz; [|reflexivity].
      apply String.eqb_eq in Eyz. subst z. rewrite String.eqb_sym in Exz.
      now rewrite Exz.
Qed.

Lemma assoc_app (y : string) (es es' : list (string * node)) :
  assoc y (es ++ es') =
  match assoc y es with Some c => Some c | None => assoc y es' end.
Proof.
  induction es as [|[z m] es IH]; simpl; [reflexivity|].
  now destruct (y =? z).
Qed.

Lemma assoc_del_entry (x y : string) (es : list (string * node)) :
  assoc y (del_entry x es) = if y =? x then None else assoc y es.
Proof.
  induction es as [|[z m] es IH]; simpl.
  - now destruct (y =? x).
  - destruct (x =? z) eqn:Exz; simpl.
    + apply String.eqb_eq in Exz. subst z. rewrite IH.
      now destruct (y =? x).
    + rewrite IH. destruct (y =? z) eqn:Eyz; [|reflexivity].
      apply String.eqb_eq in Eyz. subst z. rewrite String.eqb_sym in Exz.
      now rewrite Exz.
Qed.

Lemma assoc_commit (now m : Z) (x y : string) (new : option node)
    (es : list (string * node)) :
  lookup [y] (commit now m x (assoc x es) new es) =
  if y =? x then new else assoc y es.
Proof.
  unfold commit. destruct (assoc x es) eqn:Ex, new; simpl.
  - rewrite assoc_set_entry, Ex. destruct (y =? x), (assoc y es); reflexivity.
  - rewrite assoc_del_entry. destruct (y =? x), (assoc y es); reflexivity.
  - rewrite assoc_app. simpl. destruct (y =? x) eqn:E.
    + apply String.eqb_eq in E. subst y. now rewrite Ex.
    + destruct (assoc y es); reflexivity.
  - destruct (y =? x) eqn:E.
    + apply String.eqb_eq in E. subst y. now rewrite Ex.
    + destruct (assoc y es); reflexivity.
Qed.

(** *** Resolution *)

Lemma lookup_app (p q : list string) (n : node) :
  lookup (p ++ q) n =
  match lookup p n with Some c => lookup q c | None => None end.
Proof.
  revert n. induction p as [|x p IH]; intros n; simpl; [reflexivity|].
  destruct n as [|m es]; [reflexivity|].
  destruct (assoc x es); [apply IH | reflexivity].
Qed.

Lemma lookup_file (p : list string) (m : Z) (d : string) :
  p <> [] -> lookup p (File m d) = None.
Proof. destruct p; [contradiction | reflexivity]. Qed.

Lemma lookup_cons (x : string) (p : list string) (m : Z)
    (es : list (string * node)) :
  lookup (x :: p) (Dir m es) =
  match assoc x es with Some c => lookup p c | None => None end.
Proof. reflexivity. Qed.

Lemma lookup_single (x : string) (m : Z) (es : list (string * node)) :
  lookup [x] (Dir m es) = assoc x es.
Proof. simpl. now destruct (assoc x es). Qed.

(** *** [alter] *)

Section Alter.

Variable now : Z.
Variable f : option node -> result (option node).

Lemma alter_single (x : string) (m : Z) (es : list (string * node)) :
  alter now f [x] (Dir m es) =
  match f (assoc x es) with
  | Ok new => Ok (commit now m x (assoc x es) new es)
  | Raise e => Raise e
  end.
Proof. reflexivity. Qed.

Lemma alter_deeper (x y : string) (p : list string) (m : Z)
    (es : list (string * node)) :
  alter now f (x :: y :: p) (Dir m es) =
  match assoc x es with
  | None => Raise FileNotFoundError
  | Some c =>
      match alter now f (y :: p) c with
      | Ok c' => Ok (Dir m (set_entry x c' es))
      | Raise e => Raise e
      end
  end.
Proof. reflexivity. Qed.

(** What [alter] finds at [p] is what [f] is asked about, and what [f]
    answers is what is there afterwards. *)
Lemma alter_lookup_under (p : list string) (n n' : node) :
  alter now f p n = Ok n' ->
  exists new, f (lookup p n) = Ok new /\
    forall r, lookup (p ++ r) n' =
              match new with Some c => lookup r c | None => None end.
Proof.
  revert n n'. induction p as [|x p IH]; intros n n' H; [discriminate|].
  destruct n as [|m es]; [discriminate|].
  destruct p as [|y p].
  - rewrite alter_single in H.
    destruct (f (assoc x es)) as [new|] eqn:Ef; [|discriminate].
    injection H as <-. exists new. split.
    + simpl. now destruct (assoc x es).
    + intros r. change ([x] ++ r) with ([x] ++ r). rewrite lookup_app.
      rewrite assoc_commit, String.eqb_refl. reflexivity.
  - rewrite alter_deeper in H.
    destruct (assoc x es) as [c|] eqn:Ex; [|discriminate].
    destruct (alter now f (y :: p) c) as [c'|] eqn:Ea; [|discriminate].
    injection H as <-. destruct (IH c c' Ea) as [new [Hf Hl]].
    exists new. split.
    + rewrite lookup_cons, Ex. exact Hf.
    + intros r. rewrite <- app_comm_cons, lookup_cons.
      rewrite assoc_set_entry, String.eqb_refl, Ex. apply Hl.
Qed.

(** Nothing changes beside the path. *)
Lemma alter_lookup_apart (p q : list string) (n n' : node) :
  alter now f p n = Ok n' -> apart p q = true ->
  lookup q n' = lookup q n.
Proof.
  revert n n' q. induction p as [|x p IH]; intros n n' q H; [discriminate|].
  destruct n as [|m es]; [discriminate|].
  unfold apart. destruct q as [|z q]; [simpl; discriminate|].
  simpl prefixb. destruct (x =? z) eqn:Exz.
  - apply String.eqb_eq in Exz. subst z. rewrite String.eqb_refl.
    cbn [andb]. intros Hap.
    destruct p as [|y p]; [simpl in Hap; discriminate Hap|].
    rewrite alter_deeper in H.
    destruct (assoc x es) as [c|] eqn:Ex; [|discriminate].
    destruct (alter now f (y :: p) c) as [c'|] eqn:Ea; [|discriminate].
    injection H as <-. rewrite !lookup_cons, assoc_set_entry.
    rewrite String.eqb_refl, Ex. exact (IH c c' q Ea Hap).
  - intros _. rewrite String.eqb_sym in Exz. destruct p as [|y p].
    + rewrite alter_single in H.
      destruct (f (assoc x es)) as [new|]; [|discriminate].
      injection H as <-. change (z :: q) with ([z] ++ q).
      rewrite !lookup_app, assoc_commit, Exz, lookup_single. reflexivity.
    + rewrite alter_deeper in H.
      destruct (assoc x es) as [c|] eqn:Ex; [|discriminate].
      destruct (alter now f (y :: p) c) as [c'|] eqn:Ea; [|discriminate].
      injection H as <-. rewrite !lookup_cons, assoc_set_entry, Exz.
      reflexivity.
Qed.

(** The directories above the path stay directories. *)
Lemma alter_entry_above (p q : list string) (n n' : node) :
  alter now f p n = Ok n' -> prefixb q p = true -> q <> p ->
  entry_at n' q = Some EDir /\ entry_at n q = Some EDir.
Proof.
  unfold entry_at.
  revert n n' q. induction p as [|x p IH]; intros n n' q H; [discriminate|].
  destruct n as [|m es]; [discriminate|].
  destruct q as [|z q].
  - intros _ _. destruct p as [|y p].
    + rewrite alter_single in H.
      destruct (f (assoc x es)) as [new|]; [|discriminate].
      injection H as <-. unfold commit.
      now destruct (assoc x es), new.
    + rewrite alter_deeper in H.
      destruct (assoc x es) as [c|] eqn:Ex; [|discriminate].
      destruct (alter now f (y :: p) c) as [c'|] eqn:Ea; [|discriminate].
      now injection H as <-.
  - simpl prefixb. intros Hp Hne. apply andb_prop in Hp as [Ez Hp].
    apply String.eqb_eq in Ez. subst z.
    destruct p as [|y p]; [destruct q; [congruence | discriminate]|].
    rewrite alter_deeper in H.
    destruct (assoc x es) as [c|] eqn:Ex; [|discriminate].
    destruct (alter now f (y :: p) c) as [c'|] eqn:Ea; [|discriminate].
    injection H as <-. rewrite !lookup_cons, assoc_set_entry.
    rewrite String.eqb_refl, Ex. apply (IH c c' q Ea Hp). congruence.
Qed.

(** [alter] goes through when the directory of the entry is there and [f]
    agrees. *)
Lemma alter_ok (pp : list string) (x : string) (n : node)
    (new : option node) :
  entry_at n pp = Some EDir -> f (lookup (pp ++ [x]) n) = Ok new ->
  exists n', alter now f (pp ++ [x]) n = Ok n'.
Proof.
  unfold entry_at. revert n. induction pp as [|y pp IH]; intros n Hd Hf.
  - simpl in Hd. destruct n as [|m es]; [discriminate|].
    simpl app in *. rewrite alter_single. simpl in Hf.
    destruct (assoc x es); rewrite Hf; eauto.
  - destruct n as [|m es]; [discriminate|].
    rewrite lookup_cons in Hd. rewrite <- app_comm_cons, lookup_cons in Hf.
    destruct (assoc y es) as [c|] eqn:Ey; [|discriminate].
    destruct (IH c Hd Hf) as [c' Hc'].
    rewrite <- app_comm_cons.
    destruct (pp ++ [x]) as [|z r] eqn:E; [now destruct pp|].
    rewrite alter_deeper, Ey, Hc'. eauto.
Qed.

End Alter.


(** *** Well-formed trees *)

Lemma wf_dir (m : Z) (es : list (string * node)) :
  wf (Dir m es) = true <->
  distinct (map fst es) = true /\
  forall x c, In (x, c) es -> proper x = true /\ wf c = true.
Proof.
  simpl. rewrite andb_true_iff, forallb_forall. split.
  - intros [Hd Ha]. split; [exact Hd|]. intros x c Hin.
    apply andb_prop. exact (Ha (x, c) Hin).
  - intros [Hd Ha]. split; [exact Hd|]. intros [x c] Hin. simpl.
    destruct (Ha x c Hin) as [-> ->]. reflexivity.
Qed.

Lemma assoc_in (x : string) (c : node) (es : list (string * node)) :
  assoc x es = Some c -> In (x, c) es.
Proof.
  induction es as [|[y m] es IH]; simpl; [discriminate|].
  destruct (x =? y) eqn:E.
  - apply String.eqb_eq in E. subst y. intros [= ->]. now left.
  - intros H. right. now apply IH.
Qed.

Lemma fresh_spec (x : string) (l : list string) :
  fresh x l = true <-> ~ In x l.
Proof.
  induction l as [|y l IH]; simpl.
  - split; auto.
  - rewrite andb_true_iff, negb_true_iff, String.eqb_neq, IH. split.
    + intros [H1 H2] [H|H]; [congruence | contradiction].
    + intros H. split; [intros ->; apply H; now left | intros Hin; apply H; now right].
Qed.

Lemma distinct_spec (l : list string) : distinct l = true <-> NoDup l.
Proof.
  induction l as [|x l IH]; simpl.
  - split; [constructor | reflexivity].
  - rewrite andb_true_iff, fresh_spec, IH. split.
    + intros [H1 H2]. now constructor.
    + intros H. inversion H. now split.
Qed.

Lemma in_assoc (x : string) (c : node) (es : list (string * node)) :
  distinct (map fst es) = true -> In (x, c) es -> assoc x es = Some c.
Proof.
  induction es as [|[y m] es IH]; simpl; [contradiction|].
  intros Hd. apply andb_prop in Hd as [Hf Hd]. intros [H|H].
  - injection H as -> ->. now rewrite String.eqb_refl.
  - destruct (x =? y) eqn:E; [|now apply IH].
    apply String.eqb_eq in E. subst y. apply fresh_spec in Hf.
    exfalso. apply Hf. apply in_map_iff. now exists (x, c).
Qed.

Lemma assoc_none (x : string) (es : list (string * node)) :
  assoc x es = None <-> ~ In x (map fst es).
Proof.
  induction es as [|[y m] es IH]; simpl; [tauto|].
  destruct (x =? y) eqn:E.
  - apply String.eqb_eq in E. subst y. split; [discriminate | tauto].
  - apply String.eqb_neq in E. rewrite IH. split.
    + intros H [H1|H1]; [congruence | contradiction].
    + tauto.
Qed.

Lemma wf_lookup (p : list string) (n c : node) :
  wf n = true -> lookup p n = Some c -> wf c = true.
Proof.
  revert n. induction p as [|x p IH]; intros n Hw; simpl.
  - now intros [= <-].
  - destruct n as [|m es]; [discriminate|].
    destruct (assoc x es) as [c'|] eqn:Ex; [|discriminate].
    apply IH. apply wf_dir in Hw as [_ Ha].
    exact (proj2 (Ha x c' (assoc_in _ _ _ Ex))).
Qed.

Lemma map_fst_set_entry (x : string) (c : node) (es : list (string * node)) :
  map fst (set_entry x c es) = map fst es.
Proof.
  induction es as [|[y m] es IH]; simpl; [reflexivity|].
  destruct (x =? y); simpl; congruence.
Qed.

Lemma in_set_entry (x y : string) (c d : node) (es : list (string * node)) :
  In (y, d) (set_entry x c es) -> In (y, d) es \/ (y = x /\ d = c).
Proof.
  induction es as [|[z m] es IH]; simpl; [tauto|].
  destruct (x =? z) eqn:E; simpl.
  - apply String.eqb_eq in E. subst z. intros [H|H]; [|tauto].
    injection H as <- <-. tauto.
  - intros [H|H]; [tauto|]. destruct (IH H); tauto.
Qed.

Lemma in_del_entry (x y : string) (d : node) (es : list (string * node)) :
  In (y, d) (del_entry x es) -> In (y, d) es.
Proof.
  induction es as [|[z m] es IH]; simpl; [tauto|].
  destruct (x =? z); simpl; [tauto|]. intros [H|H]; tauto.
Qed.

Lemma fresh_del_entry (x y : string) (es : list (string * node)) :
  fresh y (map fst es) = true -> fresh y (map fst (del_entry x es)) = true.
Proof.
  induction es as [|[z m] es IH]; simpl; [reflexivity|].
  intros H. apply andb_prop in H as [H1 H2].
  destruct (x =? z); simpl; [auto|]. rewrite H1. auto.
Qed.

Lemma distinct_del_entry (x : string) (es : list (string * node)) :
  distinct (map fst es) = true -> distinct (map fst (del_entry x es)) = true.
Proof.
  induction es as [|[z m] es IH]; simpl; [reflexivity|].
  intros H. apply andb_prop in H as [H1 H2].
  destruct (x =? z); simpl; [auto|].
  rewrite (fresh_del_entry _ _ _ H1). auto.
Qed.

Lemma distinct_snoc (x : string) (l : list string) :
  distinct l = true -> ~ In x l -> distinct (l ++ [x]) = true.
Proof.
  rewrite !distinct_spec. intros Hl Hx.
  induction Hl as [|y l Hy Hl IH]; simpl.
  - constructor; [tauto | constructor].
  - constructor.
    + rewrite in_app_iff. simpl. intros [H|[H|[]]]; [contradiction|].
      subst y. apply Hx. now left.
    + apply IH. intros H. apply Hx. now right.
Qed.

Lemma commit_wf (now m : Z) (x : string) (new : option node)
    (es : list (string * node)) :
  wf (Dir m es) = true -> proper x = true ->
  (forall c, new = Some c -> wf c = true) ->
  wf (commit now m x (assoc x es) new es) = true.
Proof.
  intros Hw Hx Hnew. apply wf_dir in Hw as [Hd Ha]. unfold commit.
  destruct (assoc x es) as [old|] eqn:Ex, new as [c|]; apply wf_dir.
  - rewrite map_fst_set_entry. split; [exact Hd|]. intros y d Hin.
    apply in_set_entry in Hin as [Hin|[-> ->]]; [now apply Ha|].
    split; [exact Hx | now apply Hnew].
  - split; [now apply distinct_del_entry|]. intros y d Hin.
    apply in_del_entry in Hin. now apply Ha.
  - rewrite map_app. simpl. split.
    + apply distinct_snoc; [exact Hd | now apply assoc_none].
    + intros y d Hin. apply in_app_iff in Hin as [Hin|[Hin|[]]]; [now apply Ha|].
      injection Hin as <- <-. split; [exact Hx | now apply Hnew].
  - now split.
Qed.

Lemma alter_wf (now : Z) (f : option node -> result (option node))
    (p : list string) (n n' : node) :
  wf n = true -> Forall (fun x => proper x = true) p ->
  (forall old c, f old = Ok (Some c) -> wf c = true) ->
  alter now f p n = Ok n' -> wf n' = true.
Proof.
  intros Hw Hp Hf. revert n n' Hw.
  induction Hp as [|x p Hx Hp IH]; intros n n' Hw H; [discriminate|].
  destruct n as [|m es]; [discriminate|]. destruct p as [|y p].
  - rewrite alter_single in H.
    destruct (f (assoc x es)) as [new|] eqn:Ef; [|discriminate].
    injection H as <-. apply commit_wf; auto.
    intros c ->. exact (Hf _ _ Ef).
  - rewrite alter_deeper in H.
    destruct (assoc x es) as [c|] eqn:Ex; [|discriminate].
    destruct (alter now f (y :: p) c) as [c'|] eqn:Ea; [|discriminate].
    injection H as <-. pose proof Hw as Hw'. apply wf_dir in Hw' as [Hd Ha].
    apply wf_dir. rewrite map_fst_set_entry. split; [exact Hd|].
    intros z d Hin. apply in_set_entry in Hin as [Hin|[-> ->]]; [now apply Ha|].
    destruct (Ha x c (assoc_in _ _ _ Ex)) as [Hpx Hc].
    split; [exact Hpx | exact (IH c c' Hc Ea)].
Qed.

(** *** What a change does to the entries *)

Lemma entry_at_none_under (p r : list string) (n : node) :
  entry_at n p = None -> entry_at n (p ++ r) = None.
Proof.
  unfold entry_at. rewrite lookup_app.
  destruct (lookup p n); [discriminate | reflexivity].
Qed.

Lemma entry_at_file_under (p r : list string) (n : node) (m : Z)
    (d : string) :
  entry_at n p = Some (EFile m d) -> r <> [] -> entry_at n (p ++ r) = None.
Proof.
  unfold entry_at. rewrite lookup_app.
  destruct (lookup p n) as [[m' d'|m' es]|]; try discriminate.
  intros _ Hr. now rewrite lookup_file.
Qed.

(** A path that resolves runs through directories. *)
Lemma entry_at_above (p r : list string) (n : node) :
  entry_at n (p ++ r) <> None -> r <> [] -> entry_at n p = Some EDir.
Proof.
  unfold entry_at. rewrite lookup_app.
  destruct (lookup p n) as [[m d|m es]|]; simpl; try tauto.
  intros H Hr. now rewrite lookup_file in H.
Qed.

Lemma skipn_length_app (p r : list string) : skipn (List.length p) (p ++ r) = r.
Proof. induction p; simpl; auto. Qed.

Lemma alter_entry (now : Z) (f : option node -> result (option node))
    (p : list string) (n n' : node) (new : option node) :
  alter now f p n = Ok n' -> f (lookup p n) = Ok new ->
  forall q,
    entry_at n' q =
    if prefixb p q
    then match new with
         | Some c => entry_at c (skipn (List.length p) q)
         | None => None
         end
    else entry_at n q.
Proof.
  intros Ha Hf q. destruct (prefixb p q) eqn:Epq.
  - apply prefixb_spec in Epq as [r ->]. rewrite skipn_length_app.
    destruct (alter_lookup_under _ _ _ _ _ Ha) as [new' [Hf' Hl]].
    rewrite Hf in Hf'. injection Hf' as <-.
    unfold entry_at. rewrite Hl. now destruct new.
  - destruct (prefixb q p) eqn:Eqp.
    + assert (Hne : q <> p) by (intros ->; now rewrite prefixb_refl in Epq).
      destruct (alter_entry_above _ _ _ _ _ _ Ha Eqp Hne) as [H1 H2].
      congruence.
    + unfold entry_at. f_equal. apply (alter_lookup_apart _ _ _ _ _ _ Ha).
      unfold apart. now rewrite Epq, Eqp.
Qed.

(** *** Listings of a well-formed directory *)

Lemma names_where_spec (keep : node -> bool) (es : list (string * node))
    (x : string) :
  distinct (map fst es) = true ->
  In x (names_where keep es) <->
  exists c, assoc x es = Some c /\ keep c = true.
Proof.
  intros Hd. unfold names_where. rewrite in_map_iff. split.
  - intros [[y c] [<- Hin]]. apply filter_In in Hin as [Hin Hk].
    exists c. split; [now apply in_assoc | exact Hk].
  - intros [c [Ha Hk]]. exists (x, c). split; [reflexivity|].
    apply filter_In. split; [now apply assoc_in | exact Hk].
Qed.

Lemma names_where_nodup (keep : node -> bool) (es : list (string * node)) :
  distinct (map fst es) = true -> NoDup (names_where keep es).
Proof.
  rewrite distinct_spec. unfold names_where.
  induction es as [|[y c] es IH]; simpl; [constructor|].
  intros H. inversion H as [|? ? Hy Hes]; subst.
  destruct (keep c); simpl; [|now apply IH].
  constructor; [|now apply IH]. intros Hin. apply Hy.
  apply in_map_iff in Hin as [[z c'] [<- Hin]].
  apply filter_In in Hin as [Hin _]. apply in_map_iff. now exists (z, c').
Qed.

Lemma names_where_proper (keep : node -> bool) (m : Z)
    (es : list (string * node)) (x : string) :
  wf (Dir m es) = true -> In x (names_where keep es) -> proper x = true.
Proof.
  intros Hw Hin. apply wf_dir in Hw as [Hd Ha].
  apply (names_where_spec keep es x Hd) in Hin as [c [Hc _]].
  exact (proj1 (Ha x c (assoc_in _ _ _ Hc))).
Qed.


(** ** The primitives *)

Lemma last_split (p : list string) :
  p <> [] -> exists pp x, p = pp ++ [x].
Proof.
  intros H. destruct (exists_last H) as [pp [x ->]]. now exists pp, x.
Qed.

(** [os.mkdir] of a free name in a directory. *)
Lemma mkdir_entry (now : Z) (pp : list string) (x : string) (n : node) :
  entry_at n pp = Some EDir -> entry_at n (pp ++ [x]) = None ->
  exists n', mkdir now (pp ++ [x]) n = Ok n' /\
    entry_at n' (pp ++ [x]) = Some EDir /\
    forall q, q <> pp ++ [x] -> entry_at n' q = entry_at n q.
Proof.
  intros Hd Hx. unfold mkdir.
  set (f := fun old : option node =>
              match old with
              | None => Ok (Some (Dir now []))
              | Some _ => Raise FileExistsError
              end).
  assert (Hf : f (lookup (pp ++ [x]) n) = Ok (Some (Dir now []))).
  { unfold entry_at in Hx. destruct (lookup (pp ++ [x]) n); [discriminate|].
    reflexivity. }
  destruct (alter_ok now f pp x n _ Hd Hf) as [n' Hn'].
  exists n'. split; [exact Hn'|].
  pose proof (alter_entry _ _ _ _ _ _ Hn' Hf) as He. split.
  - now rewrite He, prefixb_refl, skipn_all.
  - intros q Hq. rewrite He. destruct (prefixb (pp ++ [x]) q) eqn:E; [|reflexivity].
    apply prefixb_spec in E as [r ->]. rewrite skipn_length_app.
    rewrite (entry_at_none_under _ r _ Hx).
    destruct r; [now rewrite app_nil_r in Hq | reflexivity].
Qed.

(** Writing a file where there is none, or over a file. *)
Lemma write_file_entry (now m : Z) (d : string) (pp : list string)
    (x : string) (n : node) :
  entry_at n pp = Some EDir -> entry_at n (pp ++ [x]) <> Some EDir ->
  exists n', write_file now m d (pp ++ [x]) n = Ok n' /\
    entry_at n' (pp ++ [x]) = Some (EFile m d) /\
    forall q, q <> pp ++ [x] -> entry_at n' q = entry_at n q.
Proof.
  intros Hd Hx. unfold write_file.
  set (f := fun old : option node =>
              match old with
              | Some (Dir _ _) => Raise IsADirectoryError
              | _ => Ok (Some (File m d))
              end).
  assert (Hf : f (lookup (pp ++ [x]) n) = Ok (Some (File m d))).
  { unfold entry_at in Hx.
    destruct (lookup (pp ++ [x]) n) as [[? ?|? ?]|]; try reflexivity.
    now elim Hx. }
  destruct (alter_ok now f pp x n _ Hd Hf) as [n' Hn'].
  exists n'. split; [exact Hn'|].
  pose proof (alter_entry _ _ _ _ _ _ Hn' Hf) as He. split.
  - now rewrite He, prefixb_refl, skipn_all.
  - intros q Hq. rewrite He. destruct (prefixb (pp ++ [x]) q) eqn:E; [|reflexivity].
    apply prefixb_spec in E as [r ->]. rewrite skipn_length_app.
    destruct r as [|y r]; [now rewrite app_nil_r in Hq|].
    destruct (entry_at n (pp ++ [x])) as [[m' d'|]|] eqn:Ee.
    + now rewrite (entry_at_file_under _ (y :: r) _ _ _ Ee).
    + now elim Hx.
    + now rewrite (entry_at_none_under _ (y :: r) _ Ee).
Qed.

(** [os.remove] of a file. *)
Lemma remove_entry (now : Z) (p : list string) (n : node) (m : Z)
    (d : string) :
  entry_at n p = Some (EFile m d) -> p <> [] ->
  exists n', remove now p n = Ok n' /\
    entry_at n' p = None /\
    forall q, q <> p -> entry_at n' q = entry_at n q.
Proof.
  intros Hx Hp. destruct (last_split p Hp) as [pp [x ->]].
  assert (Hd : entry_at n pp = Some EDir).
  { apply (entry_at_above pp [x]); [congruence | discriminate]. }
  unfold remove.
  set (f := fun old : option node =>
              match old with
              | Some (File _ _) => Ok None
              | Some (Dir _ _) => Raise IsADirectoryError
              | None => Raise FileNotFoundError
              end).
  assert (Hf : f (lookup (pp ++ [x]) n) = Ok None).
  { unfold entry_at in Hx.
    destruct (lookup (pp ++ [x]) n) as [[? ?|? ?]|]; try discriminate.
    reflexivity. }
  destruct (alter_ok now f pp x n _ Hd Hf) as [n' Hn'].
  exists n'. split; [exact Hn'|].
  pose proof (alter_entry _ _ _ _ _ _ Hn' Hf) as He. split.
  - now rewrite He, prefixb_refl.
  - intros q Hq. rewrite He. destruct (prefixb (pp ++ [x]) q) eqn:E; [|reflexivity].
    apply prefixb_spec in E as [r ->].
    destruct r as [|y r]; [now rewrite app_nil_r in Hq|].
    now rewrite (entry_at_file_under _ (y :: r) _ _ _ Hx).
Qed.

(** [shutil.rmtree] of a directory: all that is under it goes with it. *)
Lemma rmtree_entry (now : Z) (p : list string) (n : node) :
  entry_at n p = Some EDir -> p <> [] ->
  exists n', rmtree now p n = Ok n' /\
    forall q, entry_at n' q = if prefixb p q then None else entry_at n q.
Proof.
  intros Hx Hp. destruct (last_split p Hp) as [pp [x ->]].
  assert (Hd : entry_at n pp = Some EDir).
  { apply (entry_at_above pp [x]); [congruence | discriminate]. }
  unfold rmtree.
  set (f := fun old : option node =>
              match old with
              | Some (Dir _ _) => Ok None
              | Some (File _ _) => Raise NotADirectoryError
              | None => Raise FileNotFoundError
              end).
  assert (Hf : f (lookup (pp ++ [x]) n) = Ok None).
  { unfold entry_at in Hx.
    destruct (lookup (pp ++ [x]) n) as [[? ?|? ?]|]; try discriminate.
    reflexivity. }
  destruct (alter_ok now f pp x n _ Hd Hf) as [n' Hn'].
  exists n'. split; [exact Hn'|].
  exact (alter_entry _ _ _ _ _ _ Hn' Hf).
Qed.

(** [os.makedirs] under a directory that is there is [os.mkdir]. *)
Lemma makedirs_from_step (now : Z) (done : list string) (y z : string)
    (rest : list string) (n : node) :
  lookup (done ++ [y]) n <> None ->
  makedirs_from now done (y :: z :: rest) n =
  makedirs_from now (done ++ [y]) (z :: rest) n.
Proof.
  intros H. cbn [makedirs_from].
  destruct (lookup (done ++ [y]) n); [reflexivity | contradiction].
Qed.

Lemma makedirs_from_present (now : Z) (todo done : list string)
    (x : string) (n : node) :
  lookup (done ++ todo) n <> None ->
  makedirs_from now done (todo ++ [x]) n = mkdir now (done ++ todo ++ [x]) n.
Proof.
  revert done. induction todo as [|y todo IH]; intros done H.
  - reflexivity.
  - assert (Hy : lookup (done ++ [y]) n <> None).
    { intros E. apply H. change (y :: todo) with ([y] ++ todo).
      now rewrite app_assoc, lookup_app, E. }
    assert (Hc : exists z rest, todo ++ [x] = z :: rest)
      by (destruct todo; simpl; eauto).
    destruct Hc as [z [rest E]]. simpl app. rewrite E.
    rewrite makedirs_from_step by exact Hy. rewrite <- E.
    rewrite IH; [now rewrite <- app_assoc|].
    now rewrite <- app_assoc.
Qed.

Lemma makedirs_present (now : Z) (pp : list string) (x : string) (n : node) :
  entry_at n pp = Some EDir ->
  makedirs now (pp ++ [x]) n = mkdir now (pp ++ [x]) n.
Proof.
  intros H. unfold makedirs. apply (makedirs_from_present now pp [] x n).
  unfold entry_at in H. simpl. destruct (lookup pp n); discriminate.
Qed.

(** *** The primitives keep the tree well formed *)

Lemma mkdir_wf (now : Z) (p : list string) (n n' : node) :
  wf n = true -> Forall (fun x => proper x = true) p ->
  mkdir now p n = Ok n' -> wf n' = true.
Proof.
  intros Hw Hp. apply alter_wf; auto.
  intros [old|] c; [discriminate | now intros [= <-]].
Qed.

Lemma Forall_app_l {A} (P : A -> Prop) (l1 l2 : list A) :
  Forall P (l1 ++ l2) -> Forall P l1.
Proof. intros H. now apply Forall_app in H. Qed.

Lemma makedirs_from_wf (now : Z) (todo done : list string) (n n' : node) :
  wf n = true -> Forall (fun x => proper x = true) (done ++ todo) ->
  makedirs_from now done todo n = Ok n' -> wf n' = true.
Proof.
  revert done n. induction todo as [|y todo IH]; intros done n Hw Hp;
    [discriminate|].
  assert (Hy : Forall (fun x => proper x = true) (done ++ [y])).
  { change (y :: todo) with ([y] ++ todo) in Hp. rewrite app_assoc in Hp.
    exact (Forall_app_l _ _ _ Hp). }
  assert (Hp' : Forall (fun x => proper x = true) ((done ++ [y]) ++ todo))
    by now rewrite <- app_assoc.
  destruct todo as [|z rest].
  - cbn [makedirs_from]. now apply mkdir_wf.
  - cbn [makedirs_from]. destruct (lookup (done ++ [y]) n).
    + now apply IH.
    + destruct (mkdir now (done ++ [y]) n) as [n1|] eqn:E; [|discriminate].
      apply IH; [|exact Hp']. exact (mkdir_wf _ _ _ _ Hw Hy E).
Qed.

Lemma makedirs_wf (now : Z) (p : list string) (n n' : node) :
  wf n = true -> Forall (fun x => proper x = true) p ->
  makedirs now p n = Ok n' -> wf n' = true.
Proof. intros Hw Hp. now apply makedirs_from_wf. Qed.

Lemma write_file_wf (now m : Z) (d : string) (p : list string)
    (n n' : node) :
  wf n = true -> Forall (fun x => proper x = true) p ->
  write_file now m d p n = Ok n' -> wf n' = true.
Proof.
  intros Hw Hp. apply alter_wf; auto.
  intros [[? ?|? ?]|] c; try discriminate; now intros [= <-].
Qed.

Lemma remove_wf (now : Z) (p : list string) (n n' : node) :
  wf n = true -> Forall (fun x => proper x = true) p ->
  remove now p n = Ok n' -> wf n' = true.
Proof.
  intros Hw Hp. apply alter_wf; auto.
  intros [[? ?|? ?]|] c; discriminate.
Qed.

Lemma rmtree_wf (now : Z) (p : list string) (n n' : node) :
  wf n = true -> Forall (fun x => proper x = true) p ->
  rmtree now p n = Ok n' -> wf n' = true.
Proof.
  intros Hw Hp. apply alter_wf; auto.
  intros [[? ?|? ?]|] c; discriminate.
Qed.


(** ** The library calls *)

Lemma bind_done {A B} (m : M A) (k : A -> M B) (st st' : state) (a : A) :
  m st = (Done a, st') -> bind m k st = k a st'.
Proof. unfold bind. now intros ->. Qed.

Lemma bind_failed {A B} (m : M A) (k : A -> M B) (st st' : state)
    (e : oserror) :
  m st = (Failed e, st') -> bind m k st = (Failed e, st').
Proof. unfold bind. now intros ->. Qed.

Lemma for_each_cons {A} (x : A) (l : list A) (body : A -> M unit) :
  for_each (x :: l) body = bind (body x) (fun _ => for_each l body).
Proof. reflexivity. Qed.

Lemma resolve_some (path : string) :
  path <> "" -> resolve path = Some (parse path).
Proof.
  intros H. unfold resolve. apply String.eqb_neq in H. now rewrite H.
Qed.

Lemma view_lookup_file (st : state) (p : list string) (m : Z) (d : string) :
  view st p = Some (EFile m d) <-> lookup p (fs st) = Some (File m d).
Proof.
  unfold view, entry_at.
  destruct (lookup p (fs st)) as [[m' d'|m' es]|]; simpl; split;
    congruence.
Qed.

Lemma os_path_exists_spec (path : string) (p : list string) (st : state) :
  resolve path = Some p ->
  os_path_exists path st =
  (Done (match view st p with Some _ => true | None => false end), st).
Proof.
  intros H. unfold os_path_exists, stat, view, entry_at. rewrite H.
  now destruct (lookup p (fs st)).
Qed.

Lemma os_path_isdir_spec (path : string) (p : list string) (st : state) :
  resolve path = Some p ->
  os_path_isdir path st =
  (Done (match view st p with Some EDir => true | _ => false end), st).
Proof.
  intros H. unfold os_path_isdir, stat, view, entry_at. rewrite H.
  now destruct (lookup p (fs st)) as [[? ?|? ?]|].
Qed.

Lemma os_path_getmtime_file (path : string) (p : list string) (st : state)
    (m : Z) (d : string) :
  resolve path = Some p -> view st p = Some (EFile m d) ->
  os_path_getmtime path st = (Done m, st).
Proof.
  intros H Hv. apply view_lookup_file in Hv.
  unfold os_path_getmtime, stat. now rewrite H, Hv.
Qed.

Lemma resolve_proper (path : string) (p : list string) :
  resolve path = Some p -> Forall (fun x => proper x = true) p.
Proof.
  unfold resolve. destruct (path =? ""); [discriminate|].
  intros [= <-]. apply parse_all_proper.
Qed.

Lemma os_makedirs_spec (path : string) (pp : list string) (x : string)
    (st : state) :
  resolve path = Some (pp ++ [x]) -> wf (fs st) = true ->
  view st pp = Some EDir -> view st (pp ++ [x]) = None ->
  exists st', os_makedirs path st = (Done tt, st') /\ quiet st st' /\
    view st' (pp ++ [x]) = Some EDir /\
    forall q, q <> pp ++ [x] -> view st' q = view st q.
Proof.
  intros Hr Hw Hd Hx. unfold os_makedirs, change. rewrite Hr.
  rewrite (makedirs_present _ _ _ _ Hd).
  destruct (mkdir_entry (clock st) pp x (fs st) Hd Hx) as [n' [Hn' [H1 H2]]].
  rewrite Hn'. eexists. split; [reflexivity|]. split; [|split].
  - repeat split. simpl.
    exact (mkdir_wf _ _ _ _ Hw (resolve_proper _ _ Hr) Hn').
  - exact H1.
  - exact H2.
Qed.

(** [shutil.copy2] of a file onto a path that is free or names a file. *)
Lemma shutil_copy2_done (src dst : string) (ps pp : list string)
    (x : string) (st : state) (m : Z) (d : string) :
  resolve src = Some ps -> resolve dst = Some (pp ++ [x]) ->
  view st ps = Some (EFile m d) ->
  view st pp = Some EDir -> view st (pp ++ [x]) <> Some EDir ->
  ps <> pp ++ [x] ->
  exists n',
    write_file (clock st) m d (pp ++ [x]) (fs st) = Ok n' /\
    shutil_copy2 src dst st = (Done tt, mkState n' (clock st) (out st)) /\
    entry_at n' (pp ++ [x]) = Some (EFile m d) /\
    forall q, q <> pp ++ [x] -> entry_at n' q = entry_at (fs st) q.
Proof.
  intros Hs Hr Hsrc Hd Hx Hne.
  destruct (write_file_entry (clock st) m d pp x (fs st) Hd Hx)
    as [n' [Hn' [H1 H2]]].
  exists n'. split; [exact Hn'|]. split; [|now split].
  unfold shutil_copy2.
  rewrite (bind_done _ _ _ _ _ (os_path_isdir_spec _ _ _ Hr)).
  assert (Hnd : match view st (pp ++ [x]) with
                | Some EDir => true | _ => false end = false).
  { destruct (view st (pp ++ [x])) as [[? ?|]|]; try reflexivity.
    now elim Hx. }
  rewrite Hnd. unfold copyfile_stat, samefile. rewrite Hs, Hr.
  assert (Hsame : match lookup ps (fs st), lookup (pp ++ [x]) (fs st) with
                  | Some _, Some _ =>
                      if list_eq_dec string_dec ps (pp ++ [x])
                      then true else false
                  | _, _ => false
                  end = false).
  { destruct (lookup ps (fs st)), (lookup (pp ++ [x]) (fs st)); try reflexivity.
    now destruct (list_eq_dec string_dec ps (pp ++ [x])). }
  rewrite Hsame. apply view_lookup_file in Hsrc. unfold stat.
  rewrite Hs, Hsrc. unfold change. now rewrite Hr, Hn'.
Qed.

Lemma shutil_copy2_spec (src dst : string) (ps pp : list string)
    (x : string) (st : state) (m : Z) (d : string) :
  resolve src = Some ps -> resolve dst = Some (pp ++ [x]) ->
  wf (fs st) = true -> view st ps = Some (EFile m d) ->
  view st pp = Some EDir -> view st (pp ++ [x]) <> Some EDir ->
  ps <> pp ++ [x] ->
  exists st', shutil_copy2 src dst st = (Done tt, st') /\ quiet st st' /\
    view st' (pp ++ [x]) = Some (EFile m d) /\
    forall q, q <> pp ++ [x] -> view st' q = view st q.
Proof.
  intros Hs Hr Hw Hsrc Hd Hx Hne.
  destruct (shutil_copy2_done src dst ps pp x st m d Hs Hr Hsrc Hd Hx Hne)
    as [n' [Hn' [Hrun [H1 H2]]]].
  eexists. split; [exact Hrun|]. split; [|split].
  - repeat split. simpl.
    exact (write_file_wf _ _ _ _ _ _ Hw (resolve_proper _ _ Hr) Hn').
  - exact H1.
  - exact H2.
Qed.

Lemma os_remove_spec (path : string) (p : list string) (st : state)
    (m : Z) (d : string) :
  resolve path = Some p -> wf (fs st) = true -> p <> [] ->
  view st p = Some (EFile m d) ->
  exists st', os_remove path st = (Done tt, st') /\ quiet st st' /\
    view st' p = None /\
    forall q, q <> p -> view st' q = view st q.
Proof.
  intros Hr Hw Hp Hx. unfold os_remove, change. rewrite Hr.
  destruct (remove_entry (clock st) p (fs st) m d Hx Hp) as [n' [Hn' [H1 H2]]].
  rewrite Hn'. eexists. split; [reflexivity|]. split; [|split].
  - repeat split. simpl.
    exact (remove_wf _ _ _ _ Hw (resolve_proper _ _ Hr) Hn').
  - exact H1.
  - exact H2.
Qed.

Lemma shutil_rmtree_spec (path : string) (p : list string) (st : state) :
  resolve path = Some p -> wf (fs st) = true -> p <> [] ->
  view st p = Some EDir ->
  exists st', shutil_rmtree path st = (Done tt, st') /\ quiet st st' /\
    forall q, view st' q = if prefixb p q then None else view st q.
Proof.
  intros Hr Hw Hp Hx. unfold shutil_rmtree, change. rewrite Hr.
  destruct (rmtree_entry (clock st) p (fs st) Hx Hp) as [n' [Hn' H1]].
  rewrite Hn'. eexists. split; [reflexivity|]. split.
  - repeat split. simpl.
    exact (rmtree_wf _ _ _ _ Hw (resolve_proper _ _ Hr) Hn').
  - exact H1.
Qed.

(** What [os.walk] lists of a well-formed directory. *)
Lemma listing_spec (top : string) (p : list string) (st : state) :
  resolve top = Some p -> wf (fs st) = true -> view st p = Some EDir ->
  exists dirs files, listing top (fs st) = Ok (dirs, files) /\
    NoDup dirs /\ NoDup files /\
    (forall x, In x dirs <-> view st (p ++ [x]) = Some EDir) /\
    (forall x, In x files <->
               exists m d, view st (p ++ [x]) = Some (EFile m d)) /\
    (forall x, In x dirs \/ In x files -> proper x = true).
Proof.
  intros Hr Hw Hv. unfold listing, scandir. rewrite Hr.
  unfold view, entry_at in *.
  destruct (lookup p (fs st)) as [[m d|m es]|] eqn:El; try discriminate.
  pose proof (wf_lookup _ _ _ Hw El) as Hwd.
  pose proof Hwd as Hwd'. apply wf_dir in Hwd' as [Hdist Hall].
  eexists _, _. split; [reflexivity|].
  split; [now apply names_where_nodup|].
  split; [now apply names_where_nodup|].
  assert (Hl : forall x, lookup (p ++ [x]) (fs st) = assoc x es).
  { intros x. now rewrite lookup_app, El, lookup_single. }
  split; [|split].
  - intros x. rewrite Hl, (names_where_spec _ _ _ Hdist). split.
    + intros [c [-> Hc]]. now destruct c.
    + destruct (assoc x es) as [[? ?|? ?]|]; try discriminate.
      intros _. eexists. split; reflexivity.
  - intros x. rewrite Hl, (names_where_spec _ _ _ Hdist). split.
    + intros [c [-> Hc]]. destruct c; [simpl; eauto | discriminate].
    + intros [m' [d' H]].
      destruct (assoc x es) as [[? ?|? ?]|]; try discriminate.
      eexists. split; reflexivity.
  - intros x [H|H]; exact (names_where_proper _ _ _ _ Hwd H).
Qed.


(** ** Walked paths *)

Section Walked.

Open Scope string_scope.

Lemma walked_snoc (top : string) (q : list string) (x : string) :
  walked top (q ++ [x]) = join (walked top q) x.
Proof. unfold walked. now rewrite fold_left_app. Qed.

Lemma parse_walked (top : string) (q : list string) :
  Forall (fun x => proper x = true) q ->
  parse (walked top q) = (parse top ++ q)%list.
Proof.
  intros H. revert top. unfold walked.
  induction H as [|x q Hx Hq IH]; intros top; simpl.
  - now rewrite app_nil_r.
  - rewrite IH, parse_join by exact Hx. now rewrite <- app_assoc.
Qed.

Lemma plain_join (a x : string) :
  plain a = true -> proper x = true ->
  join a x = a ++ "/" ++ x /\ plain (join a x) = true.
Proof.
  unfold plain. intros Ha Hx. apply andb_prop in Ha as [Ha1 Ha2].
  apply negb_true_iff in Ha1, Ha2. unfold join.
  rewrite (proper_not_startswith _ Hx), Ha1, Ha2. simpl. split; [reflexivity|].
  pose proof (proper_nonempty _ Hx) as Hne.
  apply andb_true_intro. split; apply negb_true_iff.
  - apply String.eqb_neq. apply append_nonempty_r. discriminate.
  - change (a ++ String "/" x) with (a ++ (String "/" "" ++ x)).
    rewrite <- append_assoc, endswith_sep_append by exact Hne.
    apply sep_free_not_endswith. now apply proper_sep_free.
Qed.

Lemma plain_walked (top : string) (q : list string) :
  plain top = true -> Forall (fun x => proper x = true) q ->
  plain (walked top q) = true.
Proof.
  intros Ht H. revert top Ht. unfold walked.
  induction H as [|x q Hx Hq IH]; intros top Ht; simpl; [exact Ht|].
  apply IH. now apply plain_join.
Qed.

Lemma plain_nonempty (a : string) : plain a = true -> a <> "".
Proof.
  unfold plain. intros H. apply andb_prop in H as [H _].
  apply negb_true_iff in H. now apply String.eqb_neq.
Qed.

(** Under plain roots the rewriting of a walked path is the path walked
    from the other root. *)
Lemma replace1_walked (a b : string) (q : list string) :
  plain a = true -> plain b = true ->
  Forall (fun x => proper x = true) q ->
  replace1 a b (walked a q) = walked b q.
Proof.
  intros Ha Hb H.
  assert (G : exists t, walked a q = a ++ t /\ walked b q = b ++ t).
  { revert H. induction q as [|x q IH] using rev_ind; intros H.
    - exists "". unfold walked. simpl. now rewrite !append_nil_r.
    - apply Forall_app in H as [Hq Hx]. inversion Hx as [|? ? Hx' _]; subst.
      rename Hx' into Hpx.
      destruct (IH Hq) as [t [E1 E2]]. exists (t ++ "/" ++ x).
      rewrite !walked_snoc.
      destruct (plain_join (walked a q) x (plain_walked a q Ha Hq) Hpx)
        as [-> _].
      destruct (plain_join (walked b q) x (plain_walked b q Hb Hq) Hpx)
        as [-> _].
      now rewrite E1, E2, !append_assoc. }
  destruct G as [t [-> ->]]. apply replace1_prefix.
Qed.

End Walked.

(** ** One file of the first loop *)

Lemma resolve_join (a x : string) :
  proper x = true -> resolve (join a x) = Some (parse a ++ [x]).
Proof.
  intros H. rewrite resolve_some by now apply join_nonempty.
  now rewrite parse_join.
Qed.

Lemma report_spec (k : action_kind) (path : string) (st : state) :
  report k path st =
  (Done tt, mkState (fs st) (clock st) (out st ++ [Action k path])).
Proof. reflexivity. Qed.

Lemma propagate_file_spec (root replica_path file : string) (st : state)
    (m : Z) (d : string) :
  proper file = true -> wf (fs st) = true ->
  view st (parse root ++ [file]) = Some (EFile m d) ->
  view st (parse replica_path) = Some EDir ->
  view st (parse replica_path ++ [file]) <> Some EDir ->
  parse root ++ [file] <> parse replica_path ++ [file] ->
  exists st',
    propagate_file root replica_path file st = (Done tt, st') /\
    wf (fs st') = true /\ clock st' = clock st /\
    out st' = out st ++ file_actions (join replica_path file)
                          (Some (EFile m d))
                          (view st (parse replica_path ++ [file])) /\
    view st' (parse replica_path ++ [file]) =
      merge (Some (EFile m d)) (view st (parse replica_path ++ [file])) /\
    forall p, p <> parse replica_path ++ [file] -> view st' p = view st p.
Proof.
  intros Hf Hw Hsrc Hdir Hnd Hne.
  pose proof (resolve_join root file Hf) as Rs.
  pose proof (resolve_join replica_path file Hf) as Rr.
  assert (Copy : exists st1,
             shutil_copy2 (join root file) (join replica_path file) st
             = (Done tt, st1) /\ quiet st st1 /\
             view st1 (parse replica_path ++ [file]) = Some (EFile m d) /\
             forall q, q <> parse replica_path ++ [file] ->
                       view st1 q = view st q).
  { now apply (shutil_copy2_spec _ _ (parse root ++ [file])). }
  destruct Copy as [st1 [Hc [[Hw1 [Hk1 Ho1]] [Hv1 Hfr1]]]].
  unfold propagate_file.
  rewrite (bind_done _ _ _ _ _ (os_path_exists_spec _ _ st Rr)).
  destruct (view st (parse replica_path ++ [file])) as [[m' d'|]|] eqn:Er.
  - cbn [negb].
    rewrite (bind_done _ _ _ _ _ (os_path_getmtime_file _ _ st m d Rs Hsrc)).
    rewrite (bind_done _ _ _ _ _ (os_path_getmtime_file _ _ st m' d' Rr Er)).
    cbn [merge file_actions]. destruct (m >? m')%Z.
    + rewrite (bind_done _ _ _ _ _ Hc), report_spec.
      eexists. split; [reflexivity|]. cbn [fs clock out].
      rewrite Ho1. repeat split; auto.
    + exists st. rewrite app_nil_r. repeat split; auto.
  - now elim Hnd.
  - cbn [negb merge file_actions].
    rewrite (bind_done _ _ _ _ _ Hc), report_spec.
    eexists. split; [reflexivity|]. cbn [fs clock out].
    rewrite Ho1. repeat split; auto.
Qed.

(** ** The first loop *)

Section Propagate.

Variables source replica : string.
Hypothesis plain_source : plain source = true.
Hypothesis plain_replica : plain replica = true.
Hypothesis roots_apart : apart (parse source) (parse replica) = true.

Local Abbreviation S := (parse source).
Local Abbreviation R := (parse replica).

Lemma source_outside (q r : list string) : prefixb (R ++ q) (S ++ r) = false.
Proof.
  pose proof (apart_app _ _ r q roots_apart) as H. unfold apart in H.
  apply andb_prop in H as [_ H]. now apply negb_true_iff.
Qed.

Lemma prefixb_longer (p q : list string) :
  List.length q < List.length p -> prefixb p q = false.
Proof.
  intros H. destruct (prefixb p q) eqn:E; [|reflexivity].
  apply prefixb_spec in E as [r ->]. rewrite List.length_app in H. lia.
Qed.

Lemma prefixb_app2 (a b c : list string) :
  prefixb (a ++ b) (a ++ b ++ c) = true.
Proof. rewrite app_assoc. apply prefixb_app. Qed.

Lemma child_not_above2 (a b : list string) (x : string) :
  prefixb (a ++ b ++ [x]) (a ++ b) = false.
Proof.
  apply prefixb_longer. rewrite !List.length_app. simpl. lia.
Qed.

Lemma sibling_outside2 (a b : list string) (x y : string) (r : list string) :
  y <> x -> prefixb (a ++ b ++ [x]) (a ++ b ++ y :: r) = false.
Proof.
  intros H. rewrite !prefixb_app_l. simpl.
  apply not_eq_sym in H. apply String.eqb_neq in H. now rewrite H.
Qed.

Lemma app_cons_ne (a b : list string) (x : string) (r : list string) :
  a ++ b ++ x :: r <> a ++ b.
Proof.
  intros E. apply (f_equal (@List.length string)) in E.
  rewrite !List.length_app in E. simpl in E. lia.
Qed.

Lemma resolve_walked (top : string) (q : list string) :
  plain top = true -> Forall (fun x => proper x = true) q ->
  resolve (walked top q) = Some (parse top ++ q).
Proof.
  intros Ht Hq. rewrite resolve_some.
  - now rewrite parse_walked.
  - apply plain_nonempty. now apply plain_walked.
Qed.

Lemma propagate_files_loop (q : list string) (st0 : state)
    (files L : list string) (st : state) :
  Forall (fun x => proper x = true) q ->
  NoDup (files ++ L) ->
  (forall f, In f files ->
     proper f = true /\
     (exists m d, view st0 (S ++ q ++ [f]) = Some (EFile m d)) /\
     view st0 (R ++ q ++ [f]) <> Some EDir) ->
  propagate_inv S R q st0 (files ++ L) st ->
  exists st',
    for_each files
      (propagate_file (walked source q) (walked replica q)) st
    = (Done tt, st') /\
    propagate_inv S R q st0 L st'.
Proof.
  intros Hq. revert st. induction files as [|f files IH]; intros st Hnd Hfiles Inv.
  - exists st. split; [reflexivity | exact Inv].
  - destruct Inv as [Hw [I1 [I2 [I3 I4]]]].
    destruct (Hfiles f (or_introl eq_refl)) as [Hf [[m [d Hsrc]] Hnodir]].
    simpl in Hnd. inversion Hnd as [|? ? Hfresh Hnd']; subst.
    assert (Es : parse (walked source q) ++ [f] = S ++ q ++ [f])
      by now rewrite parse_walked, <- app_assoc.
    assert (Er : parse (walked replica q) ++ [f] = R ++ q ++ [f])
      by now rewrite parse_walked, <- app_assoc.
    assert (Ed : parse (walked replica q) = R ++ q) by now rewrite parse_walked.
    assert (Hcur : view st (R ++ q ++ [f]) = view st0 (R ++ q ++ [f])).
    { apply I3. now left. }
    destruct (propagate_file_spec (walked source q) (walked replica q) f st m d)
      as [st1 [Hrun [Hw1 [_ [_ [Hv1 Hfr1]]]]]]; auto.
    + rewrite Es, I1 by apply source_outside. exact Hsrc.
    + now rewrite Ed.
    + now rewrite Er, Hcur.
    + rewrite Es, Er. intros E.
      pose proof (source_outside q (q ++ [f])) as Ho.
      now rewrite E, prefixb_app2 in Ho.
    + rewrite Er in Hv1, Hfr1. rewrite Hcur in Hv1.
      destruct (IH st1) as [st' [Hloop Inv']]; auto.
      * intros g Hg. apply Hfiles. now right.
      * split; [exact Hw1|]. split; [|split; [|split]].
        -- intros p Hp. rewrite Hfr1; [now apply I1|].
           intros ->. now rewrite prefixb_app2 in Hp.
        -- rewrite <- (app_nil_r (R ++ q)) at 1.
           rewrite Hfr1; [now rewrite app_nil_r|].
           rewrite app_nil_r. intros E.
           apply (f_equal (@List.length string)) in E.
           rewrite !List.length_app in E. simpl in E. lia.
        -- intros x r Hx. rewrite Hfr1; [apply I3; now right|].
           intros E. apply app_inv_head in E. apply app_inv_head in E.
           injection E as -> _. contradiction.
        -- intros x r Hx. destruct (string_dec x f) as [->|Hxf].
           ++ destruct r as [|y r].
              ** rewrite Hv1. now rewrite Hsrc.
              ** rewrite Hfr1.
                 --- rewrite I3 by now left.
                     change (f :: y :: r) with ([f] ++ y :: r).
                     rewrite (app_assoc q), (app_assoc S).
                     unfold view in *.
                     rewrite (entry_at_file_under _ (y :: r) _ m d);
                       [reflexivity | exact Hsrc | discriminate].
                 --- intros E. apply app_inv_head in E.
                     apply app_inv_head in E. discriminate.
           ++ rewrite Hfr1.
              ** apply I4. intros [E|E]; [congruence | contradiction].
              ** intros E. apply app_inv_head in E. apply app_inv_head in E.
                 congruence.
      * exists st'. split; [|exact Inv'].
        rewrite for_each_cons. now rewrite (bind_done _ _ _ _ _ Hrun).
Qed.

Lemma snoc_app (q : list string) (d : string) (r : list string) :
  (q ++ [d]) ++ r = q ++ d :: r.
Proof. now rewrite <- app_assoc. Qed.

Lemma same_kind_dir (e : entry) : same_kind EDir e = true -> e = EDir.
Proof. now destruct e. Qed.

Lemma propagate_dirs_loop (k : nat) (q : list string) (st0 : state)
    (dirs : list string) (st : state) :
  (forall q' st1, propagate_pre S R q' k st1 ->
     exists st2,
       os_walk_topdown k (walked source q') (propagate_body source replica)
         st1 = (Done tt, st2) /\
       propagate_post S R q' st1 st2) ->
  Forall (fun x => proper x = true) q ->
  NoDup dirs ->
  (forall d, In d dirs ->
     proper d = true /\ view st0 (S ++ q ++ [d]) = Some EDir) ->
  (forall r, view st0 (S ++ q ++ r) = Some EDir -> List.length r < Datatypes.S k) ->
  (forall r e e', view st0 (S ++ q ++ r) = Some e ->
                  view st0 (R ++ q ++ r) = Some e' -> same_kind e e' = true) ->
  propagate_inv S R q st0 dirs st ->
  exists st',
    for_each dirs
      (fun d => os_walk_topdown k (join (walked source q) d)
                  (propagate_body source replica)) st
    = (Done tt, st') /\
    propagate_inv S R q st0 [] st'.
Proof.
  intros IHk Hq. revert st.
  induction dirs as [|d dirs IH]; intros st Hnd Hdirs Hdepth Hcompat Inv.
  - exists st. split; [reflexivity | exact Inv].
  - destruct Inv as [Hw [I1 [I2 [I3 I4]]]].
    destruct (Hdirs d (or_introl eq_refl)) as [Hd Hsrc].
    inversion Hnd as [|? ? Hfresh Hnd']; subst.
    assert (Hq' : Forall (fun x => proper x = true) (q ++ [d])).
    { apply Forall_app. split; [exact Hq | now constructor]. }
    assert (Pre : propagate_pre S R (q ++ [d]) k st).
    { split; [exact Hw|]. split; [exact Hq'|]. split; [|split; [|split]].
      - rewrite I1 by apply source_outside. exact Hsrc.
      - unfold replica_ready.
        assert (Hcur : view st (R ++ q ++ [d]) = view st0 (R ++ q ++ [d]))
          by (apply I3; now left).
        rewrite Hcur. destruct (view st0 (R ++ q ++ [d])) as [e'|] eqn:Ev.
        + left. f_equal. apply same_kind_dir.
          exact (Hcompat [d] EDir e' Hsrc Ev).
        + right. split; [reflexivity|]. now exists q, d.
      - intros r Hr. rewrite snoc_app, I1 in Hr by apply source_outside.
        apply Hdepth in Hr. simpl in Hr. lia.
      - intros r e e'. rewrite !snoc_app, I1 by apply source_outside.
        rewrite I3 by now left. apply Hcompat. }
    destruct (IHk _ _ Pre) as [st1 [Hrun [Hw1 [P1 P2]]]].
    destruct (IH st1) as [st' [Hloop Inv']]; auto.
    + intros g Hg. apply Hdirs. now right.
    + split; [exact Hw1|]. split; [|split; [|split]].
      * intros p Hp. rewrite P1; [now apply I1|].
        destruct (prefixb (R ++ q ++ [d]) p) eqn:E; [|reflexivity].
        rewrite <- Hp. symmetry.
        apply (prefixb_trans _ (R ++ q ++ [d])); [apply prefixb_app2 | exact E].
      * rewrite P1; [exact I2|]. apply child_not_above2.
      * intros x r Hx. rewrite P1; [apply I3; now right|].
        apply sibling_outside2. intros ->. contradiction.
      * intros x r Hx. destruct (string_dec x d) as [->|Hxd].
        -- pose proof (P2 r) as P. rewrite !snoc_app in P. rewrite P.
           rewrite I1 by apply source_outside. now rewrite I3 by now left.
        -- rewrite P1; [|now apply sibling_outside2; auto].
           apply I4. intros [E|E]; [congruence | contradiction].
    + exists st'. split; [|exact Inv'].
      rewrite for_each_cons. rewrite <- walked_snoc.
      now rewrite (bind_done _ _ _ _ _ Hrun).
Qed.

Lemma propagate_enter (q : list string) (st : state) :
  wf (fs st) = true -> Forall (fun x => proper x = true) q ->
  replica_ready R q st ->
  exists st1,
    (present <- os_path_exists (walked replica q) ;;
     when (negb present)
       (os_makedirs (walked replica q) ;;
        report CreatedDir (walked replica q))) st = (Done tt, st1) /\
    wf (fs st1) = true /\
    view st1 (R ++ q) = Some EDir /\
    forall p, p <> R ++ q -> view st1 p = view st p.
Proof.
  intros Hw Hq Hready.
  pose proof (resolve_walked replica q plain_replica Hq) as Rr.
  rewrite (bind_done _ _ _ _ _ (os_path_exists_spec _ _ st Rr)).
  destruct Hready as [Hthere | [Hmissing [q0 [x [-> Hparent]]]]].
  - rewrite Hthere. exists st. repeat split; auto.
  - rewrite Hmissing. cbn [negb when].
    rewrite app_assoc in Rr, Hmissing.
    destruct (os_makedirs_spec _ _ _ st Rr Hw Hparent Hmissing)
      as [st1 [Hrun [[Hw1 _] [Hv1 Hfr1]]]].
    rewrite (bind_done _ _ _ _ _ Hrun), report_spec.
    eexists. split; [reflexivity|]. rewrite app_assoc.
    repeat split; auto.
Qed.

Lemma propagate_visit (k : nat) (q : list string) (st : state) :
  propagate_pre S R q k st ->
  exists st',
    os_walk_topdown k (walked source q) (propagate_body source replica) st
    = (Done tt, st') /\
    propagate_post S R q st st'.
Proof.
  revert q st. induction k as [|k IHk];
    intros q st [Hw [Hq [Hsrc [Hready [Hdepth Hcompat]]]]].
  - specialize (Hdepth []). rewrite app_nil_r in Hdepth.
    apply Hdepth in Hsrc. simpl in Hsrc. lia.
  - pose proof (resolve_walked source q plain_source Hq) as Rs.
    destruct (listing_spec _ _ st Rs Hw Hsrc)
      as [dirs [files [Hl [Nd [Nf [Sd [Sf Spr]]]]]]].
    assert (Sd' : forall x, In x dirs <-> view st (S ++ q ++ [x]) = Some EDir).
    { intros x. rewrite app_assoc. apply Sd. }
    assert (Sf' : forall x, In x files <->
                    exists m d, view st (S ++ q ++ [x]) = Some (EFile m d)).
    { intros x. rewrite app_assoc. apply Sf. }
    clear Sd Sf.
    assert (Nall : NoDup (files ++ dirs)).
    { apply NoDup_app; auto. intros x Hf Hd.
      apply Sf' in Hf as [m [d Hf]]. apply Sd' in Hd. congruence. }
    destruct (propagate_enter q st Hw Hq Hready) as [st1 [Henter [Hw1 [Hv1 Hfr1]]]].
    assert (Inv1 : propagate_inv S R q st (files ++ dirs) st1).
    { split; [exact Hw1|]. split; [|split; [|split]].
      - intros p Hp. apply Hfr1. intros ->.
        now rewrite prefixb_refl in Hp.
      - exact Hv1.
      - intros x r _. apply Hfr1. apply app_cons_ne.
      - intros x r Hx. rewrite Hfr1 by apply app_cons_ne.
        assert (Hnone : view st (S ++ q ++ [x]) = None).
        { destruct (view st (S ++ q ++ [x])) as [[m d|]|] eqn:E; [| |reflexivity].
          - elim Hx. apply in_or_app. left. apply Sf'. eauto.
          - elim Hx. apply in_or_app. right. now apply Sd'. }
        change (x :: r) with ([x] ++ r).
        rewrite (app_assoc q), (app_assoc S). unfold view in *.
        now rewrite (entry_at_none_under _ r _ Hnone). }
    destruct (propagate_files_loop q st files dirs st1 Hq Nall)
      as [st2 [Hfiles Inv2]]; [|exact Inv1|].
    { intros f Hf. split; [apply Spr; now right|]. split; [now apply Sf'|].
      intros E. apply Sf' in Hf as [m [d Hf]].
      pose proof (Hcompat [f] _ _ Hf E). discriminate. }
    destruct (propagate_dirs_loop k q st dirs st2 IHk Hq) as [st3 [Hdirs Inv3]];
      auto.
    { intros d Hd. split; [apply Spr; now left | now apply Sd']. }
    exists st3. split.
    + cbn [os_walk_topdown]. rewrite Hl. unfold propagate_body.
      rewrite (replace1_walked _ _ _ plain_source plain_replica Hq).
      unfold bind in *.
      destruct (os_path_exists (walked replica q) st) as [[present| |] sta];
        try discriminate.
      destruct (when (negb present) _ sta) as [[[]| |] stb]; try discriminate.
      injection Henter as ->. rewrite Hfiles. exact Hdirs.
    + destruct Inv3 as [Hw3 [I1 [I2 [_ I4]]]].
      split; [exact Hw3|]. split; [exact I1|].
      intros [|x r].
      * rewrite !app_nil_r, I2, Hsrc. reflexivity.
      * apply I4. tauto.
Qed.

End Propagate.


(** ** One entry of the second loop *)

Lemma prune_file_spec (root source_path file : string) (st : state)
    (m : Z) (d : string) :
  proper file = true -> wf (fs st) = true ->
  view st (parse root ++ [file]) = Some (EFile m d) ->
  exists st',
    prune_file root source_path file st = (Done tt, st') /\
    wf (fs st') = true /\ clock st' = clock st /\
    out st' = out st ++ prune_actions DeletedFile (join root file)
                          (view st (parse source_path ++ [file])) /\
    view st' (parse root ++ [file]) =
      keep_if (view st (parse source_path ++ [file]))
              (view st (parse root ++ [file])) /\
    forall p, p <> parse root ++ [file] -> view st' p = view st p.
Proof.
  intros Hf Hw Hv.
  pose proof (resolve_join root file Hf) as Rr.
  pose proof (resolve_join source_path file Hf) as Rs.
  unfold prune_file.
  rewrite (bind_done _ _ _ _ _ (os_path_exists_spec _ _ st Rs)).
  destruct (view st (parse source_path ++ [file])) as [e|] eqn:Es.
  - exists st. cbn [negb when ret prune_actions keep_if].
    rewrite app_nil_r. repeat split; auto.
  - cbn [negb when prune_actions keep_if].
    destruct (os_remove_spec _ _ st m d Rr Hw) as [st1 [Hrun [[Hw1 [Hk1 Ho1]] [Hv1 Hfr1]]]];
      [now destruct (parse root) | exact Hv |].
    rewrite (bind_done _ _ _ _ _ Hrun), report_spec.
    eexists. split; [reflexivity|]. cbn [fs clock out].
    rewrite Ho1. repeat split; auto.
Qed.

Lemma prune_dir_spec (root source_path directory : string) (st : state) :
  proper directory = true -> wf (fs st) = true ->
  view st (parse root ++ [directory]) = Some EDir ->
  exists st',
    prune_dir root source_path directory st = (Done tt, st') /\
    wf (fs st') = true /\ clock st' = clock st /\
    out st' = out st ++ prune_actions DeletedDir (join root directory)
                          (view st (parse source_path ++ [directory])) /\
    forall p,
      view st' p =
      if prefixb (parse root ++ [directory]) p
      then keep_if (view st (parse source_path ++ [directory])) (view st p)
      else view st p.
Proof.
  intros Hf Hw Hv.
  pose proof (resolve_join root directory Hf) as Rr.
  pose proof (resolve_join source_path directory Hf) as Rs.
  unfold prune_dir.
  rewrite (bind_done _ _ _ _ _ (os_path_exists_spec _ _ st Rs)).
  destruct (view st (parse source_path ++ [directory])) as [e|] eqn:Es.
  - exists st. cbn [negb when ret prune_actions keep_if].
    rewrite app_nil_r. repeat split; auto.
    intros p. now destruct (prefixb _ p).
  - cbn [negb when prune_actions keep_if].
    destruct (shutil_rmtree_spec _ _ st Rr Hw) as [st1 [Hrun [[Hw1 [Hk1 Ho1]] Hv1]]];
      [now destruct (parse root) | exact Hv |].
    rewrite (bind_done _ _ _ _ _ Hrun), report_spec.
    eexists. split; [reflexivity|]. cbn [fs clock out].
    rewrite Ho1. repeat split; auto.
Qed.

(** ** The second loop *)

Section Prune.

Variables source replica : string.
Hypothesis plain_source : plain source = true.
Hypothesis plain_replica : plain replica = true.
Hypothesis roots_apart : apart (parse source) (parse replica) = true.

Local Abbreviation S := (parse source).
Local Abbreviation R := (parse replica).

Lemma outside_source (q r : list string) : prefixb (R ++ q) (S ++ r) = false.
Proof. exact (source_outside source replica roots_apart q r). Qed.

Lemma under_child (a b : list string) (x : string) (r : list string) :
  prefixb (a ++ b ++ [x]) (a ++ b ++ x :: r) = true.
Proof.
  rewrite !prefixb_app_l. simpl. now rewrite String.eqb_refl.
Qed.

Lemma outside_parent (a b : list string) (x : string) (p : list string) :
  prefixb (a ++ b) p = false -> prefixb (a ++ b ++ [x]) p = false.
Proof.
  intros Hp. destruct (prefixb (a ++ b ++ [x]) p) eqn:E; [|reflexivity].
  rewrite <- Hp. symmetry.
  apply (prefixb_trans _ (a ++ b ++ [x])); [apply prefixb_app2 | exact E].
Qed.

Lemma parent_ne (a b : list string) (x : string) : a ++ b <> a ++ b ++ [x].
Proof.
  intros E. apply (f_equal (@List.length string)) in E.
  rewrite !List.length_app in E. simpl in E. lia.
Qed.

Lemma cons_ne_single (a b : list string) (x y z : string) (r : list string) :
  a ++ b ++ x :: y :: r <> a ++ b ++ [z].
Proof.
  intros E. apply app_inv_head in E. apply app_inv_head in E. discriminate.
Qed.

Lemma single_ne (a b : list string) (x z : string) :
  x <> z -> a ++ b ++ [x] <> a ++ b ++ [z].
Proof.
  intros H E. apply app_inv_head in E. apply app_inv_head in E. congruence.
Qed.

Lemma prune_children_loop (k : nat) (q : list string) (st0 : state)
    (L1 dirs : list string) (st : state) :
  (forall q' st1, prune_pre R q' k st1 ->
     exists st2,
       os_walk_bottomup k (walked replica q') (prune_body source replica)
         st1 = (Done tt, st2) /\
       prune_post S R q' st1 st2) ->
  Forall (fun x => proper x = true) q ->
  NoDup dirs ->
  (forall d, In d dirs ->
     proper d = true /\ In d L1 /\ view st0 (R ++ q ++ [d]) = Some EDir) ->
  (forall r, view st0 (R ++ q ++ r) = Some EDir ->
             List.length r < Datatypes.S k) ->
  prune_inv S R q st0 L1 dirs st ->
  exists st',
    for_each dirs
      (fun d => os_walk_bottomup k (join (walked replica q) d)
                  (prune_body source replica)) st
    = (Done tt, st') /\
    prune_inv S R q st0 L1 [] st'.
Proof.
  intros IHk Hq. revert st.
  induction dirs as [|d dirs IH]; intros st Hnd Hdirs Hdepth Inv.
  - exists st. split; [reflexivity | exact Inv].
  - destruct Inv as [Hw [I1 [I2 [I3 [I4 [I5 I6]]]]]].
    destruct (Hdirs d (or_introl eq_refl)) as [Hd [HdL Hrep]].
    inversion Hnd as [|? ? Hfresh Hnd']; subst.
    assert (Hq' : Forall (fun x => proper x = true) (q ++ [d])).
    { apply Forall_app. split; [exact Hq | now constructor]. }
    assert (Hcur : view st (R ++ q ++ [d]) = Some EDir).
    { rewrite I3 by exact HdL. exact Hrep. }
    assert (Pre : prune_pre R (q ++ [d]) k st).
    { split; [exact Hw|]. split; [exact Hq'|]. split; [exact Hcur|].
      intros [|y r] Hr.
      - pose proof (Hdepth [d] Hrep) as H. simpl in *. lia.
      - rewrite snoc_app, I5 in Hr by now left.
        apply Hdepth in Hr. simpl in *. lia. }
    destruct (IHk _ _ Pre) as [st1 [Hrun [Hw1 [P1 [P2 P3]]]]].
    destruct (IH st1) as [st' [Hloop Inv']]; auto.
    + intros g Hg. apply Hdirs. now right.
    + split; [exact Hw1|]. split; [|split; [|split; [|split; [|split]]]].
      * intros p Hp. rewrite P1 by now apply outside_parent. now apply I1.
      * rewrite P1 by apply child_not_above2. exact I2.
      * intros x Hx. destruct (string_dec x d) as [->|Hxd].
        -- now rewrite P2, Hrep.
        -- rewrite P1 by now apply sibling_outside2. now apply I3.
      * intros x Hx. rewrite P1; [now apply I4|].
        apply sibling_outside2. intros ->. contradiction.
      * intros x y r Hx. rewrite P1; [apply I5; now right|].
        apply sibling_outside2. intros ->. contradiction.
      * intros x y r Hx. destruct (string_dec x d) as [->|Hxd].
        -- pose proof (P3 y r) as P. rewrite !snoc_app in P. rewrite P.
           rewrite I1 by apply outside_source. now rewrite I5 by now left.
        -- rewrite P1 by now apply sibling_outside2.
           apply I6. intros [E|E]; [congruence | contradiction].
    + exists st'. split; [|exact Inv'].
      rewrite for_each_cons. rewrite <- walked_snoc.
      now rewrite (bind_done _ _ _ _ _ Hrun).
Qed.

Lemma prune_files_loop (q : list string) (st0 : state)
    (files L : list string) (st : state) :
  Forall (fun x => proper x = true) q ->
  NoDup (files ++ L) ->
  (forall f, In f files ->
     proper f = true /\
     exists m d, view st0 (R ++ q ++ [f]) = Some (EFile m d)) ->
  prune_inv S R q st0 (files ++ L) [] st ->
  exists st',
    for_each files (prune_file (walked replica q) (walked source q)) st
    = (Done tt, st') /\
    prune_inv S R q st0 L [] st'.
Proof.
  intros Hq. revert st.
  induction files as [|f files IH]; intros st Hnd Hfiles Inv.
  - exists st. split; [reflexivity | exact Inv].
  - destruct Inv as [Hw [I1 [I2 [I3 [I4 [I5 I6]]]]]].
    destruct (Hfiles f (or_introl eq_refl)) as [Hf [m [d Hrep]]].
    simpl in Hnd. inversion Hnd as [|? ? Hfresh Hnd']; subst.
    assert (Es : parse (walked source q) ++ [f] = S ++ q ++ [f])
      by now rewrite parse_walked, <- app_assoc.
    assert (Er : parse (walked replica q) ++ [f] = R ++ q ++ [f])
      by now rewrite parse_walked, <- app_assoc.
    assert (Hcur : view st (R ++ q ++ [f]) = view st0 (R ++ q ++ [f])).
    { apply I3. now left. }
    destruct (prune_file_spec (walked replica q) (walked source q) f st m d)
      as [st1 [Hrun [Hw1 [_ [_ [Hv1 Hfr1]]]]]]; auto.
    { now rewrite Er, Hcur. }
    rewrite Er, Es in Hv1. rewrite Er in Hfr1.
    rewrite Hcur, I1 in Hv1 by apply outside_source.
    destruct (IH st1) as [st' [Hloop Inv']]; auto.
    + intros g Hg. apply Hfiles. now right.
    + split; [exact Hw1|]. split; [|split; [|split; [|split; [|split]]]].
      * intros p Hp. rewrite Hfr1; [now apply I1|].
        intros ->. now rewrite prefixb_app2 in Hp.
      * rewrite Hfr1 by apply parent_ne. exact I2.
      * intros x Hx. rewrite Hfr1; [apply I3; now right|].
        apply single_ne. intros ->. contradiction.
      * intros x Hx. destruct (string_dec x f) as [->|Hxf].
        -- exact Hv1.
        -- rewrite Hfr1 by now apply single_ne.
           apply I4. intros [E|E]; [congruence | contradiction].
      * intros x y r [].
      * intros x y r Hx. rewrite Hfr1 by apply cons_ne_single.
        now apply I6.
    + exists st'. split; [|exact Inv'].
      rewrite for_each_cons. now rewrite (bind_done _ _ _ _ _ Hrun).
Qed.

Lemma prune_dirs_loop (q : list string) (st0 : state)
    (dirs : list string) (st : state) :
  Forall (fun x => proper x = true) q ->
  NoDup dirs ->
  (forall d, In d dirs ->
     proper d = true /\ view st0 (R ++ q ++ [d]) = Some EDir) ->
  prune_inv S R q st0 dirs [] st ->
  exists st',
    for_each dirs (prune_dir (walked replica q) (walked source q)) st
    = (Done tt, st') /\
    prune_inv S R q st0 [] [] st'.
Proof.
  intros Hq. revert st.
  induction dirs as [|d dirs IH]; intros st Hnd Hdirs Inv.
  - exists st. split; [reflexivity | exact Inv].
  - destruct Inv as [Hw [I1 [I2 [I3 [I4 [I5 I6]]]]]].
    destruct (Hdirs d (or_introl eq_refl)) as [Hd Hrep].
    inversion Hnd as [|? ? Hfresh Hnd']; subst.
    assert (Es : parse (walked source q) ++ [d] = S ++ q ++ [d])
      by now rewrite parse_walked, <- app_assoc.
    assert (Er : parse (walked replica q) ++ [d] = R ++ q ++ [d])
      by now rewrite parse_walked, <- app_assoc.
    assert (Hcur : view st (R ++ q ++ [d]) = view st0 (R ++ q ++ [d])).
    { apply I3. now left. }
    destruct (prune_dir_spec (walked replica q) (walked source q) d st)
      as [st1 [Hrun [Hw1 [_ [_ Hv1]]]]]; auto.
    { now rewrite Er, Hcur. }
    rewrite Er, Es in Hv1. rewrite I1 in Hv1 by apply outside_source.
    destruct (IH st1) as [st' [Hloop Inv']]; auto.
    + intros g Hg. apply Hdirs. now right.
    + split; [exact Hw1|]. split; [|split; [|split; [|split; [|split]]]].
      * intros p Hp. rewrite Hv1, outside_parent by exact Hp. now apply I1.
      * rewrite Hv1, child_not_above2. exact I2.
      * intros x Hx. rewrite Hv1.
        rewrite (sibling_outside2 R q d x []) by (intros ->; contradiction).
        apply I3. now right.
      * intros x Hx. rewrite Hv1. destruct (string_dec x d) as [->|Hxd].
        -- rewrite (under_child R q d []). now rewrite Hcur.
        -- rewrite (sibling_outside2 R q d x []) by exact Hxd.
           apply I4. intros [E|E]; [congruence | contradiction].
      * intros x y r [].
      * intros x y r Hx. rewrite Hv1. destruct (string_dec x d) as [->|Hxd].
        -- rewrite under_child, I6 by exact Hx.
           destruct (view st0 (S ++ q ++ [d])) as [e|] eqn:Ed; [reflexivity|].
           change (d :: y :: r) with ([d] ++ y :: r).
           rewrite (app_assoc q), (app_assoc S). unfold view in *.
           now rewrite (entry_at_none_under _ (y :: r) _ Ed).
        -- rewrite sibling_outside2 by exact Hxd. now apply I6.
    + exists st'. split; [|exact Inv'].
      rewrite for_each_cons. now rewrite (bind_done _ _ _ _ _ Hrun).
Qed.

Lemma keep_if_none (s : option entry) : keep_if s None = None.
Proof. now destruct s. Qed.

Lemma prune_visit (k : nat) (q : list string) (st : state) :
  prune_pre R q k st ->
  exists st',
    os_walk_bottomup k (walked replica q) (prune_body source replica) st
    = (Done tt, st') /\
    prune_post S R q st st'.
Proof.
  revert q st. induction k as [|k IHk];
    intros q st [Hw [Hq [Hrep Hdepth]]].
  - specialize (Hdepth []). rewrite app_nil_r in Hdepth.
    apply Hdepth in Hrep. simpl in Hrep. lia.
  - pose proof (resolve_walked replica q plain_replica Hq) as Rr.
    destruct (listing_spec _ _ st Rr Hw Hrep)
      as [dirs [files [Hl [Nd [Nf [Sd [Sf Spr]]]]]]].
    assert (Sd' : forall x, In x dirs <-> view st (R ++ q ++ [x]) = Some EDir).
    { intros x. rewrite app_assoc. apply Sd. }
    assert (Sf' : forall x, In x files <->
                    exists m d, view st (R ++ q ++ [x]) = Some (EFile m d)).
    { intros x. rewrite app_assoc. apply Sf. }
    clear Sd Sf.
    assert (Nall : NoDup (files ++ dirs)).
    { apply NoDup_app; auto. intros x Hf Hd.
      apply Sf' in Hf as [m [d Hf]]. apply Sd' in Hd. congruence. }
    assert (Inv0 : prune_inv S R q st (files ++ dirs) dirs st).
    { split; [exact Hw|]. split; [reflexivity|]. split; [exact Hrep|].
      split; [reflexivity|]. split; [|split; [reflexivity|]].
      - intros x Hx.
        assert (Hnone : view st (R ++ q ++ [x]) = None).
        { destruct (view st (R ++ q ++ [x])) as [[m d|]|] eqn:E; [| |reflexivity].
          - elim Hx. apply in_or_app. left. apply Sf'. eauto.
          - elim Hx. apply in_or_app. right. now apply Sd'. }
        now rewrite Hnone, keep_if_none.
      - intros x y r Hx.
        assert (Hnone : view st (R ++ q ++ x :: y :: r) = None).
        { change (x :: y :: r) with ([x] ++ y :: r).
          rewrite (app_assoc q), (app_assoc R). unfold view in *.
          destruct (entry_at (fs st) (R ++ q ++ [x])) as [[m d|]|] eqn:E.
          - now apply (entry_at_file_under _ _ _ m d).
          - elim Hx. now apply Sd'.
          - now apply entry_at_none_under. }
        now rewrite Hnone, keep_if_none. }
    destruct (prune_children_loop k q st (files ++ dirs) dirs st IHk Hq Nd)
      as [st1 [Hchildren Inv1]]; auto.
    { intros d Hd. split; [apply Spr; now left|].
      split; [apply in_or_app; now right | now apply Sd']. }
    destruct (prune_files_loop q st files dirs st1 Hq Nall)
      as [st2 [Hfiles Inv2]]; [|exact Inv1|].
    { intros f Hf. split; [apply Spr; now right | now apply Sf']. }
    destruct (prune_dirs_loop q st dirs st2 Hq Nd) as [st3 [Hdirs Inv3]];
      [|exact Inv2|].
    { intros d Hd. split; [apply Spr; now left | now apply Sd']. }
    exists st3. split.
    + cbn [os_walk_bottomup]. rewrite Hl.
      rewrite (bind_done _ _ _ _ _ Hchildren). unfold prune_body.
      rewrite (replace1_walked _ _ _ plain_replica plain_source Hq).
      now rewrite (bind_done _ _ _ _ _ Hfiles).
    + destruct Inv3 as [Hw3 [I1 [I2 [_ [I4 [_ I6]]]]]].
      split; [exact Hw3|]. split; [exact I1|]. split; [exact I2|].
      intros x [|y r]; [apply I4 | apply I6]; tauto.
Qed.

End Prune.


(** ** One pass *)

Lemma height_child (x : string) (c : node) (m : Z)
    (es : list (string * node)) :
  assoc x es = Some c -> height c < height (Dir m es).
Proof.
  intros H. apply assoc_in in H. simpl.
  induction es as [|[y n] es IH]; simpl in *; [contradiction|].
  destruct H as [H|H].
  - injection H as -> ->. lia.
  - specialize (IH H). lia.
Qed.

(** A directory at depth [length p] needs a tree of greater height. *)
Lemma height_lookup (p : list string) (n : node) :
  entry_at n p = Some EDir -> List.length p < height n.
Proof.
  unfold entry_at. revert n. induction p as [|x p IH]; intros n; simpl.
  - destruct n; [discriminate | simpl; lia].
  - destruct n as [|m es]; [discriminate|].
    destruct (assoc x es) as [c|] eqn:Ex; [|discriminate].
    intros H. apply IH in H. pose proof (height_child _ _ m _ Ex). lia.
Qed.

Lemma compatible_kinds (s r : node) (rel : list string) (e e' : entry) :
  compatible s r = true ->
  entry_at s rel = Some e -> entry_at r rel = Some e' ->
  same_kind e e' = true.
Proof.
  unfold entry_at. revert s r. induction rel as [|x rel IH]; intros s r Hc.
  - simpl. intros [= <-] [= <-]. now destruct s, r.
  - destruct s as [|m es], r as [|m' es']; try discriminate.
    rewrite !lookup_cons.
    destruct (assoc x es) as [c|] eqn:Ex; [|discriminate].
    destruct (assoc x es') as [c'|] eqn:Ex'; [|discriminate].
    apply IH. simpl in Hc. rewrite forallb_forall in Hc.
    specialize (Hc (x, c) (assoc_in _ _ _ Ex)). simpl in Hc.
    now rewrite Ex' in Hc.
Qed.

Lemma merge_dir (s r : option entry) :
  merge s r = Some EDir -> s = Some EDir \/ r = Some EDir.
Proof.
  destruct s as [[m d|]|]; simpl; auto.
  destruct r as [[m' d'|]|]; try discriminate.
  destruct (m >? m')%Z; discriminate.
Qed.

Lemma mirrored_merge (s r : option entry) :
  (forall e e', s = Some e -> r = Some e' -> same_kind e e' = true) ->
  mirrored s r (keep_if s (merge s r)).
Proof.
  intros Hc. destruct s as [[m d|]|]; simpl; auto.
  destruct r as [[m' d'|]|]; simpl.
  - destruct (m >? m')%Z eqn:E; [now left|]. right. split; [reflexivity|].
    rewrite Z.gtb_ltb, Z.ltb_ge in E. exact E.
  - specialize (Hc _ _ eq_refl eq_refl). discriminate.
  - now left.
Qed.

Section Pass.

Variables source replica : string.
Hypothesis plain_source : plain source = true.
Hypothesis plain_replica : plain replica = true.
Hypothesis roots_apart : apart (parse source) (parse replica) = true.

Local Abbreviation S := (parse source).
Local Abbreviation R := (parse replica).

Lemma mirror_ready_inv (st : state) :
  mirror_ready (fs st) S R = true ->
  view st S = Some EDir /\ view st R = Some EDir /\
  forall rel e e', view st (S ++ rel) = Some e ->
                   view st (R ++ rel) = Some e' -> same_kind e e' = true.
Proof.
  unfold mirror_ready, view, entry_at.
  destruct (lookup S (fs st)) as [[|ms es]|] eqn:Es; try discriminate.
  destruct (lookup R (fs st)) as [[|mr er]|] eqn:Er; try discriminate.
  intros Hc. split; [reflexivity|]. split; [reflexivity|].
  intros rel e e'. rewrite !lookup_app, Es, Er.
  exact (compatible_kinds _ _ rel e e' Hc).
Qed.

(** The two loops, entry by entry: [st1] is the state between them. *)
Lemma sync_pass_view (fuel : nat) (st : state) :
  wf (fs st) = true ->
  mirror_ready (fs st) S R = true ->
  height (fs st) <= fuel ->
  exists st1 st2,
    propagate fuel source replica st = (Done tt, st1) /\
    prune fuel source replica st1 = (Done tt, st2) /\
    wf (fs st2) = true /\
    (forall p, prefixb R p = false ->
       view st1 p = view st p /\ view st2 p = view st p) /\
    (forall r, view st1 (R ++ r) =
               merge (view st (S ++ r)) (view st (R ++ r))) /\
    view st2 R = Some EDir /\
    (forall x r, view st2 (R ++ x :: r) =
                 keep_if (view st (S ++ x :: r))
                   (merge (view st (S ++ x :: r)) (view st (R ++ x :: r)))).
Proof.
  intros Hw Hready Hfuel.
  destruct (mirror_ready_inv st Hready) as [Hs [Hr Hcompat]].
  assert (Hdepth : forall t p r, entry_at t (p ++ r) = Some EDir ->
                                 height t <= fuel -> List.length r < fuel).
  { intros t p r H Hh. apply height_lookup in H.
    rewrite List.length_app in H. lia. }
  destruct (propagate_visit source replica plain_source plain_replica
              roots_apart fuel [] st) as [st1 [Hrun1 [Hw1 [P1 P2]]]].
  { split; [exact Hw|]. split; [constructor|].
    rewrite !app_nil_r. split; [exact Hs|].
    split; [left; now rewrite app_nil_r|].
    split; [|exact Hcompat].
    intros r H. exact (Hdepth _ _ _ H Hfuel). }
  rewrite app_nil_r in P1. simpl in P2.
  destruct (prune_visit source replica plain_source plain_replica
              roots_apart fuel [] st1) as [st2 [Hrun2 [Hw2 [Q1 [Q2 Q3]]]]].
  { split; [exact Hw1|]. split; [constructor|]. rewrite !app_nil_r.
    split.
    - rewrite <- (app_nil_r R), P2, !app_nil_r, Hs. reflexivity.
    - intros r H. simpl in H. rewrite P2 in H.
      apply merge_dir in H as [H|H]; exact (Hdepth _ _ _ H Hfuel). }
  rewrite app_nil_r in Q1, Q2. simpl in Q3.
  exists st1, st2. split; [exact Hrun1|]. split; [exact Hrun2|].
  split; [exact Hw2|]. split; [|split; [exact P2|split; [exact Q2|]]].
  - intros p Hp. rewrite Q1, P1 by exact Hp. now split.
  - intros x r. rewrite Q3, P2, P1; [reflexivity|].
    rewrite <- (app_nil_r R). apply (source_outside _ _ roots_apart).
Qed.

End Pass.


(** ** A pass over a replica that is up to date *)

Lemma for_each_noop {A} (xs : list A) (body : A -> M unit) (st : state) :
  (forall x, In x xs -> body x st = (Done tt, st)) ->
  for_each xs body st = (Done tt, st).
Proof.
  induction xs as [|x xs IH]; intros H; [reflexivity|].
  rewrite for_each_cons, (bind_done _ _ _ _ _ (H x (or_introl eq_refl))).
  apply IH. intros y Hy. apply H. now right.
Qed.

Section Settled.

Variables source replica : string.
Hypothesis plain_source : plain source = true.
Hypothesis plain_replica : plain replica = true.

Local Abbreviation S := (parse source).
Local Abbreviation R := (parse replica).

Lemma settled_dir (st : state) (q : list string) :
  settled S R st ->
  (view st (S ++ q) = Some EDir <-> view st (R ++ q) = Some EDir).
Proof.
  intros H. specialize (H q).
  destruct (view st (S ++ q)) as [[? ?|]|], (view st (R ++ q)) as [[? ?|]|];
    simpl in H; try contradiction; split; congruence.
Qed.

Lemma settled_file (st : state) (q : list string) (m : Z) (d : string) :
  settled S R st -> view st (S ++ q) = Some (EFile m d) ->
  exists m' d', view st (R ++ q) = Some (EFile m' d') /\ (m <= m')%Z.
Proof.
  intros H Hs. specialize (H q). rewrite Hs in H.
  destruct (view st (R ++ q)) as [[m' d'|]|]; simpl in H; try contradiction.
  eauto.
Qed.

Lemma settled_source (st : state) (q : list string) :
  settled S R st -> view st (R ++ q) <> None -> view st (S ++ q) <> None.
Proof.
  intros H Hr. specialize (H q).
  destruct (view st (S ++ q)) as [[? ?|]|], (view st (R ++ q)) as [[? ?|]|];
    simpl in H; try contradiction; congruence.
Qed.

Lemma propagate_settled (k : nat) (q : list string) (st : state) :
  wf (fs st) = true -> Forall (fun x => proper x = true) q ->
  settled S R st -> view st (S ++ q) = Some EDir ->
  (forall r, view st (S ++ q ++ r) = Some EDir -> List.length r < k) ->
  os_walk_topdown k (walked source q) (propagate_body source replica) st
  = (Done tt, st).
Proof.
  revert q. induction k as [|k IHk]; intros q Hw Hq Hset Hsrc Hdepth.
  - specialize (Hdepth []). rewrite app_nil_r in Hdepth.
    apply Hdepth in Hsrc. simpl in Hsrc. lia.
  - pose proof (resolve_walked source q plain_source Hq) as Rs.
    pose proof (resolve_walked replica q plain_replica Hq) as Rr.
    destruct (listing_spec _ _ st Rs Hw Hsrc)
      as [dirs [files [Hl [_ [_ [Sd [Sf Spr]]]]]]].
    assert (Hbody : propagate_body source replica (walked source q)
                      dirs files st = (Done tt, st)).
    { unfold propagate_body.
      rewrite (replace1_walked _ _ _ plain_source plain_replica Hq).
      rewrite (bind_done _ _ _ _ _ (os_path_exists_spec _ _ st Rr)).
      rewrite (proj1 (settled_dir st q Hset) Hsrc). cbn [negb when].
      rewrite (bind_done _ _ _ _ _ (eq_refl : ret tt st = (Done tt, st))).
      apply for_each_noop. intros f Hf.
      assert (Hpf : proper f = true) by (apply Spr; now right).
      apply Sf in Hf as [m [d Hf]]. rewrite <- app_assoc in Hf.
      destruct (settled_file st _ m d Hset Hf) as [m' [d' [Hr Hle]]].
      assert (Es : resolve (join (walked source q) f) = Some (S ++ q ++ [f])).
      { rewrite resolve_join, parse_walked by auto. now rewrite <- app_assoc. }
      assert (Er : resolve (join (walked replica q) f) = Some (R ++ q ++ [f])).
      { rewrite resolve_join, parse_walked by auto. now rewrite <- app_assoc. }
      unfold propagate_file.
      rewrite (bind_done _ _ _ _ _ (os_path_exists_spec _ _ st Er)), Hr.
      cbn [negb].
      rewrite (bind_done _ _ _ _ _ (os_path_getmtime_file _ _ st m d Es Hf)).
      rewrite (bind_done _ _ _ _ _ (os_path_getmtime_file _ _ st m' d' Er Hr)).
      assert (E : (m >? m')%Z = false) by (rewrite Z.gtb_ltb; apply Z.ltb_ge; lia).
      now rewrite E. }
    cbn [os_walk_topdown]. rewrite Hl, (bind_done _ _ _ _ _ Hbody).
    apply for_each_noop. intros d Hd. rewrite <- walked_snoc.
    assert (Hpd : proper d = true) by (apply Spr; now left).
    apply Sd in Hd. rewrite <- app_assoc in Hd. apply IHk; auto.
    + apply Forall_app. split; [exact Hq | now constructor].
    + intros r Hr. rewrite snoc_app in Hr. apply Hdepth in Hr.
      simpl in Hr. lia.
Qed.

Lemma prune_settled (k : nat) (q : list string) (st : state) :
  wf (fs st) = true -> Forall (fun x => proper x = true) q ->
  settled S R st -> view st (R ++ q) = Some EDir ->
  (forall r, view st (R ++ q ++ r) = Some EDir -> List.length r < k) ->
  os_walk_bottomup k (walked replica q) (prune_body source replica) st
  = (Done tt, st).
Proof.
  revert q. induction k as [|k IHk]; intros q Hw Hq Hset Hrep Hdepth.
  - specialize (Hdepth []). rewrite app_nil_r in Hdepth.
    apply Hdepth in Hrep. simpl in Hrep. lia.
  - pose proof (resolve_walked replica q plain_replica Hq) as Rr.
    destruct (listing_spec _ _ st Rr Hw Hrep)
      as [dirs [files [Hl [_ [_ [Sd [Sf Spr]]]]]]].
    cbn [os_walk_bottomup]. rewrite Hl.
    assert (Hquiet : forall x, proper x = true ->
               view st (R ++ q ++ [x]) <> None ->
               os_path_exists (join (walked source q) x) st = (Done true, st)).
    { intros x Hx Hv.
      assert (Es : resolve (join (walked source q) x) = Some (S ++ q ++ [x])).
      { rewrite resolve_join, parse_walked by auto. now rewrite <- app_assoc. }
      rewrite (os_path_exists_spec _ _ st Es).
      pose proof (settled_source st _ Hset Hv) as Hsv.
      now destruct (view st (S ++ q ++ [x])). }
    rewrite (bind_done _ _ st st tt).
    + unfold prune_body.
      rewrite (replace1_walked _ _ _ plain_replica plain_source Hq).
      rewrite (bind_done _ _ st st tt).
      * apply for_each_noop. intros d Hd.
        assert (Hpd : proper d = true) by (apply Spr; now left).
        apply Sd in Hd. rewrite <- app_assoc in Hd. unfold prune_dir.
        rewrite (bind_done _ _ _ _ _ (Hquiet d Hpd ltac:(congruence))).
        reflexivity.
      * apply for_each_noop. intros f Hf.
        assert (Hpf : proper f = true) by (apply Spr; now right).
        apply Sf in Hf as [m [d Hf]]. rewrite <- app_assoc in Hf.
        unfold prune_file.
        rewrite (bind_done _ _ _ _ _ (Hquiet f Hpf ltac:(congruence))).
        reflexivity.
    + apply for_each_noop. intros d Hd. rewrite <- walked_snoc.
      assert (Hpd : proper d = true) by (apply Spr; now left).
      apply Sd in Hd. rewrite <- app_assoc in Hd. apply IHk; auto.
      * apply Forall_app. split; [exact Hq | now constructor].
      * intros r Hr. rewrite snoc_app in Hr. apply Hdepth in Hr.
        simpl in Hr. lia.
Qed.

(** A pass over a replica that is up to date does nothing: no action, no
    change of the tree. *)
Lemma sync_pass_settled (fuel : nat) (st : state) :
  wf (fs st) = true -> settled S R st -> view st S = Some EDir ->
  (forall r, view st (S ++ r) = Some EDir -> List.length r < fuel) ->
  sync_pass fuel source replica st = (Done tt, st).
Proof.
  intros Hw Hset Hs Hdepth.
  assert (Hr : view st R = Some EDir).
  { rewrite <- (app_nil_r R). apply (settled_dir st [] Hset).
    now rewrite app_nil_r. }
  unfold sync_pass, propagate, prune.
  rewrite (bind_done _ _ st st tt).
  - apply (prune_settled fuel [] st); auto.
    + now rewrite app_nil_r.
    + intros r H. apply Hdepth. now apply (settled_dir st r Hset).
  - apply (propagate_settled fuel [] st); auto.
    now rewrite app_nil_r.
Qed.

End Settled.

Lemma settled_after_pass (s r : option entry) :
  settled_at s (keep_if s (merge s r)).
Proof.
  destruct s as [[m d|]|]; simpl; auto.
  destruct r as [[m' d'|]|]; simpl; try lia.
  destruct (m >? m')%Z eqn:E; simpl; [lia|].
  rewrite Z.gtb_ltb, Z.ltb_ge in E. exact E.
Qed.


(** ** Invariants of a run *)

Section Tracked.

Variable base : list event.
Variable J : state -> list event -> Prop.

Lemma tracked_ret {A} (a : A) : tracked base J (ret a).
Proof. intros st l o st' Ho HJ [= <- <-]. now exists l. Qed.

Lemma tracked_bind {A B} (m : M A) (k : A -> M B) :
  tracked base J m -> (forall a, tracked base J (k a)) ->
  tracked base J (bind m k).
Proof.
  intros Hm Hk st l o st' Ho HJ Hrun. unfold bind in Hrun.
  destruct (m st) as [[a|e|] st1] eqn:Em.
  - destruct (Hm _ _ _ _ Ho HJ Em) as [l1 [Ho1 HJ1]].
    exact (Hk a _ _ _ _ Ho1 HJ1 Hrun).
  - injection Hrun as <- <-. exact (Hm _ _ _ _ Ho HJ Em).
  - injection Hrun as <- <-. exact (Hm _ _ _ _ Ho HJ Em).
Qed.

Lemma tracked_for_each {A} (xs : list A) (body : A -> M unit) :
  (forall x, In x xs -> tracked base J (body x)) ->
  tracked base J (for_each xs body).
Proof.
  induction xs as [|x xs IH]; intros Hb.
  - apply tracked_ret.
  - rewrite for_each_cons. apply tracked_bind.
    + apply Hb. now left.
    + intros _. apply IH. intros y Hy. apply Hb. now right.
Qed.

Lemma tracked_when (b : bool) (m : M unit) :
  tracked base J m -> tracked base J (when b m).
Proof. destruct b; [auto | intros _; apply tracked_ret]. Qed.

(** A call that leaves the state as it is. *)
Lemma tracked_read {A} (m : M A) :
  (forall st, snd (m st) = st) -> tracked base J m.
Proof.
  intros H st l o st' Ho HJ Hrun. pose proof (H st) as E.
  rewrite Hrun in E. simpl in E. subst st'. now exists l.
Qed.

(** The walks keep what their bodies keep.  [Good] is what is known of the
    paths walked; the body is run on the listing of a state that satisfies
    the invariant. *)
Variable Good : string -> Prop.
Variable body : string -> list string -> list string -> M unit.

Hypothesis body_tracked :
  forall root dirs files st l,
    Good root -> J st l -> listing root (fs st) = Ok (dirs, files) ->
    tracked base J (body root dirs files).

Hypothesis good_child :
  forall root dirs files st l d,
    Good root -> J st l -> listing root (fs st) = Ok (dirs, files) ->
    In d dirs -> Good (join root d).

Lemma tracked_walk_topdown (fuel : nat) (top : string) :
  Good top -> tracked base J (os_walk_topdown fuel top body).
Proof.
  revert top. induction fuel as [|fuel IH]; intros top Hg st l o st' Ho HJ Hrun.
  - injection Hrun as <- <-. now exists l.
  - cbn [os_walk_topdown] in Hrun.
    destruct (listing top (fs st)) as [[dirs files]|e] eqn:El.
    + refine (tracked_bind _ _ _ _ st l o st' Ho HJ Hrun).
      * exact (body_tracked _ _ _ _ _ Hg HJ El).
      * intros _. apply tracked_for_each. intros d Hd. apply IH.
        exact (good_child _ _ _ _ _ _ Hg HJ El Hd).
    + injection Hrun as <- <-. now exists l.
Qed.

Lemma tracked_walk_bottomup (fuel : nat) (top : string) :
  Good top -> tracked base J (os_walk_bottomup fuel top body).
Proof.
  revert top. induction fuel as [|fuel IH]; intros top Hg st l o st' Ho HJ Hrun.
  - injection Hrun as <- <-. now exists l.
  - cbn [os_walk_bottomup] in Hrun.
    destruct (listing top (fs st)) as [[dirs files]|e] eqn:El.
    + refine (tracked_bind _ _ _ _ st l o st' Ho HJ Hrun).
      * apply tracked_for_each. intros d Hd. apply IH.
        exact (good_child _ _ _ _ _ _ Hg HJ El Hd).
      * intros _. exact (body_tracked _ _ _ _ _ Hg HJ El).
    + injection Hrun as <- <-. now exists l.
Qed.

End Tracked.


(** ** What is created stays, what is deleted stays away *)

Lemma change_inv (op : Z -> list string -> node -> result node)
    (path : string) (st : state) (o : outcome unit) (st' : state) :
  change op path st = (o, st') ->
  (exists e, o = Failed e /\ st' = st) \/
  (o = Done tt /\ clock st' = clock st /\ out st' = out st /\
   exists p, resolve path = Some p /\ op (clock st) p (fs st) = Ok (fs st')).
Proof.
  unfold change. destruct (resolve path) as [p|].
  - destruct (op (clock st) p (fs st)) as [t|e] eqn:E.
    + intros [= <- <-]. right. repeat split. now exists p.
    + intros [= <- <-]. left. now exists e.
  - intros [= <- <-]. left. now eexists.
Qed.

Lemma mkdir_grows (now : Z) (p : list string) (n n' : node) :
  mkdir now p n = Ok n' ->
  entry_at n' p <> None /\
  forall q, entry_at n q <> None -> entry_at n' q <> None.
Proof.
  intros H. unfold mkdir in H.
  destruct (alter_lookup_under _ _ _ _ _ H) as [new [Hf _]].
  destruct (lookup p n) eqn:El; [discriminate|]. injection Hf as <-.
  pose proof (alter_entry _ _ _ _ _ (Some (Dir now [])) H) as He.
  rewrite El in He. specialize (He eq_refl). split.
  - rewrite He, prefixb_refl, skipn_all. discriminate.
  - intros q Hq. rewrite He. destruct (prefixb p q) eqn:E; [|exact Hq].
    apply prefixb_spec in E as [r ->]. elim Hq.
    apply entry_at_none_under. unfold entry_at. now rewrite El.
Qed.

Lemma write_file_grows (now m : Z) (d : string) (p : list string)
    (n n' : node) :
  write_file now m d p n = Ok n' ->
  entry_at n' p <> None /\
  forall q, entry_at n q <> None -> entry_at n' q <> None.
Proof.
  intros H. unfold write_file in H.
  destruct (alter_lookup_under _ _ _ _ _ H) as [new [Hf _]].
  pose proof (alter_entry _ _ _ _ _ new H) as He.
  assert (Hnew : new = Some (File m d) /\ entry_at n p <> Some EDir).
  { unfold entry_at. destruct (lookup p n) as [[? ?|? ?]|];
      try discriminate; injection Hf as <-; split; simpl; congruence. }
  destruct Hnew as [-> Hnd]. specialize (He Hf). split.
  - rewrite He, prefixb_refl, skipn_all. discriminate.
  - intros q Hq. rewrite He. destruct (prefixb p q) eqn:E; [|exact Hq].
    apply prefixb_spec in E as [r ->]. rewrite skipn_length_app.
    destruct r as [|y r]; [discriminate|]. elim Hq.
    destruct (entry_at n p) as [[m' d'|]|] eqn:Ep.
    + now apply (entry_at_file_under _ _ _ m' d').
    + now elim Hnd.
    + now apply entry_at_none_under.
Qed.

Lemma makedirs_from_grows (now : Z) (todo done : list string)
    (n n' : node) :
  makedirs_from now done todo n = Ok n' ->
  entry_at n' (done ++ todo) <> None /\
  forall q, entry_at n q <> None -> entry_at n' q <> None.
Proof.
  revert done n. induction todo as [|y todo IH]; intros done n H;
    [discriminate|].
  destruct todo as [|z rest].
  - cbn [makedirs_from] in H. exact (mkdir_grows _ _ _ _ H).
  - cbn [makedirs_from] in H.
    change (y :: z :: rest) with ([y] ++ z :: rest). rewrite app_assoc.
    destruct (lookup (done ++ [y]) n).
    + exact (IH _ _ H).
    + destruct (mkdir now (done ++ [y]) n) as [n1|] eqn:E; [|discriminate].
      destruct (mkdir_grows _ _ _ _ E) as [_ G1].
      destruct (IH _ _ H) as [G2 G3]. split; auto.
Qed.

Lemma shrinks (now : Z) (f : option node -> result (option node))
    (p : list string) (n n' : node) :
  (forall old new, f old = Ok new -> old <> None /\ new = None) ->
  alter now f p n = Ok n' ->
  entry_at n p <> None /\ entry_at n' p = None /\
  forall q, entry_at n q = None -> entry_at n' q = None.
Proof.
  intros Hf H.
  destruct (alter_lookup_under _ _ _ _ _ H) as [new [Hnew _]].
  pose proof (alter_entry _ _ _ _ _ _ H Hnew) as He.
  destruct (Hf _ _ Hnew) as [Hold ->]. split; [|split].
  - unfold entry_at. now destruct (lookup p n).
  - now rewrite He, prefixb_refl.
  - intros q Hq. rewrite He. now destruct (prefixb p q).
Qed.

Lemma remove_shrinks (now : Z) (p : list string) (n n' : node) :
  remove now p n = Ok n' ->
  entry_at n p <> None /\ entry_at n' p = None /\
  forall q, entry_at n q = None -> entry_at n' q = None.
Proof.
  apply shrinks. intros [[? ?|? ?]|] new; try discriminate.
  intros [= <-]. split; [discriminate | reflexivity].
Qed.

Lemma rmtree_shrinks (now : Z) (p : list string) (n n' : node) :
  rmtree now p n = Ok n' ->
  entry_at n p <> None /\ entry_at n' p = None /\
  forall q, entry_at n q = None -> entry_at n' q = None.
Proof.
  apply shrinks. intros [[? ?|? ?]|] new; try discriminate.
  intros [= <-]. split; [discriminate | reflexivity].
Qed.

(** *** Appending to an ordered list of actions *)

Lemma split_snoc {A} (l l1 l2 l3 : list A) (a b b' : A) :
  l ++ [b] = l1 ++ a :: l2 ++ b' :: l3 ->
  (l3 = [] /\ b' = b /\ l = l1 ++ a :: l2) \/
  (exists l3', l3 = l3' ++ [b] /\ l = l1 ++ a :: l2 ++ b' :: l3').
Proof.
  intros E. destruct l3 as [|z l3] using rev_ind.
  - left. change (a :: l2 ++ [b']) with ((a :: l2) ++ [b']) in E.
    rewrite app_assoc in E. apply app_inj_tail in E as [-> ->]. auto.
  - right. clear IHl3. exists l3.
    assert (E' : l ++ [b] = (l1 ++ a :: l2 ++ b' :: l3) ++ [z]).
    { rewrite E. repeat (rewrite <- app_assoc; simpl). reflexivity. }
    apply app_inj_tail in E' as [-> ->]. auto.
Qed.

Lemma parents_first_snoc (l : list event) (b : event) :
  parents_first l ->
  (creates_dir b = true ->
   forall a, In a l -> creation a = true ->
             strictly_under (loc a) (loc b) = false) ->
  parents_first (l ++ [b]).
Proof.
  intros Hl Hb l1 a l2 b' l3 E Ha Hb'.
  apply split_snoc in E as [[-> [-> ->]] | [l3' [-> ->]]].
  - apply Hb; auto. apply in_or_app. right. now left.
  - exact (Hl _ _ _ _ _ eq_refl Ha Hb').
Qed.

Lemma children_first_snoc (l : list event) (b : event) :
  children_first l ->
  (deletion b = true ->
   forall a, In a l -> deletes_dir a = true ->
             strictly_under (loc b) (loc a) = false) ->
  children_first (l ++ [b]).
Proof.
  intros Hl Hb l1 a l2 b' l3 E Ha Hb'.
  apply split_snoc in E as [[-> [-> ->]] | [l3' [-> ->]]].
  - apply Hb; auto. apply in_or_app. right. now left.
  - exact (Hl _ _ _ _ _ eq_refl Ha Hb').
Qed.

(** A path under one that is there runs through directories that are
    there. *)
Lemma above_exists (t : node) (p d : list string) :
  entry_at t p <> None -> strictly_under p d = true -> entry_at t d <> None.
Proof.
  unfold strictly_under. intros Hp H. apply andb_prop in H as [H _].
  apply prefixb_spec in H as [r ->]. intros E.
  apply Hp. now apply entry_at_none_under.
Qed.

(** *** The calls that change the tree, whatever their outcome *)

Lemma resolve_parse (path : string) (p : list string) :
  resolve path = Some p -> p = parse path.
Proof. unfold resolve. destruct (path =? ""); congruence. Qed.

Lemma os_makedirs_run (path : string) (st : state) (o : outcome unit)
    (st' : state) :
  os_makedirs path st = (o, st') ->
  (exists e, o = Failed e /\ st' = st) \/
  (o = Done tt /\ out st' = out st /\ resolve path = Some (parse path) /\
   view st' (parse path) <> None /\
   forall q, view st q <> None -> view st' q <> None).
Proof.
  intros H. apply change_inv in H as [H | [-> [_ [Ho [p [Hr Hop]]]]]]; [now left|].
  right. pose proof (resolve_parse _ _ Hr) as ->.
  destruct (makedirs_from_grows _ _ _ _ _ Hop) as [G1 G2]. auto.
Qed.

Lemma shutil_copy2_run (src dst : string) (st : state) (o : outcome unit)
    (st' : state) :
  shutil_copy2 src dst st = (o, st') ->
  (exists e, o = Failed e /\ st' = st) \/
  (o = Done tt /\ out st' = out st /\
   view st' (parse dst) <> None /\
   forall q, view st q <> None -> view st' q <> None).
Proof.
  unfold shutil_copy2, bind, os_path_isdir, copyfile_stat.
  destruct (samefile src _ (fs st)); [intros [= <- <-]; left; eauto|].
  destruct (stat src (fs st)) as [[m d|? ?]|];
    [|intros [= <- <-]; left; eauto..].
  intros H. apply change_inv in H as [H | [-> [_ [Ho [p [Hr Hop]]]]]]; [now left|].
  right. destruct (write_file_grows _ _ _ _ _ _ Hop) as [G1 G2].
  split; [reflexivity|]. split; [exact Ho|]. split; [|exact G2].
  unfold stat in Hr. destruct (resolve dst) as [pd|] eqn:Ed.
  - pose proof (resolve_parse _ _ Ed) as ->.
    destruct (lookup (parse dst) (fs st)) as [[? ?|? ?]|] eqn:El; simpl in Hr.
    + rewrite Ed in Hr. injection Hr as <-. exact G1.
    + apply G2. unfold view, entry_at. now rewrite El.
    + rewrite Ed in Hr. injection Hr as <-. exact G1.
  - simpl in Hr. now rewrite Ed in Hr.
Qed.

Lemma os_remove_run (path : string) (st : state) (o : outcome unit)
    (st' : state) :
  os_remove path st = (o, st') ->
  (exists e, o = Failed e /\ st' = st) \/
  (o = Done tt /\ out st' = out st /\
   view st (parse path) <> None /\ view st' (parse path) = None /\
   forall q, view st q = None -> view st' q = None).
Proof.
  intros H. apply change_inv in H as [H | [-> [_ [Ho [p [Hr Hop]]]]]]; [now left|].
  right. pose proof (resolve_parse _ _ Hr) as ->.
  destruct (remove_shrinks _ _ _ _ Hop) as [G1 [G2 G3]]. auto.
Qed.

Lemma shutil_rmtree_run (path : string) (st : state) (o : outcome unit)
    (st' : state) :
  shutil_rmtree path st = (o, st') ->
  (exists e, o = Failed e /\ st' = st) \/
  (o = Done tt /\ out st' = out st /\
   view st (parse path) <> None /\ view st' (parse path) = None /\
   forall q, view st q = None -> view st' q = None).
Proof.
  intros H. apply change_inv in H as [H | [-> [_ [Ho [p [Hr Hop]]]]]]; [now left|].
  right. pose proof (resolve_parse _ _ Hr) as ->.
  destruct (rmtree_shrinks _ _ _ _ Hop) as [G1 [G2 G3]]. auto.
Qed.

(** *** The first loop keeps [creating] *)

Section Ordering.

Variable base : list event.

Lemma read_exists (path : string) (J : state -> list event -> Prop) :
  tracked base J (os_path_exists path).
Proof. now apply tracked_read. Qed.

Lemma read_getmtime (path : string) (J : state -> list event -> Prop) :
  tracked base J (os_path_getmtime path).
Proof.
  apply tracked_read. intros st. unfold os_path_getmtime.
  now destruct (stat path (fs st)) as [[? ?|? ?]|].
Qed.

Lemma creating_snoc (st st' : state) (l : list event) (b : event) :
  creating st l ->
  creation b = true -> deletion b = false ->
  (forall q, view st q <> None -> view st' q <> None) ->
  view st' (loc b) <> None ->
  (creates_dir b = true -> view st (loc b) = None) ->
  creating st' (l ++ [b]).
Proof.
  intros [Hpf [Hnd Hex]] Hc Hd Hgrow Hb Hfresh. split; [|split].
  - apply parents_first_snoc; [exact Hpf|]. intros Hcd a Ha Hca.
    destruct (strictly_under (loc a) (loc b)) eqn:E; [|reflexivity].
    elim (above_exists _ _ _ (Hex a Ha Hca) E). now apply Hfresh.
  - apply Forall_app. split; [exact Hnd | now constructor].
  - intros a Ha Hca. apply in_app_or in Ha as [Ha|[<-|[]]]; [|exact Hb].
    apply Hgrow. now apply Hex.
Qed.

Lemma enter_creating (replica_path : string) :
  tracked base creating
    (present <- os_path_exists replica_path ;;
     when (negb present)
       (os_makedirs replica_path ;; report CreatedDir replica_path)).
Proof.
  intros st l o st' Ho HJ Hrun. unfold bind, os_path_exists in Hrun.
  destruct (stat replica_path (fs st)) eqn:Es; cbn [negb when] in Hrun.
  - injection Hrun as <- <-. now exists l.
  - destruct (os_makedirs replica_path st) as [[[]|e|] st1] eqn:Em;
      apply os_makedirs_run in Em as [[e' [E ->]] | [E [Ho1 [Hr [Hv Hg]]]]];
      try discriminate; try (injection Hrun as <- <-; now exists l).
    rewrite report_spec in Hrun. injection Hrun as <- <-.
    exists (l ++ [Action CreatedDir replica_path]). cbn [out].
    split; [now rewrite Ho1, Ho, app_assoc|].
    apply (creating_snoc st); auto.
    intros _. unfold stat in Es. rewrite Hr in Es.
    unfold view, entry_at. simpl. now rewrite Es.
Qed.

Lemma copy_creating (k : action_kind) (src dst : string) :
  k = CreatedFile \/ k = UpdatedFile ->
  tracked base creating (shutil_copy2 src dst ;; report k dst).
Proof.
  intros Hk st l o st' Ho HJ Hrun. unfold bind in Hrun.
  destruct (shutil_copy2 src dst st) as [[[]|e|] st1] eqn:Ec;
    apply shutil_copy2_run in Ec as [[e' [E ->]] | [E [Ho1 [Hv Hg]]]];
    try discriminate; try (injection Hrun as <- <-; now exists l).
  rewrite report_spec in Hrun. injection Hrun as <- <-.
  exists (l ++ [Action k dst]). cbn [out].
  split; [now rewrite Ho1, Ho, app_assoc|].
  apply (creating_snoc st); auto.
  - now destruct Hk as [-> | ->].
  - now destruct Hk as [-> | ->].
  - destruct Hk as [-> | ->]; discriminate.
Qed.

Lemma propagate_file_creating (root replica_path file : string) :
  tracked base creating (propagate_file root replica_path file).
Proof.
  unfold propagate_file. apply tracked_bind; [apply read_exists|].
  intros present. destruct (negb present).
  - apply copy_creating. now left.
  - apply tracked_bind; [apply read_getmtime|]. intros ms.
    apply tracked_bind; [apply read_getmtime|]. intros mr.
    destruct (ms >? mr)%Z; [|apply tracked_ret].
    apply copy_creating. now right.
Qed.

Lemma propagate_creating (fuel : nat) (source replica : string) :
  tracked base creating (propagate fuel source replica).
Proof.
  unfold propagate.
  apply (tracked_walk_topdown base creating (fun _ => True)); auto.
  intros root dirs files st l _ _ _. unfold propagate_body.
  pose proof (enter_creating (replace1 source replica root)) as He.
  intros st1 l1 o st' Ho HJ Hrun. unfold bind in *.
  destruct (os_path_exists (replace1 source replica root) st1)
    as [[present|e|] sta] eqn:Ee.
  - destruct (when (negb present) _ sta) as [[[]|e|] stb] eqn:Ew.
    + destruct (He st1 l1 (Done tt) stb Ho HJ) as [l2 [Ho2 HJ2]];
        [now rewrite Ee|].
      refine (tracked_for_each base creating _ _ _ stb l2 o st' Ho2 HJ2 Hrun).
      intros f _. apply propagate_file_creating.
    + injection Hrun as <- <-.
      apply (He st1 l1 (Failed e) stb Ho HJ). now rewrite Ee.
    + injection Hrun as <- <-.
      apply (He st1 l1 OutOfFuel stb Ho HJ). now rewrite Ee.
  - injection Hrun as <- <-. unfold os_path_exists in Ee. discriminate.
  - injection Hrun as <- <-. unfold os_path_exists in Ee. discriminate.
Qed.

(** *** The second loop keeps [deleting] *)

Lemma deleting_snoc (st st' : state) (l : list event) (b : event) :
  deleting st l ->
  deletion b = true -> creates_dir b = false ->
  (forall q, view st q = None -> view st' q = None) ->
  view st (loc b) <> None ->
  view st' (loc b) = None ->
  deleting st' (l ++ [b]).
Proof.
  intros [Hpf [Hcf Hgone]] Hd Hc Hshrink Hwas Hnow. split; [|split].
  - apply parents_first_snoc; [exact Hpf|]. congruence.
  - apply children_first_snoc; [exact Hcf|]. intros _ a Ha Hda.
    destruct (strictly_under (loc b) (loc a)) eqn:E; [|reflexivity].
    elim (above_exists _ _ _ Hwas E). now apply Hgone.
  - intros a Ha Hda. apply in_app_or in Ha as [Ha|[<-|[]]]; [|exact Hnow].
    apply Hshrink. now apply Hgone.
Qed.

Lemma prune_file_deleting (root source_path file : string) :
  tracked base deleting (prune_file root source_path file).
Proof.
  unfold prune_file. apply tracked_bind; [apply read_exists|].
  intros present. apply tracked_when.
  intros st l o st' Ho HJ Hrun. unfold bind in Hrun.
  destruct (os_remove (join root file) st) as [[[]|e|] st1] eqn:Ec;
    apply os_remove_run in Ec as [[e' [E ->]] | [E [Ho1 [Hv [Hv' Hg]]]]];
    try discriminate; try (injection Hrun as <- <-; now exists l).
  rewrite report_spec in Hrun. injection Hrun as <- <-.
  exists (l ++ [Action DeletedFile (join root file)]). cbn [out].
  split; [now rewrite Ho1, Ho, app_assoc|].
  apply (deleting_snoc st); auto.
Qed.

Lemma prune_dir_deleting (root source_path directory : string) :
  tracked base deleting (prune_dir root source_path directory).
Proof.
  unfold prune_dir. apply tracked_bind; [apply read_exists|].
  intros present. apply tracked_when.
  intros st l o st' Ho HJ Hrun. unfold bind in Hrun.
  destruct (shutil_rmtree (join root directory) st) as [[[]|e|] st1] eqn:Ec;
    apply shutil_rmtree_run in Ec as [[e' [E ->]] | [E [Ho1 [Hv [Hv' Hg]]]]];
    try discriminate; try (injection Hrun as <- <-; now exists l).
  rewrite report_spec in Hrun. injection Hrun as <- <-.
  exists (l ++ [Action DeletedDir (join root directory)]). cbn [out].
  split; [now rewrite Ho1, Ho, app_assoc|].
  apply (deleting_snoc st); auto.
Qed.

Lemma prune_deleting (fuel : nat) (source replica : string) :
  tracked base deleting (prune fuel source replica).
Proof.
  unfold prune.
  apply (tracked_walk_bottomup base deleting (fun _ => True)); auto.
  intros root dirs files st l _ _ _. unfold prune_body.
  apply tracked_bind.
  - apply tracked_for_each. intros f _. apply prune_file_deleting.
  - intros _. apply tracked_for_each. intros d _. apply prune_dir_deleting.
Qed.

Lemma creating_deleting (st : state) (l : list event) :
  creating st l -> deleting st l.
Proof.
  intros [Hpf [Hnd _]].
  assert (Hno : forall a, In a l -> deletes_dir a = true -> False).
  { intros a Ha Hd. rewrite Forall_forall in Hnd. specialize (Hnd a Ha).
    destruct a as [[] ?|]; discriminate. }
  split; [exact Hpf|]. split.
  - intros l1 a l2 b l3 -> Ha _. exfalso. apply (Hno a); [|exact Ha].
    apply in_or_app. right. now left.
  - intros a Ha Hd. now elim (Hno a).
Qed.

End Ordering.


(** ** The source during a pass *)

Section TailFacts.

Open Scope string_scope.

Lemma tail_of_snoc (q : list string) (x : string) :
  tail_of (q ++ [x]) = tail_of q ++ "/" ++ x.
Proof. unfold tail_of. now rewrite fold_left_app. Qed.

Lemma walked_plain (top : string) (q : list string) :
  plain top = true -> Forall (fun x => proper x = true) q ->
  walked top q = top ++ tail_of q.
Proof.
  intros Ht. induction q as [|x q IH] using rev_ind; intros H.
  - unfold walked, tail_of. simpl. now rewrite append_nil_r.
  - apply Forall_app in H as [Hq Hx]. inversion Hx as [|? ? Hpx _]; subst.
    rewrite walked_snoc, tail_of_snoc.
    destruct (plain_join (walked top q) x (plain_walked top q Ht Hq) Hpx)
      as [-> _].
    now rewrite (IH Hq), append_assoc.
Qed.

Lemma parse_tail (a : string) (q : list string) :
  Forall (fun x => proper x = true) q ->
  parse (a ++ tail_of q) = (parse a ++ q)%list.
Proof.
  induction q as [|x q IH] using rev_ind; intros H.
  - unfold tail_of. simpl. now rewrite append_nil_r, app_nil_r.
  - apply Forall_app in H as [Hq Hx]. inversion Hx as [|? ? Hpx _]; subst.
    rewrite tail_of_snoc, <- append_assoc.
    change ((a ++ tail_of q) ++ "/" ++ x)
      with ((a ++ tail_of q) ++ String sep x).
    rewrite parse_append, (IH Hq), (parse_proper x Hpx).
    now rewrite <- app_assoc.
Qed.

Lemma last_snoc {A} (l : list A) (x d : A) : last (l ++ [x])%list d = x.
Proof.
  induction l as [|y l IH]; [reflexivity|]. simpl.
  destruct (l ++ [x])%list eqn:E; [now destruct l | exact IH].
Qed.

Lemma basename_append (a x : string) :
  sep_free x = true -> basename (a ++ String sep x) = x.
Proof.
  intros H. unfold basename.
  rewrite split_sep_append, (split_sep_free x H). apply last_snoc.
Qed.

Lemma basename_join (a x : string) :
  proper x = true -> basename (join a x) = x.
Proof.
  intros H. pose proof (proper_sep_free _ H) as Hs. unfold join.
  rewrite (proper_not_startswith _ H).
  destruct (a =? "") eqn:Ea; simpl.
  - apply String.eqb_eq in Ea. subst a. simpl. unfold basename.
    now rewrite (split_sep_free x Hs).
  - destruct (endswith_sep a) eqn:Ee.
    + destruct (endswith_sep_inv _ Ee) as [a' ->].
      rewrite append_assoc. simpl. now apply basename_append.
    + now apply basename_append.
Qed.

End TailFacts.

Lemma mkdir_frame (now : Z) (p q : list string) (n n' : node) :
  mkdir now p n = Ok n' -> prefixb q p = false ->
  lookup q n' = lookup q n.
Proof.
  intros H Hq. destruct (prefixb p q) eqn:Epq.
  - apply prefixb_spec in Epq as [r ->]. unfold mkdir in H.
    destruct (alter_lookup_under _ _ _ _ _ H) as [new [Hf Hl]].
    destruct (lookup p n) eqn:El; [discriminate|]. injection Hf as <-.
    rewrite Hl, lookup_app, El.
    destruct r; [now rewrite app_nil_r, prefixb_refl in Hq | reflexivity].
  - apply (alter_lookup_apart _ _ _ _ _ _ H). unfold apart.
    now rewrite Epq, Hq.
Qed.

Lemma makedirs_from_frame (now : Z) (todo done q : list string)
    (n n' : node) :
  makedirs_from now done todo n = Ok n' ->
  prefixb q (done ++ todo) = false ->
  lookup q n' = lookup q n.
Proof.
  revert done n. induction todo as [|y todo IH]; intros done n H Hq;
    [discriminate|].
  assert (Hy : prefixb q (done ++ [y]) = false).
  { destruct (prefixb q (done ++ [y])) eqn:E; [|reflexivity].
    rewrite <- Hq. symmetry. apply (prefixb_trans _ _ _ E).
    change (y :: todo) with ([y] ++ todo). rewrite app_assoc.
    apply prefixb_app. }
  change (y :: todo) with ([y] ++ todo) in Hq. rewrite app_assoc in Hq.
  destruct todo as [|z rest].
  - cbn [makedirs_from] in H. exact (mkdir_frame _ _ _ _ _ H Hy).
  - cbn [makedirs_from] in H. destruct (lookup (done ++ [y]) n).
    + exact (IH _ _ H Hq).
    + destruct (mkdir now (done ++ [y]) n) as [n1|] eqn:E; [|discriminate].
      rewrite (IH _ _ H Hq). exact (mkdir_frame _ _ _ _ _ E Hy).
Qed.

Lemma listing_proper (top : string) (t : node) (dirs files : list string) :
  wf t = true -> listing top t = Ok (dirs, files) ->
  forall x, In x dirs \/ In x files -> proper x = true.
Proof.
  unfold listing, scandir. intros Hw.
  destruct (resolve top) as [p|]; [|discriminate].
  destruct (lookup p t) as [[? ?|m es]|] eqn:El; try discriminate.
  intros [= <- <-] x [H|H];
    exact (names_where_proper _ _ _ _ (wf_lookup _ _ _ Hw El) H).
Qed.

Section Frame.

Variables source replica : string.
Hypothesis plain_source : plain source = true.
Hypothesis roots_apart : apart (parse source) (parse replica) = true.

Variable base : list event.
Variable s0 : option node.

Local Abbreviation S := (parse source).
Local Abbreviation R := (parse replica).
Local Abbreviation J := (kept S s0).

Lemma beside_source (r : list string) : apart (R ++ r) S = true.
Proof.
  rewrite apart_sym, <- (app_nil_r S). now apply apart_app.
Qed.

Lemma not_above_source (r : list string) : prefixb S (R ++ r) = false.
Proof.
  pose proof (beside_source r) as H. unfold apart in H.
  apply andb_prop in H as [_ H]. now apply negb_true_iff.
Qed.

(** A change at a resolved path under the replica root keeps [J]. *)
Lemma change_kept (op : Z -> list string -> node -> result node)
    (path : string) (r : list string) :
  parse path = R ++ r ->
  (forall now p n n', wf n = true ->
     Forall (fun x => proper x = true) p ->
     op now p n = Ok n' -> wf n' = true) ->
  (forall now n n', op now (R ++ r) n = Ok n' -> lookup S n' = lookup S n) ->
  tracked base J (change op path).
Proof.
  intros Hp Hwf Hfr st l o st' Ho [Hw Hs] Hrun.
  apply change_inv in Hrun as [[e [-> ->]] | [-> [_ [Ho' [p [Hr Hop]]]]]].
  - now exists l.
  - exists l. split; [congruence|]. pose proof (resolve_parse _ _ Hr) as ->.
    split.
    + exact (Hwf _ _ _ _ Hw (resolve_proper _ _ Hr) Hop).
    + rewrite Hp in Hop. now rewrite (Hfr _ _ _ Hop).
Qed.

Lemma alter_beside (now : Z) (f : option node -> result (option node))
    (r : list string) (n n' : node) :
  alter now f (R ++ r) n = Ok n' -> lookup S n' = lookup S n.
Proof.
  intros H. apply (alter_lookup_apart _ _ _ _ _ _ H). apply beside_source.
Qed.

Lemma report_kept (k : action_kind) (path : string) :
  tracked base J (report k path).
Proof.
  intros st l o st' Ho HJ [= <- <-].
  exists (l ++ [Action k path]). cbn [out fs].
  split; [now rewrite Ho, app_assoc | exact HJ].
Qed.

Lemma copy2_kept (root replica_path file : string) (r : list string) :
  proper file = true -> parse replica_path = R ++ r ->
  tracked base J
    (shutil_copy2 (join root file) (join replica_path file)).
Proof.
  intros Hf Hp. unfold shutil_copy2.
  apply tracked_bind; [now apply tracked_read|]. intros isd.
  intros st l o st' Ho HJ Hrun. unfold copyfile_stat in Hrun.
  destruct (samefile _ _ (fs st)); [injection Hrun as <- <-; now exists l|].
  destruct (stat (join root file) (fs st)) as [[m d|? ?]|];
    try (injection Hrun as <- <-; now exists l).
  destruct isd.
  - rewrite basename_join in Hrun by exact Hf.
    refine (change_kept _ _ (r ++ [file; file]) _ _ _ st l o st' Ho HJ Hrun).
    + rewrite !parse_join, Hp by exact Hf. now rewrite <- !app_assoc.
    + intros. now apply (write_file_wf now m d p n n').
    + intros now0 n n'. apply alter_beside.
  - refine (change_kept _ _ (r ++ [file]) _ _ _ st l o st' Ho HJ Hrun).
    + rewrite parse_join, Hp by exact Hf. now rewrite <- app_assoc.
    + intros. now apply (write_file_wf now m d p n n').
    + intros now0 n n'. apply alter_beside.
Qed.

Lemma propagate_file_kept (root replica_path file : string)
    (r : list string) :
  proper file = true -> parse replica_path = R ++ r ->
  tracked base J (propagate_file root replica_path file).
Proof.
  intros Hf Hp. unfold propagate_file.
  apply tracked_bind; [apply read_exists|]. intros present.
  destruct (negb present).
  - apply tracked_bind; [now apply (copy2_kept _ _ _ r)|].
    intros _. apply report_kept.
  - apply tracked_bind; [apply read_getmtime|]. intros ms.
    apply tracked_bind; [apply read_getmtime|]. intros mr.
    destruct (ms >? mr)%Z; [|apply tracked_ret].
    apply tracked_bind; [now apply (copy2_kept _ _ _ r)|].
    intros _. apply report_kept.
Qed.

Lemma propagate_kept (fuel : nat) :
  tracked base J (propagate fuel source replica).
Proof.
  unfold propagate.
  apply (tracked_walk_topdown base J (walked_from source)).
  - intros root dirs files st l [q [Hq ->]] [Hw _] Hl.
    pose proof (listing_proper _ _ _ _ Hw Hl) as Hnames.
    unfold propagate_body.
    rewrite (walked_plain _ _ plain_source Hq), replace1_prefix.
    pose proof (parse_tail replica q Hq) as Hp.
    apply tracked_bind; [apply read_exists|]. intros present.
    apply tracked_bind.
    + apply tracked_when. apply tracked_bind; [|intros _; apply report_kept].
      apply (change_kept _ _ q); auto.
      * intros. now apply (makedirs_wf now p n n').
      * intros now0 n n' H. apply (makedirs_from_frame _ _ _ _ _ _ H).
        apply not_above_source.
    + intros _. apply tracked_for_each. intros f Hf.
      apply (propagate_file_kept _ _ _ q); auto.
  - intros root dirs files st l d [q [Hq ->]] [Hw _] Hl Hd.
    exists (q ++ [d]). split.
    + apply Forall_app. split; [exact Hq|]. constructor; [|constructor].
      apply (listing_proper _ _ _ _ Hw Hl). now left.
    + now rewrite walked_snoc.
  - exists []. split; [constructor | reflexivity].
Qed.

Lemma prune_kept (fuel : nat) :
  tracked base J (prune fuel source replica).
Proof.
  unfold prune.
  apply (tracked_walk_bottomup base J (walked_from replica)).
  - intros root dirs files st l [q [Hq ->]] [Hw _] Hl.
    pose proof (listing_proper _ _ _ _ Hw Hl) as Hnames.
    unfold prune_body. apply tracked_bind.
    + apply tracked_for_each. intros f Hf. unfold prune_file.
      apply tracked_bind; [apply read_exists|]. intros present.
      apply tracked_when. apply tracked_bind; [|intros _; apply report_kept].
      apply (change_kept _ _ (q ++ [f])); auto.
      * rewrite parse_join, parse_walked by auto. now rewrite <- app_assoc.
      * intros. now apply (remove_wf now p n n').
      * intros now0 n n'. apply alter_beside.
    + intros _. apply tracked_for_each. intros d Hd. unfold prune_dir.
      apply tracked_bind; [apply read_exists|]. intros present.
      apply tracked_when. apply tracked_bind; [|intros _; apply report_kept].
      apply (change_kept _ _ (q ++ [d])); auto.
      * rewrite parse_join, parse_walked by auto. now rewrite <- app_assoc.
      * intros. now apply (rmtree_wf now p n n').
      * intros now0 n n'. apply alter_beside.
  - intros root dirs files st l d [q [Hq ->]] [Hw _] Hl Hd.
    exists (q ++ [d]). split.
    + apply Forall_app. split; [exact Hq|]. constructor; [|constructor].
      apply (listing_proper _ _ _ _ Hw Hl). now left.
    + now rewrite walked_snoc.
  - exists []. split; [constructor | reflexivity].
Qed.

Lemma sync_pass_kept (fuel : nat) :
  tracked base J (sync_pass fuel source replica).
Proof.
  unfold sync_pass. apply tracked_bind; [apply propagate_kept|].
  intros _. apply prune_kept.
Qed.

End Frame.


(** ** What a pass puts out *)

Section Actions.

Variable base : list event.

Lemma tracked_silent {A} (m : M A) :
  (forall st o st', m st = (o, st') -> out st' = out st) ->
  tracked base only_actions m.
Proof.
  intros H st l o st' Ho HJ Hrun. exists l.
  rewrite (H _ _ _ Hrun). auto.
Qed.

Lemma change_silent (op : Z -> list string -> node -> result node)
    (path : string) :
  tracked base only_actions (change op path).
Proof.
  apply tracked_silent. intros st o st' H.
  apply change_inv in H as [[e [_ ->]] | [_ [_ [Ho _]]]]; auto.
Qed.

Lemma copy2_silent (src dst : string) :
  tracked base only_actions (shutil_copy2 src dst).
Proof.
  apply tracked_silent. intros st o st' H.
  apply shutil_copy2_run in H as [[e [_ ->]] | [_ [Ho _]]]; auto.
Qed.

Lemma report_only_actions (k : action_kind) (path : string) :
  tracked base only_actions (report k path).
Proof.
  intros st l o st' Ho HJ [= <- <-].
  exists (l ++ [Action k path]). cbn [out].
  split; [now rewrite Ho, app_assoc|].
  apply Forall_app. split; [exact HJ|]. constructor; [|constructor].
  now exists k, path.
Qed.

Lemma propagate_only_actions (fuel : nat) (source replica : string) :
  tracked base only_actions (propagate fuel source replica).
Proof.
  unfold propagate.
  apply (tracked_walk_topdown base only_actions (fun _ => True)); auto.
  intros root dirs files st l _ _ _. unfold propagate_body.
  apply tracked_bind; [apply read_exists|]. intros present.
  apply tracked_bind.
  - apply tracked_when. apply tracked_bind; [apply change_silent|].
    intros _. apply report_only_actions.
  - intros _. apply tracked_for_each. intros f _. unfold propagate_file.
    apply tracked_bind; [apply read_exists|]. intros p.
    destruct (negb p).
    + apply tracked_bind; [apply copy2_silent|].
      intros _. apply report_only_actions.
    + apply tracked_bind; [apply read_getmtime|]. intros ms.
      apply tracked_bind; [apply read_getmtime|]. intros mr.
      destruct (ms >? mr)%Z; [|apply tracked_ret].
      apply tracked_bind; [apply copy2_silent|].
      intros _. apply report_only_actions.
Qed.

Lemma prune_only_actions (fuel : nat) (source replica : string) :
  tracked base only_actions (prune fuel source replica).
Proof.
  unfold prune.
  apply (tracked_walk_bottomup base only_actions (fun _ => True)); auto.
  intros root dirs files st l _ _ _. unfold prune_body.
  apply tracked_bind.
  - apply tracked_for_each. intros f _. unfold prune_file.
    apply tracked_bind; [apply read_exists|]. intros p.
    apply tracked_when. apply tracked_bind; [apply change_silent|].
    intros _. apply report_only_actions.
  - intros _. apply tracked_for_each. intros d _. unfold prune_dir.
    apply tracked_bind; [apply read_exists|]. intros p.
    apply tracked_when. apply tracked_bind; [apply change_silent|].
    intros _. apply report_only_actions.
Qed.

Lemma sync_pass_only_actions (fuel : nat) (source replica : string) :
  tracked base only_actions (sync_pass fuel source replica).
Proof.
  unfold sync_pass. apply tracked_bind; [apply propagate_only_actions|].
  intros _. apply prune_only_actions.
Qed.

End Actions.


(** ** Two passes, and the times after the first loop, under plain roots *)





(** ** The order predicates tell a wrong order *)

Lemma parents_first_rejects_late_directory :
  ~ parents_first [Action CreatedFile "r/a/f"; Action CreatedDir "r/a"].
Proof.
  intros H. specialize (H [] _ [] _ [] eq_refl eq_refl eq_refl).
  vm_compute in H. discriminate H.
Qed.

Lemma children_first_rejects_late_file :
  ~ children_first [Action DeletedDir "r/a"; Action DeletedFile "r/a/b.txt"].
Proof.
  intros H. specialize (H [] _ [] _ [] eq_refl eq_refl eq_refl).
  vm_compute in H. discriminate H.
Qed.


(* ================================================================= *)
(** * The properties of a pass *)

(** ** Correspondence *)




(** ** Idempotence *)

(** C2 fails on the code: with the replica root written with a trailing
    separator, the second loop rewrites [r/a] to [sa], finds no [sa/f] and
    removes the file the first loop has just copied; the next pass, with the
    source untouched, copies and removes it again. *)
Theorem trailing_separator_repeats_actions :
  exists st1 st2,
    sync_pass 3 "s" "r/" nested_state = (Done tt, st1) /\
    sync_pass 3 "s" "r/" st1 = (Done tt, st2) /\
    view st1 ["s"; "a"; "f"] = view nested_state ["s"; "a"; "f"] /\
    out st1 = [Action CreatedDir "r//a"; Action CreatedFile "r//a/f";
               Action DeletedFile "r/a/f"] /\
    out st2 = out st1 ++ [Action CreatedFile "r//a/f";
                          Action DeletedFile "r/a/f"].
Proof. eexists _, _. repeat split; reflexivity. Qed.

(** ** The update rule *)



(** ** Errors *)


(** ** Start-up *)

(** C7: when one of the three paths does not exist, [main] prints the
    message of the first check that fails and returns; the tree, and so the
    directory of the log, is as before, and nothing else was printed or
    logged, so no pass ran. *)
Theorem main_refuses_missing_paths (ticks fuel : nat) (args : arguments)
    (st : state) :
  there st (arg_source args) && there st (arg_replica args)
    && there st (arg_log_file args) = false ->
  main ticks fuel args st =
  (Done tt, mkState (fs st) (clock st) (out st ++ [Notice (refusal st args)])).
Proof.
  intros H.
  assert (P : forall p, path_exists p st = (Done (there st p), st))
    by reflexivity.
  unfold main, refusal. rewrite (bind_done _ _ _ _ _ (P _)).
  destruct (there st (arg_source args)); [|reflexivity]. cbn [negb].
  rewrite (bind_done _ _ _ _ _ (P _)).
  destruct (there st (arg_replica args)); [|reflexivity]. cbn [negb].
  rewrite (bind_done _ _ _ _ _ (P _)).
  destruct (there st (arg_log_file args)); [discriminate H | reflexivity].
Qed.

Lemma main_refuses_missing_paths_witness :
  main 2 3 (mkArgs "s" "r" "logs" 60) stale_state =
  (Done tt,
   mkState (fs stale_state) (clock stale_state)
     (out stale_state ++ [Notice "The log file path does not exist"])).
Proof.
  apply (main_refuses_missing_paths 2 3 (mkArgs "s" "r" "logs" 60) stale_state).
  reflexivity.
Defined.

(** ** Path rewriting *)


(** ** Freshness *)

(** C10 fails on the code: with the source root written with a trailing
    separator the first loop rewrites [s/a] to [ra]; it creates [ra/f]
    beside the replica and leaves [r/a/f] older than [s/a/f]. *)
Theorem trailing_separator_leaves_replica_older :
  exists st',
    propagate 3 "s/" "r" newer_state = (Done tt, st') /\
    view st' ["s"; "a"; "f"] = Some (EFile 5 "new") /\
    view st' ["r"; "a"; "f"] = Some (EFile 1 "old") /\
    out st' = [Action CreatedDir "ra"; Action CreatedFile "ra/f"].
Proof. eexists. repeat split; reflexivity. Qed.

(** ** The order of the actions *)

(** C4: in the actions of a pass, whatever its outcome, no directory is
    created after a directory or a file was created or updated under it,
    and nothing is deleted under a directory after the directory was
    deleted.  So the directories [p], [p/q], [p/q/r] that only the source
    has are created in this order, and the file [a/b.txt] that only the
    replica has is deleted before the directory [a]. *)
Theorem actions_are_ordered (fuel : nat) (source replica : string)
    (st : state) :
  (exists l,
     out (snd (sync_pass fuel source replica st)) = out st ++ l /\
     parents_first l /\ children_first l) /\
  out (snd (sync_pass 4 "s" "r" deep_state)) =
    [Action CreatedDir "r/p"; Action CreatedDir "r/p/q";
     Action CreatedDir "r/p/q/r"] /\
  out (snd (sync_pass 3 "s" "r" orphan_state)) =
    [Action DeletedFile "r/a/b.txt"; Action DeletedDir "r/a"].
Proof.
  split; [|split; reflexivity].
  destruct (sync_pass fuel source replica st) as [o st'] eqn:Hrun.
  unfold sync_pass, bind in Hrun.
  destruct (propagate fuel source replica st) as [o1 st1] eqn:H1.
  assert (Hstart : creating st []).
  { split; [|split].
    - intros l1 a l2 b l3 E. now destruct l1.
    - constructor.
    - intros a []. }
  assert (E0 : out st = out st ++ []) by now rewrite app_nil_r.
  destruct (propagate_creating (out st) fuel source replica st [] o1 st1
              E0 Hstart H1) as [l1 [Ho1 HJ1]].
  pose proof (creating_deleting _ _ HJ1) as HD1.
  destruct o1 as [[]|e|].
  - destruct (prune_deleting (out st) fuel source replica st1 l1 o st'
                Ho1 HD1 Hrun) as [l2 [Ho2 [Hp [Hc _]]]].
    exists l2. auto.
  - injection Hrun as <- <-. exists l1. destruct HD1 as [Hp [Hc _]]. auto.
  - injection Hrun as <- <-. exists l1. destruct HD1 as [Hp [Hc _]]. auto.
Qed.

(** ** The source during a pass *)




(** ** Errors, continued *)



(** ** The lines of the log and of the console *)



(* ================================================================= *)
(** * Further properties of the program *)

(** ** The paths a walk yields, and their rewriting *)

Section Rewriting.

Open Scope string_scope.

Lemma tail_of_concat (x : string) (q : list string) :
  tail_of (x :: q) = "/" ++ String.concat "/" (x :: q).
Proof.
  unfold tail_of.
  assert (G : forall q x t,
             fold_left (fun t x => t ++ "/" ++ x) (x :: q) t
             = t ++ "/" ++ String.concat "/" (x :: q)).
  { clear. induction q as [|y q IH]; intros x t; [reflexivity|].
    change (fold_left (fun t x => t ++ "/" ++ x) (x :: y :: q) t)
      with (fold_left (fun t x => t ++ "/" ++ x) (y :: q) (t ++ "/" ++ x)).
    rewrite IH.
    change (String.concat "/" (x :: y :: q))
      with (x ++ "/" ++ String.concat "/" (y :: q)).
    now rewrite !append_assoc. }
  apply G.
Qed.

Lemma concat_not_startswith (x : string) (q : list string) :
  proper x = true -> startswith_sep (String.concat "/" (x :: q)) = false.
Proof.
  intros Hx. pose proof (proper_not_startswith _ Hx) as Hs.
  pose proof (proper_nonempty _ Hx) as Hne.
  destruct x as [|c x]; [now elim Hne|].
  destruct q; exact Hs.
Qed.

Lemma join_sep_ended (a x : string) :
  endswith_sep a = true -> proper x = true -> join a x = a ++ x.
Proof.
  intros Ha Hx. unfold join.
  now rewrite (proper_not_startswith _ Hx), Ha, orb_true_r.
Qed.

Lemma plain_glued (b x : string) : proper x = true -> plain (b ++ x) = true.
Proof.
  intros Hx. pose proof (proper_nonempty _ Hx) as Hne. unfold plain.
  apply andb_true_intro. split; apply negb_true_iff.
  - apply String.eqb_neq. now apply append_nonempty_r.
  - rewrite endswith_sep_append by exact Hne.
    apply sep_free_not_endswith. now apply proper_sep_free.
Qed.

End Rewriting.

(** The first components of the triples [os.walk(top)] yields are the
    paths walked from [top] through proper names. *)
Lemma walk_roots_walked (fuel : nat) (top : string) (t : node)
    (root : string) :
  wf t = true -> In (Notice root) (walk_roots fuel top t) ->
  walked_from top root.
Proof.
  intros Hw Hin. unfold walk_roots in Hin.
  set (J := fun (st : state) (l : list event) =>
              wf (fs st) = true /\
              Forall (fun e => exists r, e = Notice r /\ walked_from top r) l).
  destruct (os_walk_topdown fuel top (fun root _ _ => print root)
              (mkState t 0 [])) as [o st'] eqn:Hrun.
  assert (T : tracked [] J
                (os_walk_topdown fuel top (fun root _ _ => print root))).
  { apply (tracked_walk_topdown [] J (walked_from top)).
    - intros r dirs files st l Hg _ _ st1 l1 o1 st1' Ho [Hw1 Hl1] [= <- <-].
      exists (l1 ++ [Notice r]). cbn [out fs]. split; [now rewrite Ho|].
      split; [exact Hw1|]. apply Forall_app. split; [exact Hl1|].
      constructor; [|constructor]. now exists r.
    - intros r dirs files st l d [q [Hq ->]] [Hw1 _] Hl Hd.
      exists (q ++ [d]). split.
      + apply Forall_app. split; [exact Hq|]. constructor; [|constructor].
        apply (listing_proper _ _ _ _ Hw1 Hl). now left.
      + now rewrite walked_snoc.
    - exists []. split; [constructor | reflexivity]. }
  destruct (T (mkState t 0 []) [] o st' eq_refl (conj Hw (Forall_nil _)) Hrun)
    as [l' [Ho [_ Hl]]].
  simpl in Hin, Ho. rewrite Ho in Hin.
  rewrite Forall_forall in Hl. destruct (Hl _ Hin) as [r [[= <-] Hr]].
  exact Hr.
Qed.

(** X3. For roots written without a trailing separator, every path that the
    walk of [source] yields is rewritten by [replace] to the path of the
    same directory under [replica]: it resolves to the components of
    [replica] followed by those of the path relative to [source], and below
    the root it is the relative path joined onto [replica], whatever
    occurrences of the root string the relative path holds. *)
Theorem rewriting_is_right_for_plain_roots (fuel : nat)
    (source replica : string) (t : node) (root : string) :
  plain source = true -> plain replica = true -> wf t = true ->
  In (Notice root) (walk_roots fuel source t) ->
  parse (replace1 source replica root)
  = parse replica ++ skipn (List.length (parse source)) (parse root) /\
  (root <> source ->
   replace1 source replica root = join replica (relpath root source)).
Proof.
  intros Hs Hr Hw Hin.
  destruct (walk_roots_walked _ _ _ _ Hw Hin) as [q [Hq ->]].
  rewrite (replace1_walked _ _ _ Hs Hr Hq), !parse_walked by exact Hq.
  rewrite skipn_length_app. split; [reflexivity|].
  intros Hne. destruct q as [|x q]; [now elim Hne|].
  inversion Hq as [|? ? Hx _]; subst.
  unfold relpath. rewrite parse_walked, skipn_length_app by exact Hq.
  rewrite (walked_plain _ _ Hr Hq), tail_of_concat.
  unfold join. rewrite (concat_not_startswith _ _ Hx).
  unfold plain in Hr. apply andb_prop in Hr as [H1 H2].
  apply negb_true_iff in H1, H2. now rewrite H1, H2.
Qed.

Lemma rewriting_is_right_for_plain_roots_witness :
  parse (replace1 "s" "r" "s/s/x")
  = parse "r" ++ skipn (List.length (parse "s")) (parse "s/s/x") /\
  ("s/s/x" <> "s" ->
   replace1 "s" "r" "s/s/x" = join "r" (relpath "s/s/x" "s")).
Proof.
  apply (rewriting_is_right_for_plain_roots 3 "s" "r" echo_tree "s/s/x");
    try reflexivity.
  vm_compute. tauto.
Defined.

(** X4. When the root [a] of a walk ends with a separator, the path the
    walk yields for the directories [x], then [q], below it is rewritten by
    [replace] to the path walked through [q] from the string [b] followed
    by [x]: the name [x] is glued to the other root instead of being put
    under it. *)
Theorem trailing_separator_glues_first_name (a b x : string)
    (q : list string) :
  endswith_sep a = true -> proper x = true ->
  Forall (fun y => proper y = true) q ->
  replace1 a b (walked a (x :: q)) = walked (b ++ x)%string q.
Proof.
  intros Ha Hx Hq.
  change (walked a (x :: q)) with (walked (join a x) q).
  rewrite (join_sep_ended _ _ Ha Hx).
  rewrite (walked_plain _ _ (plain_glued a x Hx) Hq).
  rewrite (walked_plain _ _ (plain_glued b x Hx) Hq).
  rewrite !append_assoc. apply replace1_prefix.
Qed.

Lemma trailing_separator_glues_first_name_witness :
  replace1 "s/" "r" (walked "s/" ["a"; "b"]) = walked ("r" ++ "a")%string ["b"].
Proof.
  apply (trailing_separator_glues_first_name "s/" "r" "a" ["b"]);
    [reflexivity | reflexivity | repeat constructor].
Defined.

(** ** One entry of a walked directory *)

Lemma stat_resolve (path : string) (t n : node) :
  stat path t = Some n ->
  exists p, resolve path = Some p /\ lookup p t = Some n.
Proof.
  unfold stat. destruct (resolve path) as [p|]; [eauto | discriminate].
Qed.

Lemma stat_join (a x : string) (t : node) :
  proper x = true -> stat (join a x) t = lookup (parse a ++ [x]) t.
Proof. intros Hx. unfold stat. now rewrite (resolve_join _ _ Hx). Qed.

Lemma view_lookup_none (st : state) (p : list string) :
  view st p = None <-> lookup p (fs st) = None.
Proof.
  unfold view, entry_at. destruct (lookup p (fs st)); simpl; split; congruence.
Qed.

Lemma view_lookup_dir (st : state) (p : list string) :
  view st p = Some EDir <-> exists m es, lookup p (fs st) = Some (Dir m es).
Proof.
  unfold view, entry_at. destruct (lookup p (fs st)) as [[m d|m es]|]; simpl.
  - split; [discriminate | intros [? [? ?]]; discriminate].
  - split; [eauto | reflexivity].
  - split; [discriminate | intros [? [? ?]]; discriminate].
Qed.

Lemma entry_at_lookup_file (t : node) (p : list string) (m : Z) (d : string) :
  entry_at t p = Some (EFile m d) -> lookup p t = Some (File m d).
Proof.
  unfold entry_at. destruct (lookup p t) as [[? ?|? ?]|]; simpl; congruence.
Qed.

Lemma samefile_missing (src dst : string) (t : node) :
  stat src t = None -> samefile src dst t = false.
Proof.
  unfold stat, samefile. destruct (resolve src) as [ps|]; [|reflexivity].
  intros ->. now destruct (resolve dst).
Qed.











(** ** What the calls of a pass do to the entries *)

Lemma mkdir_inv (now : Z) (p : list string) (n n' : node) :
  mkdir now p n = Ok n' ->
  entry_at n p = None /\ entry_at n' p = Some EDir /\
  forall q, q <> p -> entry_at n' q = entry_at n q.
Proof.
  intros H. unfold mkdir in H.
  destruct (alter_lookup_under _ _ _ _ _ H) as [new [Hf _]].
  destruct (lookup p n) eqn:El; [discriminate|]. injection Hf as <-.
  pose proof (alter_entry _ _ _ _ _ (Some (Dir now [])) H) as He.
  rewrite El in He. specialize (He eq_refl).
  assert (Hn : entry_at n p = None) by (unfold entry_at; now rewrite El).
  split; [exact Hn|]. split.
  - now rewrite He, prefixb_refl, skipn_all.
  - intros q Hq. rewrite He. destruct (prefixb p q) eqn:E; [|reflexivity].
    apply prefixb_spec in E as [r ->]. rewrite skipn_length_app.
    rewrite (entry_at_none_under _ r _ Hn).
    destruct r; [now rewrite app_nil_r in Hq | reflexivity].
Qed.

Lemma write_file_inv (now m : Z) (d : string) (p : list string)
    (n n' : node) :
  write_file now m d p n = Ok n' ->
  entry_at n p <> Some EDir /\ entry_at n' p = Some (EFile m d) /\
  forall q, q <> p -> entry_at n' q = entry_at n q.
Proof.
  intros H. unfold write_file in H.
  destruct (alter_lookup_under _ _ _ _ _ H) as [new [Hf _]].
  pose proof (alter_entry _ _ _ _ _ new H Hf) as He.
  assert (Hnew : new = Some (File m d) /\ entry_at n p <> Some EDir).
  { unfold entry_at. destruct (lookup p n) as [[? ?|? ?]|];
      try discriminate; injection Hf as <-; split; simpl; congruence. }
  destruct Hnew as [-> Hnd]. split; [exact Hnd|]. split.
  - now rewrite He, prefixb_refl, skipn_all.
  - intros q Hq. rewrite He. destruct (prefixb p q) eqn:E; [|reflexivity].
    apply prefixb_spec in E as [r ->]. rewrite skipn_length_app.
    destruct r as [|y r]; [now rewrite app_nil_r in Hq|].
    symmetry. destruct (entry_at n p) as [[m' d'|]|] eqn:Ep.
    + now apply (entry_at_file_under _ _ _ m' d').
    + now elim Hnd.
    + now apply entry_at_none_under.
Qed.

Lemma remove_inv (now : Z) (p : list string) (n n' : node) :
  remove now p n = Ok n' ->
  (exists m d, entry_at n p = Some (EFile m d)) /\ entry_at n' p = None /\
  forall q, q <> p -> entry_at n' q = entry_at n q.
Proof.
  intros H. unfold remove in H.
  destruct (alter_lookup_under _ _ _ _ _ H) as [new [Hf _]].
  pose proof (alter_entry _ _ _ _ _ new H Hf) as He.
  destruct (lookup p n) as [[m d|? ?]|] eqn:El; try discriminate.
  injection Hf as <-.
  assert (Hn : entry_at n p = Some (EFile m d))
    by (unfold entry_at; now rewrite El).
  split; [eauto|]. split.
  - now rewrite He, prefixb_refl.
  - intros q Hq. rewrite He. destruct (prefixb p q) eqn:E; [|reflexivity].
    apply prefixb_spec in E as [r ->].
    destruct r as [|y r]; [now rewrite app_nil_r in Hq|].
    symmetry. now apply (entry_at_file_under _ _ _ m d).
Qed.

Lemma rmtree_inv (now : Z) (p : list string) (n n' : node) :
  rmtree now p n = Ok n' ->
  entry_at n p = Some EDir /\
  forall q, entry_at n' q = if prefixb p q then None else entry_at n q.
Proof.
  intros H. unfold rmtree in H.
  destruct (alter_lookup_under _ _ _ _ _ H) as [new [Hf _]].
  pose proof (alter_entry _ _ _ _ _ new H Hf) as He.
  destruct (lookup p n) as [[? ?|m es]|] eqn:El; try discriminate.
  injection Hf as <-. split; [unfold entry_at; now rewrite El | exact He].
Qed.

Lemma makedirs_from_inv (now : Z) (todo done : list string) (n n' : node) :
  makedirs_from now done todo n = Ok n' ->
  forall q,
    entry_at n' q = entry_at n q \/
    (entry_at n q = None /\ entry_at n' q = Some EDir /\
     prefixb q (done ++ todo) = true).
Proof.
  revert done n. induction todo as [|y todo IH]; intros done n H q;
    [discriminate|].
  assert (Hy : prefixb (done ++ [y]) (done ++ y :: todo) = true).
  { change (y :: todo) with ([y] ++ todo). rewrite app_assoc.
    apply prefixb_app. }
  assert (Hone : forall n1, mkdir now (done ++ [y]) n = Ok n1 ->
            entry_at n1 q = entry_at n q \/
            (entry_at n q = None /\ entry_at n1 q = Some EDir /\
             prefixb q (done ++ y :: todo) = true)).
  { intros n1 E. destruct (mkdir_inv _ _ _ _ E) as [G1 [G2 G3]].
    destruct (list_eq_dec string_dec q (done ++ [y])) as [->|Hq].
    - right. auto.
    - left. now apply G3. }
  destruct todo as [|z rest].
  - cbn [makedirs_from] in H. now apply Hone.
  - cbn [makedirs_from] in H.
    assert (Hstep : forall n1, makedirs_from now (done ++ [y]) (z :: rest) n1
                               = Ok n' ->
              entry_at n' q = entry_at n1 q \/
              (entry_at n1 q = None /\ entry_at n' q = Some EDir /\
               prefixb q (done ++ y :: z :: rest) = true)).
    { intros n1 E. specialize (IH _ _ E q).
      change (y :: z :: rest) with ([y] ++ z :: rest). now rewrite app_assoc. }
    destruct (lookup (done ++ [y]) n).
    + now apply Hstep.
    + destruct (mkdir now (done ++ [y]) n) as [n1|] eqn:E; [|discriminate].
      destruct (Hone n1 eq_refl) as [A | [A1 [A2 A3]]];
        destruct (Hstep n1 H) as [B | [B1 [B2 B3]]].
      * left. congruence.
      * right. rewrite <- A. auto.
      * right. rewrite B. auto.
      * congruence.
Qed.

(** The four calls that change the tree: each fails and leaves the state
    as it is, or succeeds, puts out nothing and changes the entries as
    stated. *)
Lemma os_makedirs_effect (path : string) (st : state) (o : outcome unit)
    (st' : state) :
  os_makedirs path st = (o, st') ->
  (exists e, o = Failed e /\ st' = st) \/
  (o = Done tt /\ clock st' = clock st /\ out st' = out st /\
   (wf (fs st) = true -> wf (fs st') = true) /\
   forall q,
     view st' q = view st q \/
     (view st q = None /\ view st' q = Some EDir /\
      prefixb q (parse path) = true)).
Proof.
  intros H.
  apply change_inv in H as [H | [-> [Hc [Ho [p [Hr Hop]]]]]]; [now left|].
  right. pose proof (resolve_parse _ _ Hr) as ->.
  split; [reflexivity|]. split; [exact Hc|]. split; [exact Ho|]. split.
  - intros Hw. exact (makedirs_wf _ _ _ _ Hw (resolve_proper _ _ Hr) Hop).
  - exact (makedirs_from_inv _ _ _ _ _ Hop).
Qed.

Lemma shutil_copy2_effect (src dst : string) (st : state)
    (o : outcome unit) (st' : state) :
  shutil_copy2 src dst st = (o, st') ->
  (exists e, o = Failed e /\ st' = st) \/
  (o = Done tt /\ clock st' = clock st /\ out st' = out st /\
   (wf (fs st) = true -> wf (fs st') = true) /\
   exists p m d,
     (p = parse dst \/
      (view st (parse dst) = Some EDir /\
       p = parse (join dst (basename src)))) /\
     view st p <> Some EDir /\ view st' p = Some (EFile m d) /\
     forall q, q <> p -> view st' q = view st q).
Proof.
  unfold shutil_copy2, bind, os_path_isdir, copyfile_stat.
  destruct (samefile src _ (fs st)); [intros [= <- <-]; left; eauto|].
  destruct (stat src (fs st)) as [[m d|? ?]|];
    [|intros [= <- <-]; left; eauto..].
  intros H.
  apply change_inv in H as [H | [-> [Hc [Ho [p [Hr Hop]]]]]]; [now left|].
  right. destruct (write_file_inv _ _ _ _ _ _ Hop) as [G1 [G2 G3]].
  split; [reflexivity|]. split; [exact Hc|]. split; [exact Ho|]. split.
  - intros Hw. exact (write_file_wf _ _ _ _ _ _ Hw (resolve_proper _ _ Hr) Hop).
  - exists p, m, d. split; [|auto].
    pose proof (resolve_parse _ _ Hr) as Ep.
    destruct (stat dst (fs st)) as [[? ?|? ?]|] eqn:Es; simpl in Ep; auto.
    right. split; [|exact Ep].
    apply stat_resolve in Es as [pd [Rd Ld]].
    rewrite <- (resolve_parse _ _ Rd). apply view_lookup_dir. eauto.
Qed.

Lemma os_remove_effect (path : string) (st : state) (o : outcome unit)
    (st' : state) :
  os_remove path st = (o, st') ->
  (exists e, o = Failed e /\ st' = st) \/
  (o = Done tt /\ clock st' = clock st /\ out st' = out st /\
   (wf (fs st) = true -> wf (fs st') = true) /\
   (exists m d, view st (parse path) = Some (EFile m d)) /\
   view st' (parse path) = None /\
   forall q, q <> parse path -> view st' q = view st q).
Proof.
  intros H.
  apply change_inv in H as [H | [-> [Hc [Ho [p [Hr Hop]]]]]]; [now left|].
  right. pose proof (resolve_parse _ _ Hr) as ->.
  destruct (remove_inv _ _ _ _ Hop) as [G1 [G2 G3]].
  split; [reflexivity|]. split; [exact Hc|]. split; [exact Ho|].
  split; [|auto].
  intros Hw. exact (remove_wf _ _ _ _ Hw (resolve_proper _ _ Hr) Hop).
Qed.

Lemma shutil_rmtree_effect (path : string) (st : state) (o : outcome unit)
    (st' : state) :
  shutil_rmtree path st = (o, st') ->
  (exists e, o = Failed e /\ st' = st) \/
  (o = Done tt /\ clock st' = clock st /\ out st' = out st /\
   (wf (fs st) = true -> wf (fs st') = true) /\
   view st (parse path) = Some EDir /\
   forall q, view st' q = if prefixb (parse path) q then None else view st q).
Proof.
  intros H.
  apply change_inv in H as [H | [-> [Hc [Ho [p [Hr Hop]]]]]]; [now left|].
  right. pose proof (resolve_parse _ _ Hr) as ->.
  destruct (rmtree_inv _ _ _ _ Hop) as [G1 G2].
  split; [reflexivity|]. split; [exact Hc|]. split; [exact Ho|].
  split; [|auto].
  intros Hw. exact (rmtree_wf _ _ _ _ Hw (resolve_proper _ _ Hr) Hop).
Qed.

(** ** What a loop never does *)

(** A call that puts out nothing keeps an invariant that its effect on the
    state keeps. *)
Lemma tracked_quiet {A} (base : list event)
    (J : state -> list event -> Prop) (m : M A) :
  (forall st l o st', J st l -> m st = (o, st') ->
     out st' = out st /\ J st' l) ->
  tracked base J m.
Proof.
  intros H st l o st' Ho HJ Hrun.
  destruct (H _ _ _ _ HJ Hrun) as [E HJ']. exists l. split; congruence.
Qed.

Lemma tracked_report (base : list event)
    (J : state -> list event -> Prop) (k : action_kind) (path : string) :
  (forall st l, J st l ->
     J (mkState (fs st) (clock st) (out st ++ [Action k path]))
       (l ++ [Action k path])) ->
  tracked base J (report k path).
Proof.
  intros H st l o st' Ho HJ [= <- <-].
  exists (l ++ [Action k path]). cbn [out].
  split; [now rewrite Ho, app_assoc | now apply H].
Qed.

Lemma same_kind_trans (a b c : entry) :
  same_kind a b = true -> same_kind b c = true -> same_kind a c = true.
Proof. destruct a, b, c; simpl; congruence. Qed.

Lemma same_kind_refl (a : entry) : same_kind a a = true.
Proof. now destruct a. Qed.

Section FirstLoop.

Variable st0 : state.
Variable base : list event.

Local Abbreviation J := (adding st0).

Lemma grown_step (st st' : state) (l : list event) :
  J st l ->
  (forall q e, view st q = Some e ->
     exists e', view st' q = Some e' /\ same_kind e e' = true) ->
  J st' l.
Proof.
  intros [Hg Hl] Hstep. split; [|exact Hl]. intros q e He.
  destruct (Hg q e He) as [e1 [H1 K1]]. destruct (Hstep q e1 H1) as [e2 [H2 K2]].
  exists e2. split; [exact H2 | exact (same_kind_trans _ _ _ K1 K2)].
Qed.

Lemma makedirs_grown (path : string) : tracked base J (os_makedirs path).
Proof.
  apply tracked_quiet. intros st l o st' HJ Hrun.
  apply os_makedirs_effect in Hrun
    as [[e [-> ->]] | [-> [_ [Ho [_ Hq]]]]]; [auto|].
  split; [exact Ho|]. apply (grown_step st); [exact HJ|].
  intros q e He. exists e. split; [|apply same_kind_refl].
  destruct (Hq q) as [E | [E _]]; congruence.
Qed.

Lemma copy2_grown (src dst : string) : tracked base J (shutil_copy2 src dst).
Proof.
  apply tracked_quiet. intros st l o st' HJ Hrun.
  apply shutil_copy2_effect in Hrun
    as [[e [-> ->]] | [-> [_ [Ho [_ [p [m [d [_ [H1 [H2 H3]]]]]]]]]]]; [auto|].
  split; [exact Ho|]. apply (grown_step st); [exact HJ|].
  intros q e He. destruct (list_eq_dec string_dec q p) as [->|Hq].
  - exists (EFile m d). split; [exact H2|].
    destruct e; [reflexivity | congruence].
  - exists e. split; [|apply same_kind_refl]. now rewrite H3.
Qed.

Lemma report_grown (k : action_kind) (path : string) :
  creation (Action k path) = true -> tracked base J (report k path).
Proof.
  intros Hk. apply tracked_report. intros st l [Hg Hl]. split; [exact Hg|].
  apply Forall_app. split; [exact Hl|]. now constructor.
Qed.

Lemma propagate_grown (fuel : nat) (source replica : string) :
  tracked base J (propagate fuel source replica).
Proof.
  unfold propagate.
  apply (tracked_walk_topdown base J (fun _ => True)); [|auto|exact I].
  intros root dirs files st l _ _ _. unfold propagate_body.
  apply tracked_bind; [apply read_exists|]. intros present.
  apply tracked_bind.
  - apply tracked_when. apply tracked_bind; [apply makedirs_grown|].
    intros _. now apply report_grown.
  - intros _. apply tracked_for_each. intros f _. unfold propagate_file.
    apply tracked_bind; [apply read_exists|]. intros p.
    destruct (negb p).
    + apply tracked_bind; [apply copy2_grown|].
      intros _. now apply report_grown.
    + apply tracked_bind; [apply read_getmtime|]. intros ms.
      apply tracked_bind; [apply read_getmtime|]. intros mr.
      destruct (ms >? mr)%Z; [|apply tracked_ret].
      apply tracked_bind; [apply copy2_grown|].
      intros _. now apply report_grown.
Qed.

End FirstLoop.

(** X10. Whatever the roots, the tree and the outcome, the first loop takes
    nothing away: every entry that was there before it is there after it,
    a directory as a directory and a file as a file, and every action it
    reports is the creation of a directory or the creation or update of a
    file. *)
Theorem propagate_only_adds (fuel : nat) (source replica : string)
    (st : state) :
  grown st (snd (propagate fuel source replica st)) /\
  exists l,
    out (snd (propagate fuel source replica st)) = out st ++ l /\
    Forall (fun e => creation e = true) l.
Proof.
  destruct (propagate fuel source replica st) as [o st'] eqn:Hrun.
  assert (E0 : out st = out st ++ []) by now rewrite app_nil_r.
  assert (J0 : adding st st []).
  { split; [|constructor]. intros q e He. exists e.
    split; [exact He | apply same_kind_refl]. }
  destruct (propagate_grown st (out st) fuel source replica st [] o st'
              E0 J0 Hrun) as [l [Ho [Hg Hl]]].
  cbn [snd]. split; [exact Hg|]. now exists l.
Qed.

Section SecondLoop.

Variable st0 : state.
Variable base : list event.

Local Abbreviation J := (removing st0).

Lemma shrunk_step (st st' : state) (l : list event) :
  J st l ->
  (forall q, view st' q = None \/ view st' q = view st q) ->
  J st' l.
Proof.
  intros [Hs Hl] Hstep. split; [|exact Hl]. intros q.
  destruct (Hstep q) as [E|E]; [now left|].
  destruct (Hs q) as [E'|E']; [left | right]; congruence.
Qed.

Lemma remove_shrunk (path : string) : tracked base J (os_remove path).
Proof.
  apply tracked_quiet. intros st l o st' HJ Hrun.
  apply os_remove_effect in Hrun
    as [[e [-> ->]] | [-> [_ [Ho [_ [_ [H1 H2]]]]]]]; [auto|].
  split; [exact Ho|]. apply (shrunk_step st); [exact HJ|].
  intros q. destruct (list_eq_dec string_dec q (parse path)) as [->|Hq];
    [now left | right; now apply H2].
Qed.

Lemma rmtree_shrunk (path : string) : tracked base J (shutil_rmtree path).
Proof.
  apply tracked_quiet. intros st l o st' HJ Hrun.
  apply shutil_rmtree_effect in Hrun
    as [[e [-> ->]] | [-> [_ [Ho [_ [_ H1]]]]]]; [auto|].
  split; [exact Ho|]. apply (shrunk_step st); [exact HJ|].
  intros q. rewrite H1. destruct (prefixb (parse path) q); auto.
Qed.

Lemma report_shrunk (k : action_kind) (path : string) :
  deletion (Action k path) = true -> tracked base J (report k path).
Proof.
  intros Hk. apply tracked_report. intros st l [Hg Hl]. split; [exact Hg|].
  apply Forall_app. split; [exact Hl|]. now constructor.
Qed.

Lemma prune_shrunk (fuel : nat) (source replica : string) :
  tracked base J (prune fuel source replica).
Proof.
  unfold prune.
  apply (tracked_walk_bottomup base J (fun _ => True)); [|auto|exact I].
  intros root dirs files st l _ _ _. unfold prune_body.
  apply tracked_bind.
  - apply tracked_for_each. intros f _. unfold prune_file.
    apply tracked_bind; [apply read_exists|]. intros present.
    apply tracked_when. apply tracked_bind; [apply remove_shrunk|].
    intros _. now apply report_shrunk.
  - intros _. apply tracked_for_each. intros d _. unfold prune_dir.
    apply tracked_bind; [apply read_exists|]. intros present.
    apply tracked_when. apply tracked_bind; [apply rmtree_shrunk|].
    intros _. now apply report_shrunk.
Qed.

End SecondLoop.


(** X12. Whatever the roots, the tree and the outcome, the actions of a
    pass come in two blocks: first the creations and updates of the first
    loop, then the deletions of the second; no deletion is reported before
    a creation or an update. *)
Theorem creations_come_before_deletions (fuel : nat)
    (source replica : string) (st : state) :
  exists l1 l2,
    out (snd (sync_pass fuel source replica st)) = out st ++ l1 ++ l2 /\
    Forall (fun e => creation e = true) l1 /\
    Forall (fun e => deletion e = true) l2.
Proof.
  destruct (sync_pass fuel source replica st) as [o st'] eqn:Hrun.
  unfold sync_pass, bind in Hrun.
  destruct (propagate fuel source replica st) as [o1 st1] eqn:H1.
  assert (E0 : out st = out st ++ []) by now rewrite app_nil_r.
  assert (J0 : adding st st []).
  { split; [|constructor]. intros q e He. exists e.
    split; [exact He | apply same_kind_refl]. }
  destruct (propagate_grown st (out st) fuel source replica st [] o1 st1
              E0 J0 H1) as [l1 [Ho1 [_ Hl1]]].
  cbn [snd]. destruct o1 as [[]|e|].
  - assert (E1 : out st1 = out st1 ++ []) by now rewrite app_nil_r.
    assert (K0 : removing st1 st1 []).
    { split; [|constructor]. intros q. now right. }
    destruct (prune_shrunk st1 (out st1) fuel source replica st1 [] o st'
                E1 K0 Hrun) as [l2 [Ho2 [_ Hl2]]].
    exists l1, l2. rewrite Ho2, Ho1, <- app_assoc. auto.
  - injection Hrun as <- <-. exists l1, []. rewrite app_nil_r. auto.
  - injection Hrun as <- <-. exists l1, []. rewrite app_nil_r. auto.
Qed.

Section Truthful.

Variable base : list event.

Lemma gone_step (st st' : state) (l : list event) :
  gone st l -> (forall q, view st q = None -> view st' q = None) ->
  gone st' l.
Proof.
  unfold gone. rewrite !Forall_forall. intros H Hstep a Ha. auto.
Qed.

Lemma removal_gone (m : M unit) (k : action_kind) (path : string) :
  (forall st o st', m st = (o, st') ->
     (exists e, o = Failed e /\ st' = st) \/
     (o = Done tt /\ out st' = out st /\
      view st (parse path) <> None /\ view st' (parse path) = None /\
      forall q, view st q = None -> view st' q = None)) ->
  tracked base gone (m ;; report k path).
Proof.
  intros H st l o st' Ho HJ Hrun. unfold bind in Hrun.
  destruct (m st) as [o1 st1] eqn:Em.
  destruct (H _ _ _ Em) as [[e [-> ->]] | [-> [Ho1 [_ [Hp Hq]]]]].
  - injection Hrun as <- <-. now exists l.
  - rewrite report_spec in Hrun. injection Hrun as <- <-.
    exists (l ++ [Action k path]). cbn [out].
    split; [now rewrite Ho1, Ho, app_assoc|].
    apply Forall_app. split.
    + exact (gone_step st _ l HJ Hq).
    + constructor; [exact Hp | constructor].
Qed.

Lemma prune_gone (fuel : nat) (source replica : string) :
  tracked base gone (prune fuel source replica).
Proof.
  unfold prune.
  apply (tracked_walk_bottomup base gone (fun _ => True)); [|auto|exact I].
  intros root dirs files st l _ _ _. unfold prune_body.
  apply tracked_bind.
  - apply tracked_for_each. intros f _. unfold prune_file.
    apply tracked_bind; [apply read_exists|]. intros present.
    apply tracked_when. apply removal_gone. apply os_remove_run.
  - intros _. apply tracked_for_each. intros d _. unfold prune_dir.
    apply tracked_bind; [apply read_exists|]. intros present.
    apply tracked_when. apply removal_gone. apply shutil_rmtree_run.
Qed.

End Truthful.

(** X13. Whatever the roots, the tree and the outcome, the reports of a
    loop are true when the loop ends: every path that the first loop
    reported as created or updated exists after it, and every path that
    the second loop reported as deleted does not exist after it. *)
Theorem reports_are_true (fuel : nat) (source replica : string)
    (st : state) :
  (exists l,
     out (snd (propagate fuel source replica st)) = out st ++ l /\
     forall k path, In (Action k path) l ->
       view (snd (propagate fuel source replica st)) (parse path) <> None) /\
  (exists l,
     out (snd (prune fuel source replica st)) = out st ++ l /\
     forall k path, In (Action k path) l ->
       view (snd (prune fuel source replica st)) (parse path) = None).
Proof.
  assert (E0 : out st = out st ++ []) by now rewrite app_nil_r.
  split.
  - destruct (propagate fuel source replica st) as [o st'] eqn:Hrun.
    assert (C0 : creating st []).
    { split; [|split].
      - intros l1 a l2 b l3 E. now destruct l1.
      - constructor.
      - intros a []. }
    destruct (propagate_creating (out st) fuel source replica st [] o st'
                E0 C0 Hrun) as [l [Ho [_ [_ Hc]]]].
    assert (J0 : adding st st []).
    { split; [|constructor]. intros q e He. exists e.
      split; [exact He | apply same_kind_refl]. }
    destruct (propagate_grown st (out st) fuel source replica st [] o st'
                E0 J0 Hrun) as [l' [Ho' [_ Hl']]].
    rewrite Ho in Ho'. apply app_inv_head in Ho'. subst l'.
    cbn [snd]. exists l. split; [exact Ho|]. intros k path Hin.
    rewrite Forall_forall in Hl'. exact (Hc _ Hin (Hl' _ Hin)).
  - destruct (prune fuel source replica st) as [o st'] eqn:Hrun.
    destruct (prune_gone (out st) fuel source replica st [] o st'
                E0 (Forall_nil _) Hrun) as [l [Ho Hl]].
    cbn [snd]. exists l. split; [exact Ho|]. intros k path Hin.
    unfold gone in Hl. rewrite Forall_forall in Hl. exact (Hl _ Hin).
Qed.

(** ** The actions account for the changes *)

Lemma view_eq_dec (st st' : state) (q : list string) :
  {view st' q = view st q} + {view st' q <> view st q}.
Proof. repeat decide equality. Qed.

Lemma covered_app (q : list string) (l l' : list event) :
  covered q l -> covered q (l ++ l').
Proof.
  intros [k [path [Hin H]]]. exists k, path. split; [|exact H].
  apply in_or_app. now left.
Qed.

Section Audit.

Variable st0 : state.
Variable base : list event.

(** A change followed by its report. *)
Lemma reported_step (m : M unit) (k : action_kind) (path : string) :
  (forall st o st', m st = (o, st') ->
     (exists e, o = Failed e /\ st' = st) \/
     (o = Done tt /\ out st' = out st /\
      (wf (fs st) = true -> wf (fs st') = true) /\
      forall q, view st' q <> view st q ->
        prefixb (parse path) q = true \/ prefixb q (parse path) = true)) ->
  tracked base (accounted st0) (m ;; report k path).
Proof.
  intros H st l o st' Ho [Hw Hc] Hrun. unfold bind in Hrun.
  destruct (m st) as [o1 st1] eqn:Em.
  destruct (H _ _ _ Em) as [[e [-> ->]] | [-> [Ho1 [Hw1 Hq]]]].
  - injection Hrun as <- <-. exists l. split; [exact Ho | now split].
  - rewrite report_spec in Hrun. injection Hrun as <- <-.
    exists (l ++ [Action k path]). cbn [out fs].
    split; [now rewrite Ho1, Ho, app_assoc|]. split; [now apply Hw1|].
    intros q Hne. change (view st1 q <> view st0 q) in Hne.
    destruct (view_eq_dec st st1 q) as [E|E].
    + apply covered_app. apply Hc. congruence.
    + exists k, path. split; [apply in_or_app; right; now left | now apply Hq].
Qed.

Lemma makedirs_reported (path : string) :
  tracked base (accounted st0)
    (os_makedirs path ;; report CreatedDir path).
Proof.
  apply reported_step. intros st o st' Hrun.
  apply os_makedirs_effect in Hrun
    as [H | [-> [_ [Ho [Hw Hq]]]]]; [now left|].
  right. split; [reflexivity|]. split; [exact Ho|]. split; [exact Hw|].
  intros q Hne. destruct (Hq q) as [E | [_ [_ E]]]; [now elim Hne | now right].
Qed.

Lemma copy2_reported (k : action_kind) (root replica_path file : string) :
  proper file = true ->
  tracked base (accounted st0)
    (shutil_copy2 (join root file) (join replica_path file) ;;
     report k (join replica_path file)).
Proof.
  intros Hf. apply reported_step. intros st o st' Hrun.
  apply shutil_copy2_effect in Hrun
    as [H | [-> [_ [Ho [Hw [p [m [d [Hp [_ [_ H3]]]]]]]]]]]; [now left|].
  right. split; [reflexivity|]. split; [exact Ho|]. split; [exact Hw|].
  intros q Hne. left.
  destruct (list_eq_dec string_dec q p) as [->|Hq]; [|now elim Hne; apply H3].
  destruct Hp as [-> | [_ ->]]; [apply prefixb_refl|].
  rewrite (basename_join _ _ Hf), (parse_join (join replica_path file) _ Hf).
  apply prefixb_app.
Qed.

Lemma remove_reported (path : string) :
  tracked base (accounted st0) (os_remove path ;; report DeletedFile path).
Proof.
  apply reported_step. intros st o st' Hrun.
  apply os_remove_effect in Hrun
    as [H | [-> [_ [Ho [Hw [_ [_ H2]]]]]]]; [now left|].
  right. split; [reflexivity|]. split; [exact Ho|]. split; [exact Hw|].
  intros q Hne. left.
  destruct (list_eq_dec string_dec q (parse path)) as [->|Hq];
    [apply prefixb_refl | now elim Hne; apply H2].
Qed.

Lemma rmtree_reported (path : string) :
  tracked base (accounted st0) (shutil_rmtree path ;; report DeletedDir path).
Proof.
  apply reported_step. intros st o st' Hrun.
  apply shutil_rmtree_effect in Hrun
    as [H | [-> [_ [Ho [Hw [_ H1]]]]]]; [now left|].
  right. split; [reflexivity|]. split; [exact Ho|]. split; [exact Hw|].
  intros q Hne. left. rewrite H1 in Hne.
  destruct (prefixb (parse path) q); [reflexivity | now elim Hne].
Qed.

Lemma sync_pass_accounted (fuel : nat) (source replica : string) :
  tracked base (accounted st0) (sync_pass fuel source replica).
Proof.
  unfold sync_pass, propagate, prune. apply tracked_bind.
  - apply (tracked_walk_topdown base _ (fun _ => True)); [|auto|exact I].
    intros root dirs files st l _ [Hw _] Hl.
    pose proof (listing_proper _ _ _ _ Hw Hl) as Hnames.
    unfold propagate_body.
    apply tracked_bind; [apply read_exists|]. intros present.
    apply tracked_bind.
    + apply tracked_when. apply makedirs_reported.
    + intros _. apply tracked_for_each. intros f Hf. unfold propagate_file.
      assert (Hpf : proper f = true) by (apply Hnames; now right).
      apply tracked_bind; [apply read_exists|]. intros p.
      destruct (negb p); [now apply copy2_reported|].
      apply tracked_bind; [apply read_getmtime|]. intros ms.
      apply tracked_bind; [apply read_getmtime|]. intros mr.
      destruct (ms >? mr)%Z; [now apply copy2_reported | apply tracked_ret].
  - intros _.
    apply (tracked_walk_bottomup base _ (fun _ => True)); [|auto|exact I].
    intros root dirs files st l _ _ _. unfold prune_body.
    apply tracked_bind.
    + apply tracked_for_each. intros f _. unfold prune_file.
      apply tracked_bind; [apply read_exists|]. intros present.
      apply tracked_when. apply remove_reported.
    + intros _. apply tracked_for_each. intros d _. unfold prune_dir.
      apply tracked_bind; [apply read_exists|]. intros present.
      apply tracked_when. apply rmtree_reported.
Qed.

End Audit.



(** ** A pass works under the replica root *)

Section Beside.

Variables source replica other : string.
Hypothesis plain_source : plain source = true.
Hypothesis other_apart : apart (parse other) (parse replica) = true.

Variable base : list event.
Variable p0 : option node.

Local Abbreviation R := (parse replica).
Local Abbreviation J := (kept (parse other) p0).

Lemma propagate_beside (fuel : nat) :
  tracked base J (propagate fuel source replica).
Proof.
  unfold propagate.
  apply (tracked_walk_topdown base J (walked_from source)).
  - intros root dirs files st l [q [Hq ->]] [Hw _] Hl.
    pose proof (listing_proper _ _ _ _ Hw Hl) as Hnames.
    unfold propagate_body.
    rewrite (walked_plain _ _ plain_source Hq), replace1_prefix.
    pose proof (parse_tail replica q Hq) as Hp.
    apply tracked_bind; [apply read_exists|]. intros present.
    apply tracked_bind.
    + apply tracked_when.
      apply tracked_bind; [|intros _; apply report_kept].
      apply (change_kept other replica _ _ _ _ q); auto.
      * intros. now apply (makedirs_wf now p n n').
      * intros now0 n n' H. apply (makedirs_from_frame _ _ _ _ _ _ H).
        now apply not_above_source.
    + intros _. apply tracked_for_each. intros f Hf.
      apply (propagate_file_kept other replica other_apart _ _ _ _ _ q); auto.
  - intros root dirs files st l d [q [Hq ->]] [Hw _] Hl Hd.
    exists (q ++ [d]). split.
    + apply Forall_app. split; [exact Hq|]. constructor; [|constructor].
      apply (listing_proper _ _ _ _ Hw Hl). now left.
    + now rewrite walked_snoc.
  - exists []. split; [constructor | reflexivity].
Qed.

Lemma prune_beside (fuel : nat) :
  tracked base J (prune fuel source replica).
Proof.
  unfold prune.
  apply (tracked_walk_bottomup base J (walked_from replica)).
  - intros root dirs files st l [q [Hq ->]] [Hw _] Hl.
    pose proof (listing_proper _ _ _ _ Hw Hl) as Hnames.
    unfold prune_body. apply tracked_bind.
    + apply tracked_for_each. intros f Hf. unfold prune_file.
      apply tracked_bind; [apply read_exists|]. intros present.
      apply tracked_when.
      apply tracked_bind; [|intros _; apply report_kept].
      apply (change_kept other replica _ _ _ _ (q ++ [f])); auto.
      * rewrite parse_join, parse_walked by auto. now rewrite <- app_assoc.
      * intros. now apply (remove_wf now p n n').
      * intros now0 n n'. now apply alter_beside.
    + intros _. apply tracked_for_each. intros d Hd. unfold prune_dir.
      apply tracked_bind; [apply read_exists|]. intros present.
      apply tracked_when.
      apply tracked_bind; [|intros _; apply report_kept].
      apply (change_kept other replica _ _ _ _ (q ++ [d])); auto.
      * rewrite parse_join, parse_walked by auto. now rewrite <- app_assoc.
      * intros. now apply (rmtree_wf now p n n').
      * intros now0 n n'. now apply alter_beside.
  - intros root dirs files st l d [q [Hq ->]] [Hw _] Hl Hd.
    exists (q ++ [d]). split.
    + apply Forall_app. split; [exact Hq|]. constructor; [|constructor].
      apply (listing_proper _ _ _ _ Hw Hl). now left.
    + now rewrite walked_snoc.
  - exists []. split; [constructor | reflexivity].
Qed.

End Beside.



Section Confined.

Variables source replica : string.
Hypothesis plain_source : plain source = true.
Variable base : list event.

Local Abbreviation R := (parse replica).
Local Abbreviation J := (confined R).

Lemma confined_quiet (m : M unit) :
  (forall st o st', m st = (o, st') ->
     (exists e, o = Failed e /\ st' = st) \/
     (o = Done tt /\ out st' = out st /\
      (wf (fs st) = true -> wf (fs st') = true))) ->
  tracked base J m.
Proof.
  intros H. apply tracked_quiet. intros st l o st' [Hw Hl] Hrun.
  destruct (H _ _ _ Hrun) as [[e [-> ->]] | [-> [Ho Hw']]].
  - split; [reflexivity | now split].
  - split; [exact Ho|]. split; [now apply Hw' | exact Hl].
Qed.

Lemma confined_change (m : M unit) (k : action_kind) (path : string)
    (r : list string) :
  (forall st o st', m st = (o, st') ->
     (exists e, o = Failed e /\ st' = st) \/
     (o = Done tt /\ out st' = out st /\
      (wf (fs st) = true -> wf (fs st') = true))) ->
  parse path = R ++ r ->
  tracked base J (m ;; report k path).
Proof.
  intros H Hp. apply tracked_bind; [now apply confined_quiet|].
  intros _. apply tracked_report. intros st l [Hw Hl]. split; [exact Hw|].
  apply Forall_app. split; [exact Hl|]. constructor; [|constructor].
  now exists k, path, r.
Qed.

Lemma makedirs_quiet (path : string) (st : state) (o : outcome unit)
    (st' : state) :
  os_makedirs path st = (o, st') ->
  (exists e, o = Failed e /\ st' = st) \/
  (o = Done tt /\ out st' = out st /\
   (wf (fs st) = true -> wf (fs st') = true)).
Proof.
  intros H. apply os_makedirs_effect in H as [H | [-> [_ [Ho [Hw _]]]]]; auto.
Qed.

Lemma copy2_quiet (src dst : string) (st : state) (o : outcome unit)
    (st' : state) :
  shutil_copy2 src dst st = (o, st') ->
  (exists e, o = Failed e /\ st' = st) \/
  (o = Done tt /\ out st' = out st /\
   (wf (fs st) = true -> wf (fs st') = true)).
Proof.
  intros H. apply shutil_copy2_effect in H as [H | [-> [_ [Ho [Hw _]]]]]; auto.
Qed.

Lemma remove_quiet (path : string) (st : state) (o : outcome unit)
    (st' : state) :
  os_remove path st = (o, st') ->
  (exists e, o = Failed e /\ st' = st) \/
  (o = Done tt /\ out st' = out st /\
   (wf (fs st) = true -> wf (fs st') = true)).
Proof.
  intros H. apply os_remove_effect in H as [H | [-> [_ [Ho [Hw _]]]]]; auto.
Qed.

Lemma rmtree_quiet (path : string) (st : state) (o : outcome unit)
    (st' : state) :
  shutil_rmtree path st = (o, st') ->
  (exists e, o = Failed e /\ st' = st) \/
  (o = Done tt /\ out st' = out st /\
   (wf (fs st) = true -> wf (fs st') = true)).
Proof.
  intros H. apply shutil_rmtree_effect in H as [H | [-> [_ [Ho [Hw _]]]]]; auto.
Qed.

Lemma sync_pass_confined (fuel : nat) :
  tracked base J (sync_pass fuel source replica).
Proof.
  unfold sync_pass, propagate, prune. apply tracked_bind.
  - apply (tracked_walk_topdown base J (walked_from source)).
    + intros root dirs files st l [q [Hq ->]] [Hw _] Hl.
      pose proof (listing_proper _ _ _ _ Hw Hl) as Hnames.
      unfold propagate_body.
      rewrite (walked_plain _ _ plain_source Hq), replace1_prefix.
      pose proof (parse_tail replica q Hq) as Hp.
      apply tracked_bind; [apply read_exists|]. intros present.
      apply tracked_bind.
      * apply tracked_when.
        apply (confined_change _ _ _ q); [apply makedirs_quiet | exact Hp].
      * intros _. apply tracked_for_each. intros f Hf.
        assert (Hpf : proper f = true) by (apply Hnames; now right).
        assert (Hpath : parse (join (replica ++ tail_of q)%string f)
                        = R ++ (q ++ [f])).
        { rewrite (parse_join _ _ Hpf), Hp. now rewrite <- app_assoc. }
        unfold propagate_file.
        apply tracked_bind; [apply read_exists|]. intros p.
        destruct (negb p).
        -- apply (confined_change _ _ _ (q ++ [f]));
             [apply copy2_quiet | exact Hpath].
        -- apply tracked_bind; [apply read_getmtime|]. intros ms.
           apply tracked_bind; [apply read_getmtime|]. intros mr.
           destruct (ms >? mr)%Z; [|apply tracked_ret].
           apply (confined_change _ _ _ (q ++ [f]));
             [apply copy2_quiet | exact Hpath].
    + intros root dirs files st l d [q [Hq ->]] [Hw _] Hl Hd.
      exists (q ++ [d]). split.
      * apply Forall_app. split; [exact Hq|]. constructor; [|constructor].
        apply (listing_proper _ _ _ _ Hw Hl). now left.
      * now rewrite walked_snoc.
    + exists []. split; [constructor | reflexivity].
  - intros _. apply (tracked_walk_bottomup base J (walked_from replica)).
    + intros root dirs files st l [q [Hq ->]] [Hw _] Hl.
      pose proof (listing_proper _ _ _ _ Hw Hl) as Hnames.
      assert (Hpath : forall x, proper x = true ->
                parse (join (walked replica q) x) = R ++ (q ++ [x])).
      { intros x Hx. rewrite parse_join, parse_walked by auto.
        now rewrite <- app_assoc. }
      unfold prune_body. apply tracked_bind.
      * apply tracked_for_each. intros f Hf. unfold prune_file.
        apply tracked_bind; [apply read_exists|]. intros present.
        apply tracked_when.
        apply (confined_change _ _ _ (q ++ [f])); [apply remove_quiet|].
        apply Hpath. apply Hnames. now right.
      * intros _. apply tracked_for_each. intros d Hd. unfold prune_dir.
        apply tracked_bind; [apply read_exists|]. intros present.
        apply tracked_when.
        apply (confined_change _ _ _ (q ++ [d])); [apply rmtree_quiet|].
        apply Hpath. apply Hnames. now left.
    + intros root dirs files st l d [q [Hq ->]] [Hw _] Hl Hd.
      exists (q ++ [d]). split.
      * apply Forall_app. split; [exact Hq|]. constructor; [|constructor].
        apply (listing_proper _ _ _ _ Hw Hl). now left.
      * now rewrite walked_snoc.
    + exists []. split; [constructor | reflexivity].
Qed.

End Confined.

(** X16. When the source root is written without a trailing separator,
    every action that a pass over a well-formed tree reports, whatever its
    outcome, names a path that resolves to the replica root or to a path
    under it; nothing but actions is put out. *)
Theorem actions_name_paths_under_replica (fuel : nat)
    (source replica : string) (st : state) :
  plain source = true -> wf (fs st) = true ->
  exists l,
    out (snd (sync_pass fuel source replica st)) = out st ++ l /\
    Forall (acts_under (parse replica)) l.
Proof.
  intros Hs Hw.
  destruct (sync_pass fuel source replica st) as [o st'] eqn:Hrun.
  assert (E0 : out st = out st ++ []) by now rewrite app_nil_r.
  destruct (sync_pass_confined source replica Hs (out st) fuel st [] o st'
              E0 (conj Hw (Forall_nil _)) Hrun) as [l [Ho [_ Hl]]].
  cbn [snd]. now exists l.
Qed.

Lemma actions_name_paths_under_replica_witness :
  exists l,
    out (snd (sync_pass 4 "s" "r" demo_state)) = out demo_state ++ l /\
    Forall (acts_under (parse "r")) l.
Proof. apply actions_name_paths_under_replica; reflexivity. Defined.

(** ** Passes at the edges *)

Lemma listing_inv (top : string) (st : state) (dirs files : list string) :
  listing top (fs st) = Ok (dirs, files) ->
  resolve top = Some (parse top) /\ view st (parse top) = Some EDir.
Proof.
  unfold listing, scandir. destruct (resolve top) as [p|] eqn:Rt;
    [|discriminate].
  pose proof (resolve_parse _ _ Rt) as ->.
  destruct (lookup (parse top) (fs st)) as [[? ?|m es]|] eqn:El;
    try discriminate.
  intros _. split; [reflexivity|]. apply view_lookup_dir. eauto.
Qed.

Lemma listing_fails (top : string) (st : state) :
  view st (parse top) <> Some EDir -> exists e, listing top (fs st) = Raise e.
Proof.
  intros H. destruct (listing top (fs st)) as [[dirs files]|e] eqn:El;
    [|eauto].
  now apply listing_inv in El as [_ El].
Qed.

Section SameRoot.

Open Scope string_scope.

Lemma prefix_drop (a s : string) :
  String.prefix a s = true -> a ++ drop (String.length a) s = s.
Proof.
  revert s. induction a as [|c a IH]; intros s H; [reflexivity|].
  destruct s as [|b s]; [discriminate|]. simpl in H.
  destruct (ascii_dec c b) as [->|]; [|discriminate].
  simpl. now rewrite IH.
Qed.

Lemma replace1_same (a s : string) : replace1 a a s = s.
Proof.
  induction s as [|c s IH].
  - assert (U : replace1 a a ""
                = if String.prefix a ""
                  then a ++ drop (String.length a) "" else "") by reflexivity.
    rewrite U. destruct (String.prefix a "") eqn:E; [|reflexivity].
    now apply prefix_drop.
  - assert (U : replace1 a a (String c s)
                = if String.prefix a (String c s)
                  then a ++ drop (String.length a) (String c s)
                  else String c (replace1 a a s)) by reflexivity.
    rewrite U. destruct (String.prefix a (String c s)) eqn:E.
    + now apply prefix_drop.
    + now rewrite IH.
Qed.

End SameRoot.

Section OneRoot.

Variable p : string.

(** What is listed exists. *)
Lemma listed_exists (top : string) (st : state) (dirs files : list string)
    (x : string) :
  wf (fs st) = true -> listing top (fs st) = Ok (dirs, files) ->
  In x dirs \/ In x files ->
  proper x = true /\
  os_path_exists (join top x) st = (Done true, st) /\
  (In x dirs -> view st (parse top ++ [x]) = Some EDir) /\
  (In x files -> exists m d, view st (parse top ++ [x]) = Some (EFile m d)).
Proof.
  intros Hw Hl Hx. destruct (listing_inv _ _ _ _ Hl) as [Rt Vt].
  destruct (listing_spec _ _ st Rt Hw Vt)
    as [dirs' [files' [Hl' [_ [_ [Sd [Sf Spr]]]]]]].
  rewrite Hl in Hl'. injection Hl' as <- <-.
  assert (Hpx : proper x = true) by now apply Spr.
  split; [exact Hpx|].
  assert (Hd : In x dirs -> view st (parse top ++ [x]) = Some EDir)
    by (intros H; now apply Sd).
  assert (Hf : In x files ->
               exists m d, view st (parse top ++ [x]) = Some (EFile m d))
    by (intros H; now apply Sf).
  split; [|now split].
  rewrite (os_path_exists_spec _ _ st (resolve_join top x Hpx)).
  destruct Hx as [Hx|Hx].
  - now rewrite (Hd Hx).
  - destruct (Hf Hx) as [m [d ->]]. reflexivity.
Qed.

Lemma same_root_topdown (k : nat) (top : string) (st : state) :
  wf (fs st) = true -> 0 < k ->
  (forall r, view st (parse top ++ r) = Some EDir -> List.length r < k) ->
  os_walk_topdown k top (propagate_body p p) st = (Done tt, st).
Proof.
  revert top. induction k as [|k IHk]; intros top Hw Hk Hdepth; [lia|].
  cbn [os_walk_topdown].
  destruct (listing top (fs st)) as [[dirs files]|e] eqn:Hl; [|reflexivity].
  destruct (listing_inv _ _ _ _ Hl) as [Rt Vt].
  assert (Hbody : propagate_body p p top dirs files st = (Done tt, st)).
  { unfold propagate_body. rewrite replace1_same.
    rewrite (bind_done _ _ _ _ _ (os_path_exists_spec _ _ st Rt)), Vt.
    cbn [negb when].
    rewrite (bind_done _ _ _ _ _ (eq_refl : ret tt st = (Done tt, st))).
    apply for_each_noop. intros f Hf.
    destruct (listed_exists _ _ _ _ f Hw Hl (or_intror Hf))
      as [Hpf [He [_ Hv]]].
    destruct (Hv Hf) as [m [d Hm]].
    pose proof (os_path_getmtime_file _ _ st m d (resolve_join top f Hpf) Hm)
      as Hg.
    unfold propagate_file. rewrite (bind_done _ _ _ _ _ He). cbn [negb].
    rewrite !(bind_done _ _ _ _ _ Hg).
    assert (E : (m >? m)%Z = false) by (rewrite Z.gtb_ltb; apply Z.ltb_irrefl).
    now rewrite E. }
  rewrite (bind_done _ _ _ _ _ Hbody).
  apply for_each_noop. intros d Hd.
  destruct (listed_exists _ _ _ _ d Hw Hl (or_introl Hd)) as [Hpd [_ [Hv _]]].
  pose proof (Hdepth [d] (Hv Hd)) as H1. simpl in H1.
  apply IHk; [exact Hw | lia |].
  intros r Hr. rewrite (parse_join _ _ Hpd), <- app_assoc in Hr.
  apply Hdepth in Hr. simpl in Hr. lia.
Qed.

Lemma same_root_bottomup (k : nat) (top : string) (st : state) :
  wf (fs st) = true -> 0 < k ->
  (forall r, view st (parse top ++ r) = Some EDir -> List.length r < k) ->
  os_walk_bottomup k top (prune_body p p) st = (Done tt, st).
Proof.
  revert top. induction k as [|k IHk]; intros top Hw Hk Hdepth; [lia|].
  cbn [os_walk_bottomup].
  destruct (listing top (fs st)) as [[dirs files]|e] eqn:Hl; [|reflexivity].
  assert (Hsub : for_each dirs
                   (fun d => os_walk_bottomup k (join top d) (prune_body p p))
                   st = (Done tt, st)).
  { apply for_each_noop. intros d Hd.
    destruct (listed_exists _ _ _ _ d Hw Hl (or_introl Hd))
      as [Hpd [_ [Hv _]]].
    pose proof (Hdepth [d] (Hv Hd)) as H1. simpl in H1.
    apply IHk; [exact Hw | lia |].
    intros r Hr. rewrite (parse_join _ _ Hpd), <- app_assoc in Hr.
    apply Hdepth in Hr. simpl in Hr. lia. }
  rewrite (bind_done _ _ _ _ _ Hsub).
  unfold prune_body. rewrite replace1_same.
  assert (Hfiles : for_each files (prune_file top top) st = (Done tt, st)).
  { apply for_each_noop. intros f Hf.
    destruct (listed_exists _ _ _ _ f Hw Hl (or_intror Hf)) as [_ [He _]].
    unfold prune_file. now rewrite (bind_done _ _ _ _ _ He). }
  rewrite (bind_done _ _ _ _ _ Hfiles).
  apply for_each_noop. intros d Hd.
  destruct (listed_exists _ _ _ _ d Hw Hl (or_introl Hd)) as [_ [He _]].
  unfold prune_dir. now rewrite (bind_done _ _ _ _ _ He).
Qed.

End OneRoot.

(** X17. When the source and the replica are the same path string, a pass
    over a well-formed tree completes, changes nothing and reports
    nothing, whatever the path names. *)
Theorem same_root_pass_does_nothing (fuel : nat) (p : string) (st : state) :
  wf (fs st) = true -> height (fs st) < fuel ->
  sync_pass fuel p p st = (Done tt, st).
Proof.
  intros Hw Hfuel.
  assert (Hdepth : forall r, view st (parse p ++ r) = Some EDir ->
                             List.length r < fuel).
  { intros r H. apply height_lookup in H. rewrite List.length_app in H. lia. }
  unfold sync_pass, propagate, prune.
  rewrite (bind_done _ _ _ _ _
             (same_root_topdown p fuel p st Hw ltac:(lia) Hdepth)).
  exact (same_root_bottomup p fuel p st Hw ltac:(lia) Hdepth).
Qed.

Lemma same_root_pass_does_nothing_witness :
  sync_pass 4 "s/" "s/" demo_state = (Done tt, demo_state).
Proof. apply same_root_pass_does_nothing; [reflexivity | vm_compute; lia]. Defined.





(** ** A replica root that is not there *)

Lemma keep_if_merge_none (s : option entry) : keep_if s (merge s None) = s.
Proof. now destruct s as [[m d|]|]. Qed.



(** ** The loop of passes *)

Lemma view_of_fs (st st' : state) (q : list string) :
  fs st' = fs st -> view st' q = view st q.
Proof. unfold view. now intros ->. Qed.

(** Passes that do nothing, one after each sleep, until the interrupt. *)
Lemma loop_of_silent_passes (fuel : nat) (source replica : string)
    (interval : Z) (t : node) :
  (forall st, fs st = t -> sync_pass fuel source replica st = (Done tt, st)) ->
  forall ticks st, fs st = t ->
    replicate_source ticks fuel source replica interval st
    = (Done tt, mkState t (clock st + Z.of_nat ticks * interval)
                  (out st ++ [stop_notice])).
Proof.
  intros Hpass. induction ticks as [|n IH]; intros st Hfs.
  - cbn [replicate_source]. rewrite (bind_done _ _ _ _ _ (Hpass st Hfs)).
    replace (clock st + Z.of_nat 0 * interval)%Z with (clock st)
      by (simpl; lia).
    unfold print, stop_notice. now rewrite Hfs.
  - cbn [replicate_source]. rewrite (bind_done _ _ _ _ _ (Hpass st Hfs)).
    rewrite (bind_done _ _ st
               (mkState (fs st) (clock st + interval) (out st)) tt)
      by reflexivity.
    rewrite IH by exact Hfs. cbn [clock out].
    replace (clock st + interval + Z.of_nat n * interval)%Z
      with (clock st + Z.of_nat (S n) * interval)%Z
      by (rewrite Nat2Z.inj_succ, Z.mul_succ_l; lia).
    reflexivity.
Qed.

Section Ready.

Variables source replica : string.
Hypothesis plain_source : plain source = true.
Hypothesis plain_replica : plain replica = true.
Hypothesis roots_apart : apart (parse source) (parse replica) = true.

Local Abbreviation S := (parse source).
Local Abbreviation R := (parse replica).

(** The run from a state in which both roots are directories, no relative
    path is a file on one side and a directory on the other, and [fuel]
    bounds the depth of both trees: the first pass completes and every
    later one is silent. *)
Lemma run_from_ready (ticks fuel : nat) (interval : Z) (st : state) :
  wf (fs st) = true ->
  view st S = Some EDir -> view st R = Some EDir ->
  (forall r e e', view st (S ++ r) = Some e -> view st (R ++ r) = Some e' ->
                  same_kind e e' = true) ->
  (forall r, view st (S ++ r) = Some EDir -> List.length r < fuel) ->
  (forall r, view st (R ++ r) = Some EDir -> List.length r < fuel) ->
  exists st1,
    sync_pass fuel source replica st = (Done tt, st1) /\
    view st1 R = Some EDir /\
    (forall x r, view st1 (R ++ x :: r) =
                 keep_if (view st (S ++ x :: r))
                   (merge (view st (S ++ x :: r)) (view st (R ++ x :: r)))) /\
    (forall q, prefixb R q = false -> view st1 q = view st q) /\
    replicate_source ticks fuel source replica interval st
    = (Done tt, mkState (fs st1) (clock st1 + Z.of_nat ticks * interval)
                  (out st1 ++ [stop_notice])).
Proof.
  intros Hw Hsrc Hrep Hcompat HdS HdR.
  destruct (propagate_visit source replica plain_source plain_replica
              roots_apart fuel [] st) as [st1 [Hrun1 [Hw1 [P1 P2]]]].
  { split; [exact Hw|]. split; [constructor|].
    rewrite !app_nil_r. split; [exact Hsrc|].
    split; [left; now rewrite app_nil_r|]. now split. }
  rewrite app_nil_r in P1. simpl in P2.
  change (propagate fuel source replica st = (Done tt, st1)) in Hrun1.
  destruct (prune_visit source replica plain_source plain_replica
              roots_apart fuel [] st1) as [st2 [Hrun2 [Hw2 [Q1 [Q2 Q3]]]]].
  { split; [exact Hw1|]. split; [constructor|]. rewrite !app_nil_r.
    split.
    - rewrite <- (app_nil_r R), P2, !app_nil_r, Hsrc. reflexivity.
    - intros r H. simpl in H. rewrite P2 in H.
      apply merge_dir in H as [H|H]; auto. }
  rewrite app_nil_r in Q1, Q2. simpl in Q3.
  change (prune fuel source replica st1 = (Done tt, st2)) in Hrun2.
  assert (Hout : forall r, prefixb R (S ++ r) = false).
  { intros r. rewrite <- (app_nil_r R). apply (source_outside _ _ roots_apart). }
  assert (Hsame : forall r, view st2 (S ++ r) = view st (S ++ r)).
  { intros r. now rewrite (Q1 _ (Hout r)), (P1 _ (Hout r)). }
  assert (Hin : forall x r, view st2 (R ++ x :: r) =
                  keep_if (view st (S ++ x :: r))
                    (merge (view st (S ++ x :: r)) (view st (R ++ x :: r)))).
  { intros x r. now rewrite Q3, P2, (P1 _ (Hout _)). }
  assert (Hpass : sync_pass fuel source replica st = (Done tt, st2)).
  { unfold sync_pass. now rewrite (bind_done _ _ _ _ _ Hrun1). }
  assert (Hsilent : forall st', fs st' = fs st2 ->
            sync_pass fuel source replica st' = (Done tt, st')).
  { intros st' Hfs.
    apply (sync_pass_settled source replica plain_source plain_replica
             fuel st').
    - now rewrite Hfs.
    - intros [|x r]; rewrite !(view_of_fs _ _ _ Hfs).
      + rewrite !app_nil_r, Q2.
        rewrite <- (app_nil_r S), Hsame, app_nil_r, Hsrc. exact I.
      + rewrite Hin, Hsame. apply settled_after_pass.
    - rewrite (view_of_fs _ _ _ Hfs).
      now rewrite <- (app_nil_r S), Hsame, app_nil_r.
    - intros r H. rewrite (view_of_fs _ _ _ Hfs), Hsame in H. auto. }
  exists st2. split; [exact Hpass|]. split; [exact Q2|].
  split; [exact Hin|]. split.
  { intros q Hq. now rewrite (Q1 _ Hq), (P1 _ Hq). }
  destruct ticks as [|n]; cbn [replicate_source];
    rewrite (bind_done _ _ _ _ _ Hpass).
  - replace (clock st2 + Z.of_nat 0 * interval)%Z with (clock st2)
      by (simpl; lia).
    reflexivity.
  - rewrite (bind_done _ _ st2
               (mkState (fs st2) (clock st2 + interval) (out st2)) tt)
      by reflexivity.
    rewrite (loop_of_silent_passes fuel source replica interval (fs st2)
               Hsilent n
               (mkState (fs st2) (clock st2 + interval) (out st2)) eq_refl).
    cbn [clock out].
    replace (clock st2 + interval + Z.of_nat n * interval)%Z
      with (clock st2 + Z.of_nat (Datatypes.S n) * interval)%Z
      by (rewrite Nat2Z.inj_succ, Z.mul_succ_l; lia).
    reflexivity.
Qed.

End Ready.



(** X22. Whatever the roots and the tree, for an interval that
    [time.sleep] accepts and a number of sleeps that the recursion limit
    allows, what [replicate_source] puts out is a list of actions
    followed, exactly when the run ends normally, by the stopping notice:
    the notice is printed once, as the last line, and a run that an
    exception ends prints none. *)
Theorem stop_notice_ends_a_completed_run (ticks fuel : nat)
    (source replica : string) (interval : Z) (st : state) :
  run_fits ticks fuel interval ->
  exists l,
    Forall is_action l /\
    out (snd (replicate_source ticks fuel source replica interval st))
    = out st ++ l
      ++ closing (fst (replicate_source ticks fuel source replica interval st)).
Proof.
  intros _. revert st. induction ticks as [|n IH]; intros st;
    destruct (sync_pass fuel source replica st) as [o1 st1] eqn:H1;
    assert (E0 : out st = out st ++ []) by (now rewrite app_nil_r);
    destruct (sync_pass_only_actions (out st) fuel source replica st []
                o1 st1 E0 (Forall_nil _) H1) as [l1 [Ho1 Hl1]].
  - assert (Erun : replicate_source 0 fuel source replica interval st
                   = match o1 with
                     | Done _ => (Done tt, mkState (fs st1) (clock st1)
                                             (out st1 ++ [stop_notice]))
                     | Failed e => (Failed e, st1)
                     | OutOfFuel => (OutOfFuel, st1)
                     end).
    { cbn [replicate_source]. unfold bind. rewrite H1.
      now destruct o1 as [[]|e|]. }
    rewrite Erun. exists l1. split; [exact Hl1|].
    destruct o1 as [[]|e|]; cbn [fst snd closing out].
    + now rewrite Ho1, <- app_assoc.
    + now rewrite Ho1, app_nil_r.
    + now rewrite Ho1, app_nil_r.
  - set (slept := mkState (fs st1) (clock st1 + interval) (out st1)).
    assert (Erun : replicate_source (S n) fuel source replica interval st
                   = match o1 with
                     | Done _ =>
                         replicate_source n fuel source replica interval slept
                     | Failed e => (Failed e, st1)
                     | OutOfFuel => (OutOfFuel, st1)
                     end).
    { cbn [replicate_source]. unfold bind at 1. rewrite H1.
      now destruct o1 as [[]|e|]. }
    rewrite Erun. destruct o1 as [[]|e|].
    + destruct (IH slept) as [l2 [Hl2 Ho2]].
      exists (l1 ++ l2). split; [now apply Forall_app|].
      rewrite Ho2. change (out slept) with (out st1).
      set (c := closing _). clearbody c.
      now rewrite Ho1, <- !app_assoc.
    + exists l1. split; [exact Hl1|]. cbn [fst snd closing].
      now rewrite Ho1, app_nil_r.
    + exists l1. split; [exact Hl1|]. cbn [fst snd closing].
      now rewrite Ho1, app_nil_r.
Qed.

Lemma stop_notice_ends_a_completed_run_witness :
  exists l,
    Forall is_action l /\
    out (snd (replicate_source 2 3 "s" "r" 60 blocked_state))
    = out blocked_state ++ l
      ++ closing (fst (replicate_source 2 3 "s" "r" 60 blocked_state)).
Proof.
  apply stop_notice_ends_a_completed_run.
  unfold run_fits, recursion_limit. lia.
Defined.

(** X23. Nothing in [replicate_source] catches an [OSError]: a pass that
    raises one ends the run with it, in the state in which it was raised;
    and a run that ends with one ends in the state in which a pass raised
    it, so no later pass ran, no sleep followed and nothing was printed
    after it.  The interval is one that [time.sleep] accepts and the number
    of sleeps one the recursion limit allows. *)
Theorem failed_pass_ends_the_run (ticks fuel : nat)
    (source replica : string) (interval : Z) (st : state) :
  run_fits ticks fuel interval ->
  (forall e st',
     sync_pass fuel source replica st = (Failed e, st') ->
     replicate_source ticks fuel source replica interval st
     = (Failed e, st')) /\
  (forall e st',
     replicate_source ticks fuel source replica interval st
     = (Failed e, st') ->
     exists st0, sync_pass fuel source replica st0 = (Failed e, st')).
Proof.
  intros _. split.
  - intros e st' H. destruct ticks; cbn [replicate_source];
      now apply bind_failed.
  - intros e st'. revert st. induction ticks as [|n IH]; intros st Hrun;
      cbn [replicate_source] in Hrun; unfold bind at 1 in Hrun;
      destruct (sync_pass fuel source replica st) as [[[]|e1|] st1] eqn:H1;
      try discriminate.
    + injection Hrun as <- <-. now exists st.
    + unfold bind, sleep in Hrun. exact (IH _ Hrun).
    + injection Hrun as <- <-. now exists st.
Qed.

Lemma failed_pass_ends_the_run_witness :
  replicate_source 2 3 "s" "r" 60 blocked_state
  = (Failed NotADirectoryError, blocked_state).
Proof.
  refine (proj1 (failed_pass_ends_the_run 2 3 "s" "r" 60 blocked_state _)
            _ _ _).
  - unfold run_fits, recursion_limit. lia.
  - reflexivity.
Defined.

(** ** The start of the program *)

Section AlterFails.

Variable now : Z.
Variable f : option node -> result (option node).

(** A path that runs through a regular file. *)
Lemma alter_through_file (pp : list string) (x : string) (n : node)
    (m : Z) (d : string) :
  lookup pp n = Some (File m d) ->
  alter now f (pp ++ [x]) n = Raise NotADirectoryError.
Proof.
  revert n. induction pp as [|y pp IH]; intros n H.
  - injection H as ->. reflexivity.
  - destruct n as [|m' es]; [discriminate|]. rewrite lookup_cons in H.
    destruct (assoc y es) as [c|] eqn:Ey; [|discriminate].
    specialize (IH c H).
    destruct pp as [|z pp]; simpl app in *; rewrite alter_deeper, Ey;
      now rewrite IH.
Qed.

(** A path at which [f] refuses what is there. *)
Lemma alter_refused (p : list string) (n c : node) (e : oserror) :
  p <> [] -> lookup p n = Some c -> f (Some c) = Raise e ->
  alter now f p n = Raise e.
Proof.
  revert n. induction p as [|y p IH]; intros n Hp H Hf; [now elim Hp|].
  destruct n as [|m' es]; [discriminate|]. rewrite lookup_cons in H.
  destruct (assoc y es) as [c'|] eqn:Ey; [|discriminate].
  destruct p as [|z p].
  - injection H as ->. now rewrite alter_single, Ey, Hf.
  - rewrite alter_deeper, Ey. now rewrite (IH c' ltac:(discriminate) H Hf).
Qed.

End AlterFails.

Lemma open_append_entry (now : Z) (pp : list string) (x : string)
    (n : node) :
  entry_at n pp = Some EDir -> entry_at n (pp ++ [x]) <> Some EDir ->
  exists n', open_append now (pp ++ [x]) n = Ok n' /\
    entry_at n' (pp ++ [x])
    = Some (match entry_at n (pp ++ [x]) with
            | Some e => e
            | None => EFile now ""
            end) /\
    forall q, q <> pp ++ [x] -> entry_at n' q = entry_at n q.
Proof.
  intros Hd Hx. unfold open_append.
  set (f := fun old : option node =>
              match old with
              | None => Ok (Some (File now ""))
              | Some (File m d) => Ok (Some (File m d))
              | Some (Dir _ _) => Raise IsADirectoryError
              end).
  assert (Hf : exists m d, f (lookup (pp ++ [x]) n) = Ok (Some (File m d)) /\
                 match entry_at n (pp ++ [x]) with
                 | Some e => e
                 | None => EFile now ""
                 end = EFile m d).
  { unfold entry_at in *.
    destruct (lookup (pp ++ [x]) n) as [[m d|? ?]|]; simpl in *.
    - now exists m, d.
    - now elim Hx.
    - now exists now, "". }
  destruct Hf as [m [d [Hf ->]]].
  destruct (alter_ok now f pp x n _ Hd Hf) as [n' Hn'].
  exists n'. split; [exact Hn'|].
  pose proof (alter_entry _ _ _ _ _ _ Hn' Hf) as He. split.
  - now rewrite He, prefixb_refl, skipn_all.
  - intros q Hq. rewrite He. destruct (prefixb (pp ++ [x]) q) eqn:E;
      [|reflexivity].
    apply prefixb_spec in E as [r ->]. rewrite skipn_length_app.
    destruct r as [|y r]; [now rewrite app_nil_r in Hq|].
    symmetry. destruct (entry_at n (pp ++ [x])) as [[m' d'|]|] eqn:Ex.
    + now apply (entry_at_file_under _ _ _ m' d').
    + now elim Hx.
    + now apply entry_at_none_under.
Qed.

Lemma main_checks_pass (ticks fuel : nat) (args : arguments) (st : state) :
  there st (arg_source args) = true ->
  there st (arg_replica args) = true ->
  there st (arg_log_file args) = true ->
  main ticks fuel args st
  = (logging_basicConfig (join (arg_log_file args) "Log") ;;
     replicate_source ticks fuel (arg_source args) (arg_replica args)
       (arg_interval args)) st.
Proof.
  intros H1 H2 H3.
  assert (P : forall p, path_exists p st = (Done (there st p), st))
    by reflexivity.
  unfold main. rewrite (bind_done _ _ _ _ _ (P _)), H1. cbn [negb].
  rewrite (bind_done _ _ _ _ _ (P _)), H2. cbn [negb].
  now rewrite (bind_done _ _ _ _ _ (P _)), H3.
Qed.

Lemma there_lookup (st : state) (path : string) (c : node) :
  lookup (parse path) (fs st) = Some c -> there st path = true.
Proof. unfold there. now intros ->. Qed.

Lemma log_resolves (args : arguments) :
  resolve (join (arg_log_file args) "Log") = Some (log_path args).
Proof. now apply resolve_join. Qed.

(** X24. When the source and the replica exist and the path given for the
    log exists but is a regular file, or holds a directory named [Log],
    opening the log file fails: [main] raises [NotADirectoryError] in the
    first case and [IsADirectoryError] in the second, before any pass;
    nothing is printed and the tree is as it was. *)
Theorem main_fails_on_unusable_log_path (ticks fuel : nat)
    (args : arguments) (st : state) :
  there st (arg_source args) = true ->
  there st (arg_replica args) = true ->
  (forall m d,
     lookup (parse (arg_log_file args)) (fs st) = Some (File m d) ->
     main ticks fuel args st = (Failed NotADirectoryError, st)) /\
  (forall m es,
     lookup (log_path args) (fs st) = Some (Dir m es) ->
     main ticks fuel args st = (Failed IsADirectoryError, st)).
Proof.
  intros H1 H2. split.
  - intros m d Hl.
    rewrite (main_checks_pass _ _ _ _ H1 H2 (there_lookup _ _ _ Hl)).
    apply bind_failed. unfold logging_basicConfig, change.
    rewrite log_resolves. unfold log_path, open_append.
    now rewrite (alter_through_file _ _ _ _ _ m d Hl).
  - intros m es Hl.
    assert (H3 : there st (arg_log_file args) = true).
    { unfold log_path in Hl. rewrite lookup_app in Hl. unfold there.
      now destruct (lookup (parse (arg_log_file args)) (fs st)). }
    rewrite (main_checks_pass _ _ _ _ H1 H2 H3).
    apply bind_failed. unfold logging_basicConfig, change.
    rewrite log_resolves. unfold open_append.
    rewrite (alter_refused _ _ _ _ (Dir m es) IsADirectoryError); auto.
    unfold log_path. now destruct (parse (arg_log_file args)).
Qed.

Lemma main_fails_on_unusable_log_path_witness :
  main 2 3 (mkArgs "s" "r" "notes" 60) desk_state
  = (Failed NotADirectoryError, desk_state) /\
  main 2 3 (mkArgs "s" "r" "logs" 60) desk_state
  = (Failed IsADirectoryError, desk_state).
Proof.
  split.
  - apply (proj1 (main_fails_on_unusable_log_path 2 3
                    (mkArgs "s" "r" "notes" 60) desk_state
                    eq_refl eq_refl) 2%Z "text").
    reflexivity.
  - apply (proj2 (main_fails_on_unusable_log_path 2 3
                    (mkArgs "s" "r" "logs" 60) desk_state
                    eq_refl eq_refl) 0%Z []).
    reflexivity.
Defined.





